(** * Obsidian -> Quartz synchronisation engine (sync.mjs)

    A shallow embedding of the reconciliation engine of [sync.mjs] and the
    properties its specification states about it.

    JavaScript strings are sequences of UTF-16 code units; they are modelled
    as lists of numbers, so that the regular expression classes ([\s], the
    CJK front-matter keys) keep their meaning.  Functions of Node's [path]
    module that the claims inspect ([extname], [basename]) follow the POSIX
    implementation of Node; [path.join], [path.dirname] and
    [String.prototype.toLowerCase] are parameters ([NodeLib]).

    The file system is an interface.  What [getPublishableSet] reads is
    a set of pure functions ([SourceTree]): the file system as it is when
    a run starts, all these reads coming before the first call of the run
    that changes anything.  Two runs have two such views, and a path that
    is read can lie anywhere, a reference with [..] leading out of the
    source root.  The calls on the destination and on the manifest store
    are state-passing calls whose outcome is left open ([DestFS]), and
    each of them is recorded, with its outcome, in a trace.  Modification
    times are integers: only their order is used.  [Disk] is an
    environment where both trees are parts of one file system.

    The entries of the manifest are typed ([manifest]): what
    [readManifest] gives on a file that is missing, that cannot be parsed,
    or that [writeManifest] wrote.  [run_stored] is [run] on a manifest
    file with entries of another shape, on which the code raises a
    [TypeError].

    The traversal of the source tree ([listMdFiles]) runs on a tree of
    directory entries, with [path.relative] as a parameter
    ([NodeRelative]); the snapshot builder takes its result through
    [src_listMdFiles].  The task log of the dashboard ([server.mjs]) is a
    list, newest entry first. *)

From Stdlib Require Import String Ascii List NArith ZArith Bool Lia.
Import ListNotations.

Set Implicit Arguments.

(* ------------------------------------------------------------------ *)
(** ** JavaScript strings *)

Module JS.

Definition jsstring := list N.

(** An ASCII literal as a sequence of code units. *)
Definition lit (s : string) : jsstring :=
  map N_of_ascii (list_ascii_of_string s).

Definition str_eqb (a b : jsstring) : bool :=
  if list_eq_dec N.eq_dec a b then true else false.

(** [s.startsWith(p)] *)
Fixpoint startsWith (p s : jsstring) : bool :=
  match p, s with
  | [], _ => true
  | _ :: _, [] => false
  | a :: p', b :: s' => (a =? b)%N && startsWith p' s'
  end.

(** The class [\s] of ECMAScript: WhiteSpace and LineTerminator code
    points.  [String.prototype.trim] strips the same set. *)
Definition is_space (c : N) : bool :=
  ((9 <=? c) && (c <=? 13) || (c =? 32) || (c =? 160) || (c =? 5760)
   || (8192 <=? c) && (c <=? 8202) || (c =? 8232) || (c =? 8233)
   || (c =? 8239) || (c =? 8287) || (c =? 12288) || (c =? 65279))%N.

Fixpoint trimStart (s : jsstring) : jsstring :=
  match s with
  | c :: s' => if is_space c then trimStart s' else s
  | [] => []
  end.

Definition trimEnd (s : jsstring) : jsstring := rev (trimStart (rev s)).

Definition trim (s : jsstring) : jsstring := trimEnd (trimStart s).

(** [s.slice(from, to)], with the relative (negative) indices of
    ECMAScript.  [-0] is [0], as for JavaScript numbers. *)
Definition slice_index (len i : Z) : Z :=
  if (i <? 0)%Z then Z.max (len + i) 0 else Z.min i len.

Definition slice (s : jsstring) (from to : Z) : jsstring :=
  let len := Z.of_nat (length s) in
  let k := slice_index len from in
  let e := slice_index len to in
  firstn (Z.to_nat (e - k)) (skipn (Z.to_nat k) s).

(** [s.replace(/c/g, rep)] for a pattern that matches exactly one code unit
    of the class [p]: every such code unit is replaced by [rep]. *)
Definition replace_class (p : N -> bool) (rep : jsstring) (s : jsstring)
  : jsstring :=
  flat_map (fun c => if p c then rep else [c]) s.

End JS.
Import JS.

(* ------------------------------------------------------------------ *)
(** ** Node's [path] module (POSIX flavour) *)

Module Path.

Definition SLASH : N := 47.
Definition DOT : N := 46.

(** State of the right-to-left scan of [path.extname]. *)
Record ext_state := mkExt {
  startDot : Z;
  startPart : Z;
  end_ : Z;
  matchedSlash : bool;
  preDotState : Z
}.

Definition ext_init : ext_state := mkExt (-1) 0 (-1) true 0.

(** The loop [for (let i = path.length - 1; i >= 0; --i)] of
    [path.extname]; [rs] holds the code units still to visit, last first. *)
Fixpoint extname_scan (rs : jsstring) (i : Z) (st : ext_state) : ext_state :=
  match rs with
  | [] => st
  | code :: rs' =>
      if (code =? SLASH)%N then
        if negb (matchedSlash st)
        then mkExt (startDot st) (i + 1) (end_ st) (matchedSlash st)
                   (preDotState st)                       (* break *)
        else extname_scan rs' (i - 1) st                  (* continue *)
      else
        let st1 :=
          if (end_ st =? -1)%Z
          then mkExt (startDot st) (startPart st) (i + 1) false
                     (preDotState st)
          else st in
        let st2 :=
          if (code =? DOT)%N then
            if (startDot st1 =? -1)%Z
            then mkExt i (startPart st1) (end_ st1) (matchedSlash st1)
                       (preDotState st1)
            else if negb (preDotState st1 =? 1)%Z
                 then mkExt (startDot st1) (startPart st1) (end_ st1)
                            (matchedSlash st1) 1
                 else st1
          else if negb (startDot st1 =? -1)%Z
               then mkExt (startDot st1) (startPart st1) (end_ st1)
                          (matchedSlash st1) (-1)
               else st1 in
        extname_scan rs' (i - 1) st2
  end.

Definition extname (path : jsstring) : jsstring :=
  let st := extname_scan (rev path) (Z.of_nat (length path) - 1) ext_init in
  if ((startDot st =? -1) || (end_ st =? -1) || (preDotState st =? 0)
      || ((preDotState st =? 1) && (startDot st =? end_ st - 1)
          && (startDot st =? startPart st + 1)))%Z
  then []
  else slice path (startDot st) (end_ st).

(** State of the scan of [path.basename] (called without suffix). *)
Record base_state := mkBase {
  b_start : Z;
  b_end : Z;
  b_matchedSlash : bool
}.

Fixpoint basename_scan (rs : jsstring) (i : Z) (st : base_state)
  : base_state :=
  match rs with
  | [] => st
  | code :: rs' =>
      if (code =? SLASH)%N then
        if negb (b_matchedSlash st)
        then mkBase (i + 1) (b_end st) (b_matchedSlash st)   (* break *)
        else basename_scan rs' (i - 1) st
      else if (b_end st =? -1)%Z
           then basename_scan rs' (i - 1) (mkBase (b_start st) (i + 1) false)
           else basename_scan rs' (i - 1) st
  end.

Definition basename (path : jsstring) : jsstring :=
  let st := basename_scan (rev path) (Z.of_nat (length path) - 1)
                          (mkBase 0 (-1) true) in
  if (b_end st =? -1)%Z then [] else slice path (b_start st) (b_end st).

End Path.

(* ------------------------------------------------------------------ *)
(** ** Name normaliser *)

Definition AMP : N := 38.
Definition PERCENT : N := 37.
Definition QUESTION : N := 63.
Definition HASH : N := 35.

(** The chain of [replace] calls of [slugifyBasename], in source order. *)
Definition slug_replace (base : jsstring) : jsstring :=
  replace_class (N.eqb HASH) []
    (replace_class (N.eqb QUESTION) []
      (replace_class (N.eqb PERCENT) (lit "-percent")
        (replace_class (N.eqb AMP) (lit "-and-")
          (replace_class is_space (lit "-") base)))).

Definition slugifyBasename (basename : jsstring) : jsstring :=
  let ext := Path.extname basename in
  let base := slice basename 0 (- Z.of_nat (length ext)) in
  let slug := slug_replace base in
  slug ++ ext.


(* ------------------------------------------------------------------ *)
(** ** Regular expressions

    A backtracking matcher with the priorities of ECMAScript: alternatives
    left to right, greedy quantifiers longest first, lazy ones shortest
    first.  The patterns of [sync.mjs] have no flag besides [g], so they
    work on code units and [^] is the start of the input. *)

Module Regex.

Inductive re : Type :=
| Bos                      (* ^ *)
| Chr (p : N -> bool)      (* one code unit of a class *)
| Str (s : jsstring)       (* a literal sequence *)
| Seq (a b : re)
| Alt (a b : re)           (* a|b *)
| Opt (a : re)             (* a? *)
| Star (a : re)            (* a*  *)
| LazyStar (a : re)        (* a*? *)
| Group (a : re)           (* the capture group 1 *)
| NotAhead (a : re).       (* (?!a) *)

Definition Plus (a : re) : re := Seq a (Star a).

Definition orelse {A} (x y : option A) : option A :=
  match x with Some _ => x | None => y end.

(** [backtrack r total cap rest k]: match [r] at the position where [rest]
    remains of an input of [total] code units, then continue with [k];
    [None] makes the caller backtrack.  An iteration of a quantifier that
    consumes nothing is rejected, as ECMAScript does. *)
Fixpoint backtrack (A : Type) (r : re) (total : nat) (cap : option jsstring)
  (rest : jsstring) (k : option jsstring -> jsstring -> option A)
  {struct r} : option A :=
  match r with
  | Bos => if Nat.eqb (length rest) total then k cap rest else None
  | Chr p =>
      match rest with
      | c :: rest' => if p c then k cap rest' else None
      | [] => None
      end
  | Str s =>
      if startsWith s rest then k cap (skipn (length s) rest) else None
  | Seq a b =>
      backtrack a total cap rest
        (fun cap' rest' => backtrack b total cap' rest' k)
  | Alt a b =>
      orelse (backtrack a total cap rest k) (backtrack b total cap rest k)
  | Opt a => orelse (backtrack a total cap rest k) (k cap rest)
  | Star a =>
      (fix loop (fuel : nat) (cap : option jsstring) (rest : jsstring)
         : option A :=
         match fuel with
         | O => k cap rest
         | S fuel' =>
             orelse
               (backtrack a total cap rest (fun cap' rest' =>
                  if Nat.ltb (length rest') (length rest)
                  then loop fuel' cap' rest' else None))
               (k cap rest)
         end) (length rest) cap rest
  | LazyStar a =>
      (fix loop (fuel : nat) (cap : option jsstring) (rest : jsstring)
         : option A :=
         match fuel with
         | O => k cap rest
         | S fuel' =>
             orelse
               (k cap rest)
               (backtrack a total cap rest (fun cap' rest' =>
                  if Nat.ltb (length rest') (length rest)
                  then loop fuel' cap' rest' else None))
         end) (length rest) cap rest
  | Group a =>
      backtrack a total cap rest (fun _ rest' =>
        k (Some (firstn (length rest - length rest') rest)) rest')
  | NotAhead a =>
      match backtrack a total cap rest (fun _ _ => Some tt) with
      | Some _ => None
      | None => k cap rest
      end
  end.

(** A match: its length and what group 1 captured. *)
Definition match_result := (nat * option jsstring)%type.

(** Match [r] at the position where [rest] remains. *)
Definition match_at (r : re) (total : nat) (rest : jsstring)
  : option match_result :=
  backtrack r total None rest
      (fun cap rest' => Some (length rest - length rest', cap)).

(** [re.exec(s)] for a pattern without [g], and the first step of the
    others: the leftmost position with a match.  Returns the text before
    the match, the match, and the text from the match on. *)
Fixpoint search_from (r : re) (total : nat) (rest : jsstring)
  : option match_result :=
  match match_at r total rest with
  | Some m => Some m
  | None =>
      match rest with
      | [] => None
      | _ :: rest' => search_from r total rest'
      end
  end.

Definition exec (r : re) (s : jsstring) : option match_result :=
  search_from r (length s) s.

(** [re.test(s)] *)
Definition test (r : re) (s : jsstring) : bool :=
  match exec r s with Some _ => true | None => false end.

(** The loop [while ((m = re.exec(s)) !== null)] over a [g] pattern: the
    successive matches, left to right, each search starting where the
    previous match ended.  [skip] counts the code units of the current
    match still to pass.  (None of the patterns can match the empty
    string, so [lastIndex] always advances.) *)
Fixpoint exec_all (r : re) (total : nat) (rest : jsstring) (skip : nat)
  : list (option jsstring) :=
  match rest with
  | [] => []
  | _ :: rest' =>
      match skip with
      | S skip' => exec_all r total rest' skip'
      | O =>
          match match_at r total rest with
          | Some (len, cap) => cap :: exec_all r total rest' (len - 1)
          | None => exec_all r total rest' 0
          end
      end
  end.

(** [s.replace(re, f)] for a [g] pattern: every match is replaced by [f]
    applied to its capture; the text between matches is kept. *)
Fixpoint replace_all (r : re) (f : option jsstring -> jsstring)
  (total : nat) (rest : jsstring) (skip : nat) : jsstring :=
  match rest with
  | [] => []
  | c :: rest' =>
      match skip with
      | S skip' => replace_all r f total rest' skip'
      | O =>
          match match_at r total rest with
          | Some (len, cap) =>
              f cap ++ replace_all r f total rest' (len - 1)
          | None => c :: replace_all r f total rest' 0
          end
      end
  end.

End Regex.
Import Regex.

(* ------------------------------------------------------------------ *)
(** ** Publishability filter *)

Definition NL : N := 10.

Definition any_char (c : N) : bool := is_space c || negb (is_space c).

(** [/^---\s*\n([\s\S]*?)\n---/] *)
Definition FRONTMATTER_REGEX : re :=
  Seq Bos
  (Seq (Str (lit "---"))
  (Seq (Star (Chr is_space))
  (Seq (Chr (N.eqb NL))
  (Seq (Group (LazyStar (Chr any_char)))
       (Str (NL :: lit "---")))))).

(** The two accepted keys, as code units. *)
(* U+53EF U+53D1 U+5E03 *)
Definition KEY_KEFABU : jsstring := [21487; 21457; 24067]%N.
(* U+5DF2 U+53D1 U+5E03 *)
Definition KEY_YIFABU : jsstring := [24050; 21457; 24067]%N.

(** [/(?:KEY_KEFABU|KEY_YIFABU)\s*:\s*true/] *)
Definition PUBLISHABLE_REGEX : re :=
  Seq (Alt (Str KEY_KEFABU) (Str KEY_YIFABU))
  (Seq (Star (Chr is_space))
  (Seq (Str (lit ":"))
  (Seq (Star (Chr is_space))
       (Str (lit "true"))))).

(** What [match[1]] holds: a group that did not take part is [undefined];
    group 1 of [FRONTMATTER_REGEX] always takes part. *)
Definition group1 (m : match_result) : jsstring :=
  match snd m with Some g => g | None => [] end.

Definition hasPublishableFrontmatter (content : jsstring) : bool :=
  match exec FRONTMATTER_REGEX content with
  | None => false
  | Some m => test PUBLISHABLE_REGEX (group1 m)
  end.

(* ------------------------------------------------------------------ *)
(** ** Reference extraction *)

Definition RBRACKET : N := 93.
Definition RPAREN : N := 41.

(** [/!\[\[([^\]]+)\]\]/g] *)
Definition WIKI_IMAGE_REGEX : re :=
  Seq (Str (lit "![["))
  (Seq (Group (Plus (Chr (fun c => negb (c =? RBRACKET)%N))))
       (Str (lit "]]"))).

(** [/!\[[^\]]*\]\((?!https?:\/\/)([^)]+)\)/g] *)
Definition MD_IMAGE_REGEX : re :=
  Seq (Str (lit "!["))
  (Seq (Star (Chr (fun c => negb (c =? RBRACKET)%N)))
  (Seq (Str (lit "]("))
  (Seq (NotAhead (Seq (Str (lit "http"))
                 (Seq (Opt (Str (lit "s"))) (Str (lit "://")))))
  (Seq (Group (Plus (Chr (fun c => negb (c =? RPAREN)%N))))
       (Str (lit ")")))))).

(** [refs.add(x)] on a [Set] kept in insertion order. *)
Definition set_add (x : jsstring) (refs : list jsstring) : list jsstring :=
  if existsb (str_eqb x) refs then refs else refs ++ [x].

Definition capture_text (c : option jsstring) : jsstring :=
  match c with Some g => g | None => [] end.

(** The captures [m[1]] of the successive matches of a [g] pattern. *)
Definition captures (r : re) (content : jsstring) : list jsstring :=
  map capture_text (exec_all r (length content) content 0).

(** The first loop of [extractAssetRefs]. *)
Definition add_wiki_refs (content : jsstring) (refs : list jsstring)
  : list jsstring :=
  fold_left (fun refs m1 => set_add (trim m1) refs)
            (captures WIKI_IMAGE_REGEX content) refs.

(** The second loop of [extractAssetRefs]. *)
Definition add_md_refs (content : jsstring) (refs : list jsstring)
  : list jsstring :=
  fold_left (fun refs m1 =>
               let href := trim m1 in
               if negb (startsWith (lit "http") href)
               then set_add href refs else refs)
            (captures MD_IMAGE_REGEX content) refs.

Definition extractAssetRefs (content : jsstring) : list jsstring :=
  add_md_refs content (add_wiki_refs content []).

(* ------------------------------------------------------------------ *)
(** ** Environment of the engine *)

(** Library functions the engine calls and no claim looks into. *)
Class NodeLib := {
  join : jsstring -> jsstring -> jsstring;     (* path.join(a, b) *)
  dirname : jsstring -> jsstring;              (* path.dirname(p) *)
  toLowerCase : jsstring -> jsstring           (* s.toLowerCase() *)
}.

(** A rejected promise of [fs]: the error and its [code]. *)
Record error := mkError { code : string }.

Inductive result (A : Type) : Type :=
| Ok (a : A)
| Err (e : error).
Arguments Ok {A} a.
Arguments Err {A} e.

Definition ENOENT : error := mkError "ENOENT".

Definition is_ENOENT (e : error) : bool := String.eqb (code e) "ENOENT".

(** What [getPublishableSet] reads of the file system, in the state it
    has when the run starts.  [src_listMdFiles] stands for the traversal
    [listMdFiles]: the [(full, rel)] pairs of the documents under a root.
    The paths given to [src_access] and [src_readdir] are those
    [findAssetFile] builds with [path.join]; nothing keeps them under the
    source root. *)
Class SourceTree := {
  src_listMdFiles : jsstring -> result (list (jsstring * jsstring));
  src_readFile : jsstring -> result jsstring;
  src_stat_mtimeMs : jsstring -> result Z;
  src_access : jsstring -> bool;               (* fs.access(p) resolves *)
  src_readdir : jsstring -> result (list jsstring)
}.

(** One resolved asset of a document. *)
Record asset := mkAsset {
  ref : jsstring;
  basename : jsstring;
  slugifiedBasename : jsstring;
  sourcePath : jsstring
}.

(** A value of the [Map] built by [getPublishableSet]. *)
Record document := mkDocument {
  mtime : Z;
  content : jsstring;
  assets : list asset
}.

(** A value of [manifest.entries]. *)
Record entry := mkEntry {
  e_mtime : Z;
  e_assets : list jsstring
}.

(** JavaScript [Map]s and objects with string keys keep insertion order;
    assigning to a present key keeps its place. *)
Module Dict.
Section Dict.
Context {V : Type}.

Definition t := list (jsstring * V).

Fixpoint get (d : t) (k : jsstring) : option V :=
  match d with
  | [] => None
  | (k', v) :: d' => if str_eqb k' k then Some v else get d' k
  end.

Definition has (d : t) (k : jsstring) : bool :=
  match get d k with Some _ => true | None => false end.

Fixpoint set (d : t) (k : jsstring) (v : V) : t :=
  match d with
  | [] => [(k, v)]
  | (k', v') :: d' =>
      if str_eqb k' k then (k', v) :: d' else (k', v') :: set d' k v
  end.

Definition keys (d : t) : list jsstring := map fst d.

End Dict.
Arguments t V : clear implicits.
End Dict.

Definition snapshot := Dict.t document.
Definition manifest := Dict.t entry.

(** [new Set(list)] and [set.has(x)], in insertion order. *)
Definition set_of (l : list jsstring) : list jsstring :=
  fold_left (fun s x => set_add x s) l [].

Definition set_has (s : list jsstring) (x : jsstring) : bool :=
  existsb (str_eqb x) s.

(** What a run does to the file system, in order, with the outcome of
    each call. *)
Inductive op : Type :=
| Unlink (p : jsstring)
| Readdir (p : jsstring)
| Rmdir (p : jsstring)
| Mkdir (p : jsstring)                          (* { recursive: true } *)
| CopyFile (src dst : jsstring)
| WriteFile (p : jsstring) (data : jsstring)
| WriteManifest (entries : manifest).

Definition event := (op * option error)%type.

(** The destination tree and the manifest store. *)
Class DestFS := {
  fs_state : Type;
  fs_unlink : jsstring -> fs_state -> fs_state * result unit;
  fs_readdir : jsstring -> fs_state -> fs_state * result (list jsstring);
  fs_rmdir : jsstring -> fs_state -> fs_state * result unit;
  fs_mkdir : jsstring -> fs_state -> fs_state * result unit;
  fs_copyFile : jsstring -> jsstring -> fs_state -> fs_state * result unit;
  fs_writeFile : jsstring -> jsstring -> fs_state -> fs_state * result unit;
  (** [fs.writeFile(MANIFEST_PATH, JSON.stringify(...))] *)
  fs_writeManifest : manifest -> fs_state -> fs_state * result unit;
  (** [manifest.entries || {}] of [readManifest()] on a manifest file that
      [writeManifest] wrote, or on one that cannot be read or parsed, which
      gives no entries.  For the other files see [run_stored]. *)
  fs_readManifest : fs_state -> manifest
}.

(* ------------------------------------------------------------------ *)
(** ** Asset resolver and snapshot builder *)

Section Resolver.
Context {lib : NodeLib} {src : SourceTree}.

Definition IMAGE : jsstring := lit "image".

(** The [for (const p of candidates)] loop of [findAssetFile]. *)
Fixpoint first_accessible (candidates : list jsstring) : option jsstring :=
  match candidates with
  | [] => None
  | p :: rest => if src_access p then Some p else first_accessible rest
  end.

(** The [for (const f of files)] loop of [findAssetFile]. *)
Fixpoint first_slug_match (imageDir wantSlug : jsstring)
  (files : list jsstring) : option jsstring :=
  match files with
  | [] => None
  | f :: rest =>
      if str_eqb (toLowerCase (slugifyBasename f)) wantSlug
      then Some (join imageDir f)
      else first_slug_match imageDir wantSlug rest
  end.

Definition findAssetFile (obsidianDir mdDir ref : jsstring)
  : option jsstring :=
  let basename := Path.basename ref in
  let slugified := slugifyBasename basename in
  let imageDir := join obsidianDir IMAGE in
  let base := join obsidianDir mdDir in
  let candidates :=
    [ join imageDir basename; join base ref; join imageDir slugified ] in
  match first_accessible candidates with
  | Some p => Some p
  | None =>
      match src_readdir imageDir with
      | Ok files =>
          first_slug_match imageDir (toLowerCase slugified) files
      | Err _ => None
      end
  end.

(** The [for (const ref of refs)] loop of [getPublishableSet]. *)
Fixpoint resolveAssets (obsidianDir mdDir : jsstring) (refs : list jsstring)
  : list asset :=
  match refs with
  | [] => []
  | ref :: rest =>
      match findAssetFile obsidianDir mdDir ref with
      | Some assetPath =>
          let basename := Path.basename ref in
          mkAsset ref basename (slugifyBasename basename) assetPath
            :: resolveAssets obsidianDir mdDir rest
      | None => resolveAssets obsidianDir mdDir rest
      end
  end.

(** The [for (const { full, rel } of candidates)] loop of
    [getPublishableSet]. *)
Fixpoint collectPublishable (obsidianDir : jsstring)
  (candidates : list (jsstring * jsstring)) (acc : snapshot)
  : result snapshot :=
  match candidates with
  | [] => Ok acc
  | (full, rel) :: rest =>
      match src_readFile full with
      | Err e => Err e
      | Ok content =>
          if negb (hasPublishableFrontmatter content)
          then collectPublishable obsidianDir rest acc
          else
            match src_stat_mtimeMs full with
            | Err e => Err e
            | Ok mtimeMs =>
                let refs := extractAssetRefs content in
                let mdDir := dirname rel in
                let resolvedAssets := resolveAssets obsidianDir mdDir refs in
                collectPublishable obsidianDir rest
                  (Dict.set acc rel
                     (mkDocument mtimeMs content resolvedAssets))
            end
      end
  end.

Definition getPublishableSet (obsidianDir : jsstring) : result snapshot :=
  match src_listMdFiles obsidianDir with
  | Err e => Err e
  | Ok candidates => collectPublishable obsidianDir candidates []
  end.

End Resolver.

(* ------------------------------------------------------------------ *)
(** ** Traversal of the source tree *)

(** What [fs.readdir(dir, { withFileTypes: true })] shows of an entry: a
    regular file, a directory with what reading it gives in turn, or
    something else (a link, a socket), for which both [isFile()] and
    [isDirectory()] are false. *)
#[local] Unset Elimination Schemes.
Inductive node : Type :=
| File
| Directory (listing : result (list (jsstring * node)))
| Other.
#[local] Set Elimination Schemes.

Definition isDirectory (n : node) : bool :=
  match n with Directory _ => true | _ => false end.

Definition isFile (n : node) : bool :=
  match n with File => true | _ => false end.

(** [s.endsWith(suffix)] *)
Definition endsWith (suffix s : jsstring) : bool :=
  startsWith (rev suffix) (rev s).

Definition BACKSLASH : N := 92.

(** What [fs.readdir] rejects with on something that is no directory. *)
Definition ENOTDIR : error := mkError "ENOTDIR".

(** [path.relative(from, to)] *)
Class NodeRelative := {
  relative : jsstring -> jsstring -> jsstring
}.

Section Traversal.
Context {lib : NodeLib} {rel_lib : NodeRelative}.

(** The test of the first branch of the loop of [listMdFiles]. *)
Definition descends (name : jsstring) (e : node) : bool :=
  isDirectory e && negb (startsWith (lit ".") name)
  && negb (str_eqb name IMAGE).

(** The [for (const e of entries)] loop of [listMdFiles]; [recur] is the
    recursive call. *)
Definition listEntries
  (recur : jsstring -> node -> result (list (jsstring * jsstring)))
  (dir base : jsstring)
  : list (jsstring * node) -> list (jsstring * jsstring)
    -> result (list (jsstring * jsstring)) :=
  fix loop entries out :=
    match entries with
    | [] => Ok out
    | (name, e) :: rest =>
        let full := join dir name in
        let rel := relative base full in
        if descends name e then
          match recur full e with
          | Ok sub => loop rest (out ++ sub)
          | Err err => Err err
          end
        else if isFile e && endsWith (lit ".md") name then
          loop rest
            (out ++ [(full, replace_class (N.eqb BACKSLASH) (lit "/") rel)])
        else loop rest out
    end.

(** [listMdFiles(dir, base)], [d] being what is at [dir]. *)
Fixpoint listMdFiles (dir base : jsstring) (d : node) {struct d}
  : result (list (jsstring * jsstring)) :=
  match d with
  | Directory (Ok entries) =>
      listEntries (fun full e => listMdFiles full base e) dir base entries []
  | Directory (Err err) => Err err
  | File | Other => Err ENOTDIR
  end.

End Traversal.

(* ------------------------------------------------------------------ *)
(** ** Body conversion *)

(** [out.split(pat).join(rep)] for a non-empty [pat]: the occurrences of
    [pat], leftmost first and not overlapping, become [rep].  [skip] counts
    the code units of the current occurrence still to pass. *)
Fixpoint split_join (pat rep : jsstring) (s : jsstring) (skip : nat)
  : jsstring :=
  match s with
  | [] => []
  | c :: s' =>
      match skip with
      | S skip' => split_join pat rep s' skip'
      | O =>
          if startsWith pat s
          then rep ++ split_join pat rep s' (length pat - 1)
          else c :: split_join pat rep s' 0
      end
  end.

(** [`![](../image/${name})`] *)
Definition image_link (name : jsstring) : jsstring :=
  lit "![](../image/" ++ name ++ lit ")".

(** [`image/${name}`] *)
Definition image_path (name : jsstring) : jsstring :=
  lit "image/" ++ name.

Definition convertContentForQuartz (content : jsstring)
  (assets : list asset) : jsstring :=
  let out :=
    fold_left
      (fun out a =>
         let wiki := lit "![[" ++ ref a ++ lit "]]" in
         let replacement := image_link (slugifiedBasename a) in
         split_join wiki replacement out 0)
      assets content in
  replace_all WIKI_IMAGE_REGEX
    (fun inner =>
       let base := Path.basename (trim (capture_text inner)) in
       let slugified := slugifyBasename base in
       image_link slugified)
    (length out) out 0.

(* ------------------------------------------------------------------ *)
(** ** Reconciler *)

Section Engine.
Context {lib : NodeLib} {src : SourceTree} {dst : DestFS}.

(** The destination state and the calls made so far. *)
Definition world := (fs_state * list event)%type.

(** An asynchronous computation of the engine: it changes the world and
    resolves, or rejects with an error. *)
Definition M (A : Type) := world -> world * result A.

Definition ret {A} (a : A) : M A := fun w => (w, Ok a).

Definition throw {A} (e : error) : M A := fun w => (w, Err e).

Definition bind {A B} (m : M A) (f : A -> M B) : M B :=
  fun w =>
    match m w with
    | (w', Ok a) => f a w'
    | (w', Err e) => (w', Err e)
    end.

Notation "x <- m ;; k" := (bind m (fun x => k))
  (at level 61, m at next level, right associativity).
Notation "m ;; k" := (bind m (fun _ => k))
  (at level 61, right associativity).

(** [try { m } catch (e) { h(e) }] *)
Definition try_catch {A} (m : M A) (h : error -> M A) : M A :=
  fun w =>
    match m w with
    | (w', Ok a) => (w', Ok a)
    | (w', Err e) => h e w'
    end.

Definition outcome {A} (r : result A) : option error :=
  match r with Ok _ => None | Err e => Some e end.

(** [await fs.f(...)]: the call is made on the current state and
    recorded with its outcome. *)
Definition call {A} (o : op) (f : fs_state -> fs_state * result A) : M A :=
  fun w =>
    let (st', r) := f (fst w) in
    ((st', snd w ++ [(o, outcome r)]), r).

Fixpoint forEach {X} (l : list X) (body : X -> M unit) : M unit :=
  match l with
  | [] => ret tt
  | x :: l' => body x ;; forEach l' body
  end.

(** [try { await fs.unlink(p) } catch (e) { ... }], where the handler is
    [if (e.code !== "ENOENT") throw e]. *)
Definition unlink_unless_missing (p : jsstring) : M unit :=
  try_catch (call (Unlink p) (fs_unlink p))
            (fun e => if negb (is_ENOENT e) then throw e else ret tt).

Definition toDeleteMd (publishable : snapshot) (entries : manifest)
  : list jsstring :=
  filter (fun rel => negb (Dict.has publishable rel)) (Dict.keys entries).

Definition assetsStillReferenced (publishable : snapshot) : list jsstring :=
  fold_left
    (fun s kv =>
       fold_left (fun s a => set_add (image_path (slugifiedBasename a)) s)
                 (assets (snd kv)) s)
    publishable [].

(** [entries[rel].assets || []] *)
Definition entry_assets (entries : manifest) (rel : jsstring)
  : list jsstring :=
  match Dict.get entries rel with Some e => e_assets e | None => [] end.

(** Phase 1, the [for (const rel of toDeleteMd)] loop. *)
Definition deleteObsolete (QUARTZ_CONTENT_DIR : jsstring)
  (publishable : snapshot) (entries : manifest) : M unit :=
  let stillReferenced := assetsStillReferenced publishable in
  forEach (toDeleteMd publishable entries) (fun rel =>
    let quartzMdPath := join QUARTZ_CONTENT_DIR rel in
    unlink_unless_missing quartzMdPath ;;
    forEach (entry_assets entries rel) (fun a =>
      if negb (set_has stillReferenced a)
      then unlink_unless_missing (join QUARTZ_CONTENT_DIR a)
      else ret tt)).

(** Phase 1, the [for (const d of dirsToCheck)] loop. *)
Definition removeEmptyDirs (QUARTZ_CONTENT_DIR : jsstring)
  (publishable : snapshot) (entries : manifest) : M unit :=
  let dirsToCheck := set_of (map dirname (toDeleteMd publishable entries)) in
  forEach dirsToCheck (fun d =>
    if str_eqb d [] || str_eqb d (lit ".") then ret tt
    else
      let fullDir := join QUARTZ_CONTENT_DIR d in
      try_catch
        (names <- call (Readdir fullDir) (fs_readdir fullDir) ;;
         if Nat.eqb (length names) 0
         then call (Rmdir fullDir) (fs_rmdir fullDir)
         else ret tt)
        (fun _ => ret tt)).

(** The [for (const { slugifiedBasename, sourcePath } of data.assets)]
    loop of phase 2. *)
Fixpoint copyAssets (contentImageDir : jsstring) (assets : list asset)
  (assetPathsInContent : list jsstring) : M (list jsstring) :=
  match assets with
  | [] => ret assetPathsInContent
  | a :: rest =>
      let destPath := join contentImageDir (slugifiedBasename a) in
      call (CopyFile (sourcePath a) destPath)
           (fs_copyFile (sourcePath a) destPath) ;;
      copyAssets contentImageDir rest
        (assetPathsInContent ++ [image_path (slugifiedBasename a)])
  end.

(** The test of phase 2: is the document new, updated, or with a changed
    asset set? *)
Definition needsSync (prev : option entry) (data : document) : bool :=
  let isNew := match prev with None => true | Some _ => false end in
  let isUpdated :=
    match prev with
    | Some p => (mtime data >? e_mtime p)%Z
    | None => false
    end in
  let prevAssets :=
    set_of (match prev with Some p => e_assets p | None => [] end) in
  let currAssets :=
    set_of (map (fun a => image_path (slugifiedBasename a)) (assets data)) in
  let assetsChanged :=
    negb (Nat.eqb (length prevAssets) (length currAssets))
    || existsb (fun a => negb (set_has prevAssets a)) currAssets in
  negb (negb isNew && negb isUpdated && negb assetsChanged).

(** Phase 2, the [for (const [rel, data] of publishable)] loop. *)
Fixpoint addOrUpdate (QUARTZ_CONTENT_DIR contentImageDir : jsstring)
  (entries : manifest) (docs : list (jsstring * document))
  (newEntries : manifest) : M manifest :=
  match docs with
  | [] => ret newEntries
  | (rel, data) :: rest =>
      let prev := Dict.get entries rel in
      match prev, needsSync prev data with
      | Some p, false =>
          addOrUpdate QUARTZ_CONTENT_DIR contentImageDir entries rest
            (Dict.set newEntries rel p)
      | _, _ =>
          let quartzMdPath := join QUARTZ_CONTENT_DIR rel in
          let quartzMdDir := dirname quartzMdPath in
          call (Mkdir quartzMdDir) (fs_mkdir quartzMdDir) ;;
          assetPathsInContent <-
            copyAssets contentImageDir (assets data) [] ;;
          let converted :=
            convertContentForQuartz (content data) (assets data) in
          call (WriteFile quartzMdPath converted)
               (fs_writeFile quartzMdPath converted) ;;
          addOrUpdate QUARTZ_CONTENT_DIR contentImageDir entries rest
            (Dict.set newEntries rel
               (mkEntry (mtime data) assetPathsInContent))
      end
  end.

Definition writeManifest (entriesObj : manifest) : M unit :=
  call (WriteManifest entriesObj) (fs_writeManifest entriesObj).

(** [(await readManifest()).entries || {}], read from the current state. *)
Definition readManifest : M manifest :=
  fun w => (w, Ok (fs_readManifest (fst w))).

(** The body of [run] once the snapshot and the manifest are loaded.  It
    resolves with the entries it has written to the manifest store. *)
Definition reconcile (QUARTZ_CONTENT_DIR : jsstring)
  (publishable : snapshot) (entries : manifest) : M manifest :=
  deleteObsolete QUARTZ_CONTENT_DIR publishable entries ;;
  removeEmptyDirs QUARTZ_CONTENT_DIR publishable entries ;;
  let contentImageDir := join QUARTZ_CONTENT_DIR IMAGE in
  call (Mkdir contentImageDir) (fs_mkdir contentImageDir) ;;
  newEntries <-
    addOrUpdate QUARTZ_CONTENT_DIR contentImageDir entries publishable [] ;;
  writeManifest newEntries ;;
  ret newEntries.

(** [run], with the two directories that [loadConfig] and [resolvePaths]
    give as parameters. *)
Definition run (OBSIDIAN_DIR QUARTZ_CONTENT_DIR : jsstring) : M manifest :=
  match getPublishableSet OBSIDIAN_DIR with
  | Err e => throw e
  | Ok publishable =>
      entries <- readManifest ;;
      reconcile QUARTZ_CONTENT_DIR publishable entries
  end.

End Engine.

(* ------------------------------------------------------------------ *)
(** ** A small in-memory environment

    Concrete instances of the three interfaces, used to run the engine on
    examples: the destination is a table of files and a list of
    directories, and a path listed in [m_denied] can be read but not
    changed: removing it or writing it is refused with [EACCES].  Paths
    are joined with a slash and not normalised, and [toLowerCase] folds
    the letters A to Z only: this is [path.join] and [toLowerCase] on the
    paths and names of the examples, which hold no empty, [.] or [..]
    segment and no other upper-case letter. *)

Module TestEnv.

Definition EACCES : error := mkError "EACCES".
Definition EISDIR : error := mkError "EISDIR".
Definition ENOTEMPTY : error := mkError "ENOTEMPTY".

Definition t_join (a b : jsstring) : jsstring := a ++ Path.SLASH :: b.

(** The part of [rp], a reversed path, before its last segment. *)
Fixpoint drop_segment (rp : jsstring) : option jsstring :=
  match rp with
  | [] => None
  | c :: rp' => if (c =? Path.SLASH)%N then Some rp' else drop_segment rp'
  end.

Definition t_dirname (p : jsstring) : jsstring :=
  match drop_segment (rev p) with
  | None => lit "."
  | Some [] => lit "/"
  | Some rd => rev rd
  end.

Definition t_toLowerCase (s : jsstring) : jsstring :=
  map (fun c => if ((65 <=? c) && (c <=? 90))%N then (c + 32)%N else c) s.

#[export] Instance lib : NodeLib :=
  {| join := t_join; dirname := t_dirname; toLowerCase := t_toLowerCase |}.

(** A source tree given by its documents [(rel, content, mtime)] and the
    names of the files in its image directory. *)
Record source := mkSource {
  s_root : jsstring;
  s_docs : list (jsstring * jsstring * Z);
  s_images : list jsstring
}.

Definition s_full (s : source) (rel : jsstring) : jsstring :=
  t_join (s_root s) rel.

Fixpoint s_find (s : source) (docs : list (jsstring * jsstring * Z))
  (full : jsstring) : option (jsstring * Z) :=
  match docs with
  | [] => None
  | (rel, content, mtime) :: rest =>
      if str_eqb (s_full s rel) full then Some (content, mtime)
      else s_find s rest full
  end.

Definition s_image_paths (s : source) : list jsstring :=
  map (t_join (t_join (s_root s) IMAGE)) (s_images s).

#[export] Instance tree (s : source) : SourceTree :=
  {| src_listMdFiles := fun root =>
       if str_eqb root (s_root s)
       then Ok (map (fun d => (s_full s (fst (fst d)), fst (fst d)))
                    (s_docs s))
       else Err ENOENT;
     src_readFile := fun full =>
       match s_find s (s_docs s) full with
       | Some (content, _) => Ok content
       | None => Err ENOENT
       end;
     src_stat_mtimeMs := fun full =>
       match s_find s (s_docs s) full with
       | Some (_, mtime) => Ok mtime
       | None => Err ENOENT
       end;
     src_access := fun p =>
       existsb (str_eqb p) (s_image_paths s)
       || existsb (fun d => str_eqb p (s_full s (fst (fst d)))) (s_docs s)
       || str_eqb p (t_join (s_root s) IMAGE);
     src_readdir := fun d =>
       if str_eqb d (t_join (s_root s) IMAGE)
       then Ok (s_images s) else Err ENOENT |}.

(** The destination. *)
Record mem := mkMem {
  m_files : list (jsstring * jsstring);
  m_dirs : list jsstring;
  m_manifest : manifest;
  m_denied : list jsstring
}.

Definition remove_file (p : jsstring) (files : list (jsstring * jsstring))
  : list (jsstring * jsstring) :=
  filter (fun kv => negb (str_eqb (fst kv) p)) files.

Definition children (m : mem) (d : jsstring) : list jsstring :=
  map Path.basename
    (filter (fun p => str_eqb (t_dirname p) d)
            (map fst (m_files m) ++ m_dirs m)).

Fixpoint ancestors (fuel : nat) (d : jsstring) : list jsstring :=
  match fuel with
  | O => []
  | S fuel' =>
      if str_eqb d (lit ".") || str_eqb d (lit "/") then []
      else d :: ancestors fuel' (t_dirname d)
  end.

Definition guarded {A} (m : mem) (p : jsstring) (k : mem * result A)
  : mem * result A :=
  if set_has (m_denied m) p then (m, Err EACCES) else k.

Definition m_unlink (p : jsstring) (m : mem) : mem * result unit :=
  guarded m p
    (if Dict.has (m_files m) p
     then (mkMem (remove_file p (m_files m)) (m_dirs m) (m_manifest m)
                 (m_denied m), Ok tt)
     else (m, Err ENOENT)).

Definition m_readdir (d : jsstring) (m : mem)
  : mem * result (list jsstring) :=
  if set_has (m_dirs m) d then (m, Ok (children m d))
  else (m, Err ENOENT).

Definition m_rmdir (d : jsstring) (m : mem) : mem * result unit :=
  guarded m d
    (if set_has (m_dirs m) d then
       match children m d with
       | [] => (mkMem (m_files m)
                      (filter (fun q => negb (str_eqb q d)) (m_dirs m))
                      (m_manifest m) (m_denied m), Ok tt)
       | _ :: _ => (m, Err ENOTEMPTY)
       end
     else (m, Err ENOENT)).

Definition m_mkdir (d : jsstring) (m : mem) : mem * result unit :=
  (mkMem (m_files m)
         (fold_left (fun ds q => set_add q ds)
                    (rev (ancestors (S (length d)) d)) (m_dirs m))
         (m_manifest m) (m_denied m), Ok tt).

Definition m_put (p data : jsstring) (m : mem) : mem * result unit :=
  guarded m p
    (if set_has (m_dirs m) p then (m, Err EISDIR)
     else if negb (set_has (m_dirs m) (t_dirname p)) then (m, Err ENOENT)
     else (mkMem (Dict.set (m_files m) p data) (m_dirs m) (m_manifest m)
                 (m_denied m), Ok tt)).

(** Copies carry the source path as the data, which is enough to tell
    them apart. *)
Definition m_copyFile (s : source) (from to : jsstring) (m : mem)
  : mem * result unit :=
  if existsb (str_eqb from) (s_image_paths s) then m_put to from m
  else if str_eqb from (t_join (s_root s) IMAGE) then (m, Err EISDIR)
  else (m, Err ENOENT).

Definition m_writeManifest (entries : manifest) (m : mem)
  : mem * result unit :=
  (mkMem (m_files m) (m_dirs m) entries (m_denied m), Ok tt).

#[export] Instance dest (s : source) : DestFS :=
  {| fs_state := mem;
     fs_unlink := m_unlink;
     fs_readdir := m_readdir;
     fs_rmdir := m_rmdir;
     fs_mkdir := m_mkdir;
     fs_copyFile := m_copyFile s;
     fs_writeFile := m_put;
     fs_writeManifest := m_writeManifest;
     fs_readManifest := m_manifest |}.

(** Running the engine from source root [obsidian] to destination root
    [content]. *)
Definition OBSIDIAN : jsstring := lit "obsidian".
Definition CONTENT : jsstring := lit "content".

Definition run_on (s : source) (m : mem) : world * result manifest :=
  @run lib (tree s) (dest s) OBSIDIAN CONTENT (m, []).

Definition empty_dest : mem := mkMem [] [CONTENT] [] [].

(** [a ++ "\n" ++ b] *)
Definition line (a b : jsstring) : jsstring := a ++ NL :: b.

(** Example texts. *)
Definition header (setting body : jsstring) : jsstring :=
  line (lit "---") (line setting (line (lit "---") body)).

Definition doc_publishable : jsstring :=
  header (KEY_KEFABU ++ lit ": true") (lit "![[pic 1.png]]").

Definition doc_unpublished : jsstring :=
  header (KEY_KEFABU ++ lit ": false") (lit "![[pic 1.png]]").

(** The key of the only setting is U+4E0D followed by [KEY_KEFABU]. *)
Definition doc_other_key : jsstring :=
  header (19981%N :: KEY_KEFABU ++ lit ": true") [].

(** The closing line is [---x]. *)
Definition doc_long_marker : jsstring :=
  line (lit "---") (line (KEY_KEFABU ++ lit ": true") (lit "---x")).

(** An empty header block; the setting is in the body. *)
Definition doc_setting_in_body : jsstring :=
  line (lit "---") (line [] (line (lit "---")
    (line (KEY_KEFABU ++ lit ": true") (line (lit "---") [])))).

(** Key, colon and value on three lines. *)
Definition doc_setting_on_three_lines : jsstring :=
  line (lit "---") (line KEY_KEFABU (line (lit ":") (line (lit "true")
    (line (lit "---") [])))).

(** Example trees. *)
Definition snapshot_of (s : source) : snapshot :=
  match @getPublishableSet lib (tree s) OBSIDIAN with
  | Ok publishable => publishable
  | Err _ => []
  end.

(** The destination after a run. *)
Definition after (s : source) (m : mem) : mem := fst (fst (run_on s m)).

Definition src_empty : source := mkSource OBSIDIAN [] [].

Definition src_one : source :=
  mkSource OBSIDIAN [(lit "a.md", doc_publishable, 5%Z)] [lit "pic 1.png"].

Definition src_one_off : source :=
  mkSource OBSIDIAN [(lit "a.md", doc_unpublished, 6%Z)] [lit "pic 1.png"].

Definition manifest_one : manifest :=
  [(lit "a.md", mkEntry 5 [lit "image/pic-1.png"])].

Definition doc_shared (publish : bool) : jsstring :=
  header (KEY_YIFABU ++ lit ": " ++ (if publish then lit "true" else lit "no"))
         (lit "![[shared.png]]").

(** Two documents with the same embed; each is publishable or not. *)
Definition src_two (a b : bool) : source :=
  mkSource OBSIDIAN
    [(lit "a.md", doc_shared a, 1%Z); (lit "b.md", doc_shared b, 2%Z)]
    [lit "shared.png"].


(** A destination with one synchronised note in a directory. *)
Definition dest_notes (denied : list jsstring) : mem :=
  mkMem [(lit "content/notes/a.md", lit "old")]
        [CONTENT; lit "content/notes"]
        [(lit "notes/a.md", mkEntry 1 [])]
        denied.

(** A destination with a file of its own. *)
Definition dest_with_index : mem :=
  mkMem [(lit "content/index.md", lit "home")] [CONTENT] [] [].

(** The embeds differ from the stored name in case and spacing; one embed
    names no file. *)
Definition src_drift : source :=
  mkSource OBSIDIAN
    [(lit "notes/a.md",
      header (KEY_KEFABU ++ lit ": true")
             (lit "![[Pic 1.PNG]] ![[gone.png]]"), 3%Z)]
    [lit "pic-1.png"].

End TestEnv.

(* ------------------------------------------------------------------ *)
(** ** One file system for both trees

    [fs.access], [fs.readdir] and [fs.copyFile] act on the file system the
    destination calls change, and [path.join] resolves the [..] segments
    of a reference, which can lead from the source root into the
    destination tree.  In this environment both trees are parts of one
    table of files; a run reads the source through the state the table has
    when the run starts, all the reads of [getPublishableSet] coming
    before the first call that changes anything. *)

Module Disk.

(** The segments of a path, split at the slashes; [cur] is the segment
    being read, reversed. *)
Fixpoint segments (p cur : jsstring) : list jsstring :=
  match p with
  | [] => [rev cur]
  | c :: p' =>
      if (c =? Path.SLASH)%N then rev cur :: segments p' []
      else segments p' (c :: cur)
  end.

(** [normalizeString(path, allowAboveRoot, "/")] on the segments: empty
    and [.] segments are dropped, [..] takes off the segment before it or,
    where there is none to take off, is kept when [allowAboveRoot].  [acc]
    holds the segments kept so far, last first. *)
Fixpoint resolve_segments (allowAboveRoot : bool) (segs acc : list jsstring)
  : list jsstring :=
  match segs with
  | [] => rev acc
  | s :: rest =>
      if str_eqb s [] || str_eqb s (lit ".")
      then resolve_segments allowAboveRoot rest acc
      else if str_eqb s (lit "..") then
        match acc with
        | last :: acc' =>
            if str_eqb last (lit "..")
            then resolve_segments allowAboveRoot rest
                   (if allowAboveRoot then s :: acc else acc)
            else resolve_segments allowAboveRoot rest acc'
        | [] =>
            resolve_segments allowAboveRoot rest
              (if allowAboveRoot then [s] else [])
        end
      else resolve_segments allowAboveRoot rest (s :: acc)
  end.

Fixpoint join_segments (segs : list jsstring) : jsstring :=
  match segs with
  | [] => []
  | [s] => s
  | s :: rest => s ++ Path.SLASH :: join_segments rest
  end.

(** [path.normalize(p)] *)
Definition normalize (p : jsstring) : jsstring :=
  match p with
  | [] => lit "."
  | c :: _ =>
      let isAbsolute := (c =? Path.SLASH)%N in
      let trailingSeparator :=
        match rev p with d :: _ => (d =? Path.SLASH)%N | [] => false end in
      let body :=
        join_segments
          (resolve_segments (negb isAbsolute) (segments p []) []) in
      match body with
      | [] =>
          if isAbsolute then lit "/"
          else if trailingSeparator then lit "./" else lit "."
      | _ :: _ =>
          (if isAbsolute then [Path.SLASH] else [])
          ++ body ++ (if trailingSeparator then [Path.SLASH] else [])
      end
  end.

(** [path.join(a, b)]: the arguments that are not empty, joined with a
    slash and normalised. *)
Definition d_join (a b : jsstring) : jsstring :=
  match a, b with
  | [], [] => lit "."
  | [], _ :: _ => normalize b
  | _ :: _, [] => normalize a
  | _ :: _, _ :: _ => normalize (a ++ Path.SLASH :: b)
  end.

(** [dirname] and [toLowerCase] are those of [TestEnv]: right on
    normalised paths without a final slash, and on ASCII names. *)
Definition d_lib : NodeLib :=
  {| join := d_join;
     dirname := TestEnv.t_dirname;
     toLowerCase := TestEnv.t_toLowerCase |}.

(** The file system: the text and the [mtimeMs] of each file, the
    directories, the manifest store (which is in neither tree), the paths
    that cannot be changed, and the [mtimeMs] a write gives. *)
Record disk := mkDisk {
  d_files : list (jsstring * (jsstring * Z));
  d_dirs : list jsstring;
  d_manifest : manifest;
  d_denied : list jsstring;
  d_now : Z
}.

Definition with_files (d : disk) (files : list (jsstring * (jsstring * Z)))
  : disk :=
  mkDisk files (d_dirs d) (d_manifest d) (d_denied d) (d_now d).

Definition with_dirs (d : disk) (dirs : list jsstring) : disk :=
  mkDisk (d_files d) dirs (d_manifest d) (d_denied d) (d_now d).

(** The names in directory [dir]. *)
Definition children (d : disk) (dir : jsstring) : list jsstring :=
  map Path.basename
    (filter (fun p => str_eqb (TestEnv.t_dirname p) dir)
            (map fst (d_files d) ++ d_dirs d)).

(** The documents [listMdFiles] reaches under [root]: the files named
    [*.md] below it, in no hidden directory and in no directory named
    [image]. *)
Definition reached (rel : jsstring) : bool :=
  endsWith (lit ".md") rel
  && forallb (fun seg => negb (startsWith (lit ".") seg)
                         && negb (str_eqb seg (lit "image")))
             (removelast (segments rel [])).

Definition listed (d : disk) (root : jsstring)
  : list (jsstring * jsstring) :=
  flat_map
    (fun kv =>
       let prefix := root ++ [Path.SLASH] in
       if startsWith prefix (fst kv)
       then let rel := skipn (length prefix) (fst kv) in
            if reached rel then [(fst kv, rel)] else []
       else [])
    (d_files d).

(** What the source side reads in state [d]. *)
Definition seen (d : disk) : SourceTree :=
  {| src_listMdFiles := fun root =>
       if set_has (d_dirs d) root then Ok (listed d root) else Err ENOENT;
     src_readFile := fun p =>
       match Dict.get (d_files d) p with
       | Some (text, _) => Ok text
       | None => Err ENOENT
       end;
     src_stat_mtimeMs := fun p =>
       match Dict.get (d_files d) p with
       | Some (_, mtimeMs) => Ok mtimeMs
       | None => Err ENOENT
       end;
     src_access := fun p => Dict.has (d_files d) p || set_has (d_dirs d) p;
     src_readdir := fun dir =>
       if set_has (d_dirs d) dir then Ok (children d dir) else Err ENOENT |}.

Definition guarded {A} (d : disk) (p : jsstring) (k : disk * result A)
  : disk * result A :=
  if set_has (d_denied d) p then (d, Err TestEnv.EACCES) else k.

Definition d_unlink (p : jsstring) (d : disk) : disk * result unit :=
  guarded d p
    (if Dict.has (d_files d) p
     then (with_files d
             (filter (fun kv => negb (str_eqb (fst kv) p)) (d_files d)),
           Ok tt)
     else (d, Err ENOENT)).

Definition d_readdir (dir : jsstring) (d : disk)
  : disk * result (list jsstring) :=
  if set_has (d_dirs d) dir then (d, Ok (children d dir))
  else (d, Err ENOENT).

Definition d_rmdir (dir : jsstring) (d : disk) : disk * result unit :=
  guarded d dir
    (if set_has (d_dirs d) dir then
       match children d dir with
       | [] => (with_dirs d
                  (filter (fun q => negb (str_eqb q dir)) (d_dirs d)),
                Ok tt)
       | _ :: _ => (d, Err TestEnv.ENOTEMPTY)
       end
     else (d, Err ENOENT)).

Definition d_mkdir (dir : jsstring) (d : disk) : disk * result unit :=
  (with_dirs d
     (fold_left (fun ds q => set_add q ds)
                (rev (TestEnv.ancestors (S (length dir)) dir)) (d_dirs d)),
   Ok tt).

Definition d_put (p text : jsstring) (d : disk) : disk * result unit :=
  guarded d p
    (if set_has (d_dirs d) p then (d, Err TestEnv.EISDIR)
     else if negb (set_has (d_dirs d) (TestEnv.t_dirname p))
          then (d, Err ENOENT)
     else (with_files d (Dict.set (d_files d) p (text, d_now d)), Ok tt)).

Definition d_copyFile (from to : jsstring) (d : disk) : disk * result unit :=
  if set_has (d_dirs d) from then (d, Err TestEnv.EISDIR)
  else match Dict.get (d_files d) from with
       | Some (text, _) => d_put to text d
       | None => (d, Err ENOENT)
       end.

Definition d_writeManifest (entries : manifest) (d : disk)
  : disk * result unit :=
  (mkDisk (d_files d) (d_dirs d) entries (d_denied d) (d_now d), Ok tt).

Definition store : DestFS :=
  {| fs_state := disk;
     fs_unlink := d_unlink;
     fs_readdir := d_readdir;
     fs_rmdir := d_rmdir;
     fs_mkdir := d_mkdir;
     fs_copyFile := d_copyFile;
     fs_writeFile := d_put;
     fs_writeManifest := d_writeManifest;
     fs_readManifest := d_manifest |}.

(** The regular files, and the names of those in a directory. *)
Definition is_file (d : disk) (p : jsstring) : bool := Dict.has (d_files d) p.

Definition file_names (d : disk) (dir : jsstring) : list jsstring :=
  map Path.basename
    (filter (fun p => str_eqb (TestEnv.t_dirname p) dir)
            (map fst (d_files d))).

(** A run from source root [obsidian] to destination root [content], two
    directories side by side. *)
Definition run_from (d : disk) : (disk * list event) * result manifest :=
  @run d_lib (seen d) store TestEnv.OBSIDIAN TestEnv.CONTENT (d, []).

Definition disk_after (d : disk) : disk := fst (fst (run_from d)).

Definition calls_of (d : disk) : list event := snd (fst (run_from d)).

(** The files under the source root. *)
Definition source_files (d : disk) : list (jsstring * (jsstring * Z)) :=
  filter (fun kv => startsWith (lit "obsidian/") (fst kv)) (d_files d).

Definition publishable_doc (body : jsstring) : jsstring :=
  TestEnv.header (KEY_KEFABU ++ lit ": true") body.

(** A document whose embed names, by a path through [..], the place its
    own copy takes in the destination. *)
Definition disk_loop : disk :=
  mkDisk [(lit "obsidian/a.md",
           (publishable_doc (lit "![[../content/a.md]]"), 5%Z))]
         [lit "obsidian"; lit "content"] [] [] 9.

(** Two documents, a destination file [content/a.md] written by hand that
    no manifest records, and a second destination file that cannot be
    written. *)
Definition disk_hand : disk :=
  mkDisk [(lit "obsidian/a.md", (publishable_doc (lit "one"), 5%Z));
          (lit "obsidian/b.md", (publishable_doc (lit "two"), 6%Z));
          (lit "content/a.md", (lit "written by hand", 1%Z))]
         [lit "obsidian"; lit "content"] [] [lit "content/b.md"] 9.

(** A document whose embed names a destination file written by hand. *)
Definition disk_index : disk :=
  mkDisk [(lit "obsidian/a.md",
           (publishable_doc (lit "![[../content/index.md]]"), 5%Z));
          (lit "content/index.md", (lit "home", 1%Z))]
         [lit "obsidian"; lit "content"] [] [] 9.

(** A document with an embed that names no file, without extension; the
    image directory of the source holds another file. *)
Definition disk_dangling : disk :=
  mkDisk [(lit "obsidian/a.md", (publishable_doc (lit "![[photo]]"), 5%Z));
          (lit "obsidian/image/other.png", (lit "png", 1%Z))]
         [lit "obsidian"; lit "obsidian/image"; lit "content"] [] [] 9.

(** The same with an extension on the embed's name. *)
Definition disk_dangling_ext : disk :=
  mkDisk [(lit "obsidian/a.md",
           (publishable_doc (lit "![[photo.png]]"), 5%Z));
          (lit "obsidian/image/other.png", (lit "png", 1%Z))]
         [lit "obsidian"; lit "obsidian/image"; lit "content"] [] [] 9.

(** A document, the image it embeds, and a destination file written by
    hand. *)
Definition disk_with_index : disk :=
  mkDisk [(lit "obsidian/a.md",
           (publishable_doc (lit "![[pic 1.png]]"), 5%Z));
          (lit "obsidian/image/pic 1.png", (lit "png", 1%Z));
          (lit "content/index.md", (lit "home", 1%Z))]
         [lit "obsidian"; lit "obsidian/image"; lit "content"] [] [] 9.

(** A document and the image it embeds. *)
Definition disk_one : disk :=
  mkDisk [(lit "obsidian/a.md",
           (publishable_doc (lit "![[pic 1.png]]"), 5%Z));
          (lit "obsidian/image/pic 1.png", (lit "png", 1%Z))]
         [lit "obsidian"; lit "obsidian/image"; lit "content"] [] [] 9.

End Disk.

(* ------------------------------------------------------------------ *)
(** ** The specification's reading of the normaliser and the filter *)

(** The normaliser as the specification words it: the extension is taken
    off, the rest is transformed, the extension is put back; a name
    without extension is transformed whole. *)
Definition spec_slugify (name : jsstring) : jsstring :=
  let ext := Path.extname name in
  let stem := firstn (length name - length ext) name in
  slug_replace stem ++ ext.

(** The resolver as the specification words it: each of the four steps
    looks for a file.  [is_file] tells the regular files and [names] lists
    those of a directory. *)
Section SpecResolver.
Context {lib : NodeLib}.
Variable is_file : jsstring -> bool.
Variable names : jsstring -> list jsstring.

Definition spec_findAssetFile (obsidianDir mdDir ref : jsstring)
  : option jsstring :=
  let target := Path.basename ref in
  let imageDir := join obsidianDir IMAGE in
  let exact := join imageDir target in
  let literal := join (join obsidianDir mdDir) ref in
  let normalised := join imageDir (slugifyBasename target) in
  if is_file exact then Some exact
  else if is_file literal then Some literal
  else if is_file normalised then Some normalised
  else
    option_map (join imageDir)
      (find (fun f => str_eqb (toLowerCase (slugifyBasename f))
                              (toLowerCase (slugifyBasename target)))
            (names imageDir)).

End SpecResolver.

(** The filter as the specification words it: the first line is the
    marker; the block runs to the next marker line; one of its lines sets
    an accepted key to [true].  White space is allowed at the end of a
    marker line and around the key, the colon and the value. *)
Fixpoint lines_from (cur : jsstring) (s : jsstring) : list jsstring :=
  match s with
  | [] => [rev cur]
  | c :: s' =>
      if (c =? NL)%N then rev cur :: lines_from [] s'
      else lines_from (c :: cur) s'
  end.

Definition lines (s : jsstring) : list jsstring := lines_from [] s.

Definition is_marker_line (l : jsstring) : bool :=
  str_eqb (trimEnd l) (lit "---").

Definition sets_key_true (l : jsstring) : bool :=
  let t := trim l in
  existsb
    (fun key =>
       startsWith key t &&
       (let r := trimStart (skipn (length key) t) in
        startsWith (lit ":") r &&
        str_eqb (trimStart (skipn 1 r)) (lit "true")))
    [KEY_KEFABU; KEY_YIFABU].

Fixpoint block_until_marker (ls : list jsstring)
  : option (list jsstring) :=
  match ls with
  | [] => None
  | l :: ls' =>
      if is_marker_line l then Some []
      else option_map (cons l) (block_until_marker ls')
  end.

Definition spec_publishable (text : jsstring) : bool :=
  match lines text with
  | first :: rest =>
      if is_marker_line first then
        match block_until_marker rest with
        | Some block => existsb sets_key_true block
        | None => false
        end
      else false
  | [] => false
  end.

(** What the filter of the code accepts, stated on the text. *)
Definition all_in (p : N -> bool) (w : jsstring) : Prop :=
  Forall (fun c => p c = true) w.

(** A line feed and the three hyphens that close the block. *)
Definition CLOSE : jsstring := NL :: lit "---".

(** The splittings of a text that [FRONTMATTER_REGEX] can match. *)
Definition header_split (text ws block rest : jsstring) : Prop :=
  text = lit "---" ++ ws ++ NL :: block ++ CLOSE ++ rest /\
  all_in is_space ws.

(** The splitting it takes: the longest run of white space, then the
    shortest block. *)
Definition header_block (text block : jsstring) : Prop :=
  exists ws rest,
    header_split text ws block rest /\
    (forall ws' block' rest',
       header_split text ws' block' rest' -> length ws' <= length ws) /\
    (forall block' rest',
       header_split text ws block' rest' -> length block <= length block').

(** Somewhere in the block: a key, white space, a colon, white space,
    [true]. *)
Definition sets_publishable (block : jsstring) : Prop :=
  exists before key w1 w2 after,
    block = before ++ key ++ w1 ++ lit ":" ++ w2 ++ lit "true" ++ after /\
    (key = KEY_KEFABU \/ key = KEY_YIFABU) /\
    all_in is_space w1 /\ all_in is_space w2.

(** Parts of the two patterns. *)
Definition FM_BLOCK : re :=
  Seq (Group (LazyStar (Chr any_char))) (Str CLOSE).
Definition FM_TAIL : re := Seq (Chr (N.eqb NL)) FM_BLOCK.
Definition PUB_VALUE : re := Seq (Star (Chr is_space)) (Str (lit "true")).
Definition PUB_TAIL : re :=
  Seq (Star (Chr is_space)) (Seq (Str (lit ":")) PUB_VALUE).

(** [a*] and [a*?] over a class of code units, by recursion on the
    text. *)
Fixpoint greedy_class {A} (p : N -> bool) (k : jsstring -> option A)
  (rest : jsstring) : option A :=
  match rest with
  | c :: rest' =>
      if p c then orelse (greedy_class p k rest') (k rest) else k rest
  | [] => k rest
  end.

Fixpoint lazy_class {A} (p : N -> bool) (k : jsstring -> option A)
  (rest : jsstring) : option A :=
  match rest with
  | c :: rest' =>
      orelse (k rest) (if p c then lazy_class p k rest' else None)
  | [] => k rest
  end.

(** The continuation of [match_at]. *)
Definition result_of (n : nat)
  : option jsstring -> jsstring -> option match_result :=
  fun cap rest' => Some (n - length rest', cap).

(* ------------------------------------------------------------------ *)
(** ** Auxiliary readings of the normaliser and of [path.extname] *)

(** What the chain of replacements does to one code unit. *)
Definition slug_char (c : N) : jsstring :=
  if is_space c then lit "-"
  else if (c =? AMP)%N then lit "-and-"
  else if (c =? PERCENT)%N then lit "-percent"
  else if (c =? QUESTION)%N then []
  else if (c =? HASH)%N then []
  else [c].

(** A code unit the normaliser rewrites. *)
Definition special (c : N) : bool :=
  is_space c || (c =? AMP)%N || (c =? PERCENT)%N || (c =? QUESTION)%N
  || (c =? HASH)%N.

Definition plain (l : jsstring) : Prop :=
  Forall (fun c => c <> Path.SLASH /\ c <> Path.DOT) l.

Definition slashes (l : jsstring) : Prop := Forall (fun c => c = Path.SLASH) l.

(** The scan has found the dot of an extension: [e'] follows it up to the
    trailing slashes. *)
Definition ext_found (p : jsstring) (st : Path.ext_state) : Prop :=
  exists pre e' post,
    p = pre ++ Path.DOT :: e' ++ post /\ plain e' /\ slashes post /\
    Path.startDot st = Z.of_nat (length pre) /\
    Path.end_ st = Z.of_nat (length pre + 1 + length e').

(** Invariant of the scan, [rs] being left to visit and [tail] visited. *)
Definition scan_inv (rs tail : jsstring) (st : Path.ext_state) : Prop :=
  (Path.startDot st = (-1)%Z /\ Path.end_ st = (-1)%Z /\ slashes tail) \/
  (Path.startDot st = (-1)%Z /\ Path.matchedSlash st = false /\
   exists pl post,
     tail = pl ++ post /\ plain pl /\ slashes post /\
     Path.end_ st = Z.of_nat (length rs + length pl)) \/
  ext_found (rev rs ++ tail) st.

(* ------------------------------------------------------------------ *)
(** ** What a run plans to do

    Pure readings of the two phases, used to state what the calls of a
    run are. *)

(** The destination asset paths of a document of the snapshot. *)
Definition current_assets (data : document) : list jsstring :=
  map (fun a => image_path (slugifiedBasename a)) (assets data).

(** Phase 2 takes the fast path for this document. *)
Definition synced (entries : manifest) (rel : jsstring) (data : document)
  : bool :=
  match Dict.get entries rel with
  | Some p => negb (needsSync (Some p) data)
  | None => false
  end.

(** The entry phase 2 records for a document, and the entries a run
    that completes writes to the manifest. *)
Definition new_entry (entries : manifest) (rel : jsstring)
  (data : document) : entry :=
  match Dict.get entries rel with
  | Some p =>
      if needsSync (Some p) data
      then mkEntry (mtime data) (current_assets data) else p
  | None => mkEntry (mtime data) (current_assets data)
  end.

Definition nextManifest (entries : manifest)
  (docs : list (jsstring * document)) (acc : manifest) : manifest :=
  fold_left
    (fun acc kv => Dict.set acc (fst kv) (new_entry entries (fst kv) (snd kv)))
    docs acc.

(** A document of the snapshot has a resolved asset stored at [a]. *)
Definition referenced (publishable : snapshot) (a : jsstring) : Prop :=
  exists rel data x,
    In (rel, data) publishable /\ In x (assets data) /\
    a = image_path (slugifiedBasename x).

(** A call that did no harm: it succeeded, or failed with [ENOENT]. *)
Definition benign (ev : event) : Prop :=
  snd ev = None \/ exists e, snd ev = Some e /\ is_ENOENT e = true.

(** The file a call removes or writes, if it does.  What a copy reads is
    the other argument of [CopyFile]. *)
Definition file_target (o : op) : option jsstring :=
  match o with
  | Unlink p => Some p
  | CopyFile _ dst => Some dst
  | WriteFile p _ => Some p
  | Readdir _ | Rmdir _ | Mkdir _ | WriteManifest _ => None
  end.


Section Plans.
Context {lib : NodeLib}.

(** The paths phase 1 unlinks, in order: each obsolete document, then those
    of its recorded assets that no document of the snapshot references. *)
Definition unreferenced (publishable : snapshot) (a : jsstring) : bool :=
  negb (set_has (assetsStillReferenced publishable) a).

Definition delete_paths (QUARTZ_CONTENT_DIR : jsstring)
  (publishable : snapshot) (entries : manifest) : list jsstring :=
  flat_map
    (fun rel =>
       join QUARTZ_CONTENT_DIR rel
       :: map (join QUARTZ_CONTENT_DIR)
              (filter (unreferenced publishable) (entry_assets entries rel)))
    (toDeleteMd publishable entries).

(** An event of phase 2 for one of [docs]. *)
Definition sync_event (Q I : jsstring) (entries : manifest)
  (docs : list (jsstring * document)) (ev : event) : Prop :=
  exists rel data,
    In (rel, data) docs /\ synced entries rel data = false /\
    (fst ev = Mkdir (dirname (join Q rel)) \/
     (exists x, In x (assets data) /\
                fst ev = CopyFile (sourcePath x)
                                  (join I (slugifiedBasename x))) \/
     fst ev = WriteFile (join Q rel)
                (convertContentForQuartz (content data) (assets data))).


(** [p] is the destination place of a path the manifest records: a
    document key, or an asset of an entry.  The code spells the place of
    [image/name] both [join Q "image/name"] and [join (join Q "image") name]. *)
Definition recorded (Q : jsstring) (m : manifest) (p : jsstring) : Prop :=
  (exists rel, In rel (Dict.keys m) /\ p = join Q rel) \/
  (exists rel e a,
     In (rel, e) m /\ In a (e_assets e) /\
     (p = join Q a \/
      exists name, a = image_path name /\ p = join (join Q IMAGE) name)).

(** [p] is the place of a document of the snapshot or of one of its
    resolved assets. *)
Definition wanted (Q : jsstring) (S : snapshot) (p : jsstring) : Prop :=
  (exists rel, In rel (Dict.keys S) /\ p = join Q rel) \/
  (exists rel data x,
     In (rel, data) S /\ In x (assets data) /\
     p = join (join Q IMAGE) (slugifiedBasename x)).

(** The calls a run can make. *)
Definition reconcile_event (Q : jsstring) (S : snapshot) (m : manifest)
  (ev : event) : Prop :=
  (exists rel, In rel (toDeleteMd S m) /\ fst ev = Unlink (join Q rel)) \/
  (exists rel a, In rel (toDeleteMd S m) /\ In a (entry_assets m rel) /\
                 ~ referenced S a /\ fst ev = Unlink (join Q a)) \/
  (exists rel, In rel (toDeleteMd S m) /\
               (fst ev = Readdir (join Q (dirname rel)) \/
                fst ev = Rmdir (join Q (dirname rel)))) \/
  fst ev = Mkdir (join Q IMAGE) \/
  sync_event Q (join Q IMAGE) m S ev \/
  fst ev = WriteManifest (nextManifest m S []).


End Plans.

(* ------------------------------------------------------------------ *)
(** ** What the traversal finds *)

Section TraversalReadings.
Context {lib : NodeLib} {rel_lib : NodeRelative}.

(** [n] is reached from [d] by the names [names], through directories
    whose listing could be read. *)
Fixpoint at_path (d : node) (names : list jsstring) (n : node) : Prop :=
  match names with
  | [] => d = n
  | name :: names' =>
      exists entries sub,
        d = Directory (Ok entries) /\ In (name, sub) entries /\
        at_path sub names' n
  end.

(** The name of a directory the traversal goes into. *)
Definition visible (name : jsstring) : Prop :=
  startsWith (lit ".") name = false /\ name <> IMAGE.

(** What one entry of a directory contributes to the loop. *)
Definition entry_lists
  (recur : jsstring -> node -> result (list (jsstring * jsstring)))
  (dir base name : jsstring) (e : node) (x : jsstring * jsstring) : Prop :=
  (descends name e = true /\
   exists sub, recur (join dir name) e = Ok sub /\ In x sub) \/
  (descends name e = false /\ isFile e = true /\
   endsWith (lit ".md") name = true /\
   x = (join dir name,
        replace_class (N.eqb BACKSLASH) (lit "/")
          (relative base (join dir name)))).

(** The path of the names [names] below [dir]. *)
Definition below (dir : jsstring) (names : list jsstring) : jsstring :=
  fold_left join names dir.

(** [x] is the [{ full, rel }] of a regular file whose name ends in [.md],
    found below [d] through visible directories. *)
Definition found (dir base : jsstring) (d : node) (x : jsstring * jsstring)
  : Prop :=
  exists dirs name,
    at_path d (dirs ++ [name]) File /\ Forall visible dirs /\
    endsWith (lit ".md") name = true /\
    x = (below dir (dirs ++ [name]),
         replace_class (N.eqb BACKSLASH) (lit "/")
           (relative base (below dir (dirs ++ [name])))).

End TraversalReadings.

(** Induction over a tree: a property of a directory may rely on the
    property of every entry of its listing. *)
Section node_induction.
Variable P : node -> Prop.
Hypothesis P_File : P File.
Hypothesis P_Other : P Other.
Hypothesis P_unreadable : forall e, P (Directory (Err e)).
Hypothesis P_Directory :
  forall entries, Forall (fun ne => P (snd ne)) entries ->
                  P (Directory (Ok entries)).

Fixpoint node_induction (n : node) : P n :=
  match n with
  | File => P_File
  | Other => P_Other
  | Directory (Err e) => P_unreadable e
  | Directory (Ok entries) =>
      P_Directory
        ((fix all (l : list (jsstring * node))
            : Forall (fun ne => P (snd ne)) l :=
            match l with
            | [] => Forall_nil _
            | (name, e) :: l' =>
                Forall_cons (name, e) (node_induction e) (all l')
            end) entries)
  end.

End node_induction.

(** A source tree for the examples of the traversal; [path.relative] drops
    the root and the slash after it. *)
Module TestTree.

Definition t_relative (from to : jsstring) : jsstring :=
  skipn (length from + 1) to.

#[export] Instance rel_lib : NodeRelative := {| relative := t_relative |}.

(** A vault with a settings directory that cannot be read, the image
    directory, a hidden document, a document with an upper-case
    extension, and a directory of notes that holds a link and a directory
    whose name ends in [.md]. *)
Definition vault : node :=
  Directory (Ok
    [ (lit ".obsidian", Directory (Err TestEnv.EACCES));
      (lit "image", Directory (Ok [(lit "pic.md", File)]));
      (lit "a.md", File);
      (lit ".draft.md", File);
      (lit "README.MD", File);
      (lit "notes",
       Directory (Ok
         [ (lit "b.md", File);
           (lit "link.md", Other);
           (lit "old.md", Directory (Ok [(lit "c.md", File)])) ])) ]).

(** A vault with a directory that cannot be read. *)
Definition vault_locked : node :=
  Directory (Ok
    [ (lit "a.md", File);
      (lit "private", Directory (Err TestEnv.EACCES)) ]).

(** The tree of [TestEnv.src_one]. *)
Definition vault_one : node :=
  Directory (Ok
    [ (lit "a.md", File);
      (lit "image", Directory (Ok [(lit "pic 1.png", File)])) ]).

End TestTree.

(* ------------------------------------------------------------------ *)
(** ** Where the snapshot comes from *)

Section SnapshotReadings.
Context {lib : NodeLib} {src : SourceTree}.

(** A value of the snapshot is what was read at [full]. *)
Definition read_from (obsidianDir full rel : jsstring) (data : document)
  : Prop :=
  src_readFile full = Ok (content data) /\
  hasPublishableFrontmatter (content data) = true /\
  src_stat_mtimeMs full = Ok (mtime data) /\
  assets data
  = resolveAssets obsidianDir (dirname rel) (extractAssetRefs (content data)).

(** A candidate that is read without error. *)
Definition readable (full : jsstring) : Prop :=
  exists text,
    src_readFile full = Ok text /\
    (hasPublishableFrontmatter text = true ->
     exists t, src_stat_mtimeMs full = Ok t).

(** A candidate at which the snapshot fails with [e]. *)
Definition fails_with (full : jsstring) (e : error) : Prop :=
  src_readFile full = Err e \/
  exists text,
    src_readFile full = Ok text /\ hasPublishableFrontmatter text = true /\
    src_stat_mtimeMs full = Err e.

End SnapshotReadings.

(* ------------------------------------------------------------------ *)
(** ** What the snapshot depends on *)

Section ReadsOfARun.
Context {lib : NodeLib}.

(** The paths [findAssetFile] hands to [fs.access] for a reference. *)
Definition candidates_of (obsidianDir mdDir ref : jsstring)
  : list jsstring :=
  let name := Path.basename ref in
  let imageDir := join obsidianDir IMAGE in
  [ join imageDir name; join (join obsidianDir mdDir) ref;
    join imageDir (slugifyBasename name) ].

(** Two states of the file system show the same to [getPublishableSet]:
    the same documents, with the same texts and times; the same listing
    of the image directory; and the same answer of [fs.access] on the
    candidate paths of the references of the publishable documents. *)
Definition same_reads (a b : SourceTree) (obsidianDir : jsstring) : Prop :=
  @src_listMdFiles b obsidianDir = @src_listMdFiles a obsidianDir /\
  @src_readdir b (join obsidianDir IMAGE)
  = @src_readdir a (join obsidianDir IMAGE) /\
  forall candidates full rel,
    @src_listMdFiles a obsidianDir = Ok candidates ->
    In (full, rel) candidates ->
    @src_readFile b full = @src_readFile a full /\
    @src_stat_mtimeMs b full = @src_stat_mtimeMs a full /\
    forall text r p,
      @src_readFile a full = Ok text ->
      hasPublishableFrontmatter text = true ->
      In r (extractAssetRefs text) ->
      In p (candidates_of obsidianDir (dirname rel) r) ->
      @src_access b p = @src_access a p.

End ReadsOfARun.

(** [s.includes(pat)] *)
Fixpoint includes (pat s : jsstring) : bool :=
  startsWith pat s
  || match s with
     | [] => false
     | _ :: s' => includes pat s'
     end.

(* ------------------------------------------------------------------ *)
(** ** The calls of a run, in order *)

(** A call that succeeded. *)
Definition succeeded (o : op) : event := (o, None).

Definition is_WriteManifest (o : op) : bool :=
  match o with WriteManifest _ => true | _ => false end.

Definition is_dir_op (o : op) : bool :=
  match o with Readdir _ | Rmdir _ => true | _ => false end.

Definition is_sync_op (o : op) : bool :=
  match o with Mkdir _ | CopyFile _ _ | WriteFile _ _ => true | _ => false end.

(** A call whose outcome lets the run go on, and which is not the update
    of the manifest. *)
Definition passed (ev : event) : Prop :=
  is_WriteManifest (fst ev) = false /\
  (benign ev \/ is_dir_op (fst ev) = true).

Section SyncPlan.
Context {lib : NodeLib}.

(** The copy phase 2 makes for one asset. *)
Definition copy_op (I : jsstring) (a : asset) : op :=
  CopyFile (sourcePath a) (join I (slugifiedBasename a)).

(** The calls phase 2 makes for one document, in order. *)
Definition sync_ops (Q I : jsstring) (entries : manifest)
  (kv : jsstring * document) : list op :=
  if synced entries (fst kv) (snd kv) then []
  else
    Mkdir (dirname (join Q (fst kv)))
    :: map (copy_op I) (assets (snd kv))
    ++ [WriteFile (join Q (fst kv))
          (convertContentForQuartz (content (snd kv)) (assets (snd kv)))].

Definition sync_plan (Q I : jsstring) (entries : manifest)
  (docs : list (jsstring * document)) : list op :=
  flat_map (sync_ops Q I entries) docs.

(** The directories phase 1 looks into, in order. *)
Definition dirsToCheck (publishable : snapshot) (entries : manifest)
  : list jsstring :=
  filter (fun d => negb (str_eqb d [] || str_eqb d (lit ".")))
         (set_of (map dirname (toDeleteMd publishable entries))).

End SyncPlan.

Section DirEvents.
Context {dst : DestFS}.

(** What the clean-up of one directory leaves in the trace: a listing that
    failed, a listing that showed something, or an empty listing followed
    by the removal, whatever its outcome. *)
Definition dir_events (p : jsstring) (evs : list event) : Prop :=
  (exists e, evs = [(Readdir p, Some e)]) \/
  (exists st st' names,
     fs_readdir p st = (st', Ok names) /\ names <> [] /\
     evs = [(Readdir p, None)]) \/
  (exists st st' o,
     fs_readdir p st = (st', Ok []) /\
     evs = [(Readdir p, None); (Rmdir p, o)]).

End DirEvents.

(* ------------------------------------------------------------------ *)
(** ** The manifest file as [run] finds it

    [readManifest] returns [JSON.parse(raw)] as it is, and [run] reads
    [manifest.entries], [entries[rel].assets] and [prev.assets] from it
    without a check.  On a file that cannot be read or parsed, or that
    [writeManifest] wrote, these reads give what [fs_readManifest] stands
    for.  On a file edited by hand they can throw: reading a property of
    [null] and iterating a value that is no iterable raise a [TypeError].
    [stored] tells these cases apart, for a file in which an entry is
    [null] or an object with a number as [mtime], and in which [assets],
    where it is an array, holds strings. *)

(** The [TypeError] of JavaScript; it has no [code], the name stands for
    it. *)
Definition TypeError : error := mkError "TypeError".

Inductive stored_assets : Type :=
| AssetList (l : list jsstring)   (* an array; [[]] if missing or falsy *)
| NotIterable.                    (* a number but 0, [true], an object *)

Inductive stored_entry : Type :=
| NullEntry                                       (* [null] *)
| StoredEntry (mtime : Z) (assets : stored_assets).

Inductive stored : Type :=
| NoEntries       (* no file, no JSON, or a value without [entries] *)
| NullManifest    (* the file holds [null] *)
| Entries (es : Dict.t stored_entry).

(** The file [writeManifest] makes of [m]. *)
Definition stored_entry_of (e : entry) : stored_entry :=
  StoredEntry (e_mtime e) (AssetList (e_assets e)).

Definition stored_of (m : manifest) : stored :=
  Entries (map (fun kv => (fst kv, stored_entry_of (snd kv))) m).

Section StoredManifest.
Context {lib : NodeLib} {src : SourceTree} {dst : DestFS}.

(** [for (const a of entries[rel].assets || [])] in phase 1, up to the
    first round of the loop. *)
Definition stored_assets_of (es : Dict.t stored_entry) (rel : jsstring)
  : result (list jsstring) :=
  match Dict.get es rel with
  | Some NullEntry => Err TypeError
  | Some (StoredEntry _ NotIterable) => Err TypeError
  | Some (StoredEntry _ (AssetList l)) => Ok l
  | None => Ok []
  end.

(** [prev = entries[rel]] and [new Set(prev?.assets || [])] in phase 2: a
    [null] entry counts as none. *)
Definition stored_prev (es : Dict.t stored_entry) (rel : jsstring)
  : result (option entry) :=
  match Dict.get es rel with
  | Some (StoredEntry mtime (AssetList l)) => Ok (Some (mkEntry mtime l))
  | Some (StoredEntry _ NotIterable) => Err TypeError
  | Some NullEntry => Ok None
  | None => Ok None
  end.

(** [Object.keys(entries).filter((rel) => !publishable.has(rel))] *)
Definition toDeleteMd_stored (publishable : snapshot)
  (es : Dict.t stored_entry) : list jsstring :=
  filter (fun rel => negb (Dict.has publishable rel)) (Dict.keys es).

(** Phase 1, the [for (const rel of toDeleteMd)] loop. *)
Definition deleteObsolete_stored (QUARTZ_CONTENT_DIR : jsstring)
  (publishable : snapshot) (es : Dict.t stored_entry) : M unit :=
  let stillReferenced := assetsStillReferenced publishable in
  forEach (toDeleteMd_stored publishable es) (fun rel =>
    bind (unlink_unless_missing (join QUARTZ_CONTENT_DIR rel)) (fun _ =>
      match stored_assets_of es rel with
      | Err e => throw e
      | Ok l =>
          forEach l (fun a =>
            if negb (set_has stillReferenced a)
            then unlink_unless_missing (join QUARTZ_CONTENT_DIR a)
            else ret tt)
      end)).

(** Phase 1, the [for (const d of dirsToCheck)] loop. *)
Definition removeEmptyDirs_of (QUARTZ_CONTENT_DIR : jsstring)
  (toDelete : list jsstring) : M unit :=
  forEach (set_of (map dirname toDelete)) (fun d =>
    if str_eqb d [] || str_eqb d (lit ".") then ret tt
    else
      let fullDir := join QUARTZ_CONTENT_DIR d in
      try_catch
        (bind (call (Readdir fullDir) (fs_readdir fullDir)) (fun names =>
           if Nat.eqb (length names) 0
           then call (Rmdir fullDir) (fs_rmdir fullDir)
           else ret tt))
        (fun _ => ret tt)).

(** Phase 2, the [for (const [rel, data] of publishable)] loop.  One
    round of it is [addOrUpdate] on the one document, with [prev] as the
    entry it finds. *)
Fixpoint addOrUpdate_stored (QUARTZ_CONTENT_DIR contentImageDir : jsstring)
  (es : Dict.t stored_entry) (docs : list (jsstring * document))
  (newEntries : manifest) : M manifest :=
  match docs with
  | [] => ret newEntries
  | (rel, data) :: rest =>
      match stored_prev es rel with
      | Err e => throw e
      | Ok prev =>
          bind (addOrUpdate QUARTZ_CONTENT_DIR contentImageDir
                  (match prev with Some p => [(rel, p)] | None => [] end)
                  [(rel, data)] newEntries)
               (fun newEntries' =>
                  addOrUpdate_stored QUARTZ_CONTENT_DIR contentImageDir
                    es rest newEntries')
      end
  end.

Definition reconcile_stored (QUARTZ_CONTENT_DIR : jsstring)
  (publishable : snapshot) (es : Dict.t stored_entry) : M manifest :=
  bind (deleteObsolete_stored QUARTZ_CONTENT_DIR publishable es) (fun _ =>
  bind (removeEmptyDirs_of QUARTZ_CONTENT_DIR
          (toDeleteMd_stored publishable es)) (fun _ =>
  let contentImageDir := join QUARTZ_CONTENT_DIR IMAGE in
  bind (call (Mkdir contentImageDir) (fs_mkdir contentImageDir)) (fun _ =>
  bind (addOrUpdate_stored QUARTZ_CONTENT_DIR contentImageDir es
          publishable []) (fun newEntries =>
  bind (writeManifest newEntries) (fun _ => ret newEntries))))).

(** [run] on a manifest file that holds [file]: the snapshot is built
    first, then [manifest.entries || {}] is read. *)
Definition run_stored (OBSIDIAN_DIR QUARTZ_CONTENT_DIR : jsstring)
  (file : stored) : M manifest :=
  match getPublishableSet OBSIDIAN_DIR with
  | Err e => throw e
  | Ok publishable =>
      match file with
      | NullManifest => throw TypeError
      | NoEntries => reconcile_stored QUARTZ_CONTENT_DIR publishable []
      | Entries es => reconcile_stored QUARTZ_CONTENT_DIR publishable es
      end
  end.

(** How phase 1 can stop on a stored manifest: at an unlink that failed,
    or after the unlink of a document whose entry cannot be read. *)
Definition stops_in_phase1 Q (es : Dict.t stored_entry)
  (rels : list jsstring) (e : error) (evs : list event) : Prop :=
  (exists done p,
     evs = done ++ [(Unlink p, Some e)] /\ Forall passed done /\
     is_ENOENT e = false) \/
  (exists rel done ev,
     In rel rels /\ stored_assets_of es rel = Err e /\
     evs = done ++ [ev] /\ fst ev = Unlink (join Q rel) /\
     Forall passed evs).

End StoredManifest.

(* ------------------------------------------------------------------ *)
(** ** A text in pieces: embeds and the text between them *)

Definition LBRACKET : N := 91.

(** [`![[${r}]]`] *)
Definition embed (r : jsstring) : jsstring := lit "![[" ++ r ++ lit "]]".

(** A name without brackets. *)
Definition bracket_free (r : jsstring) : Prop :=
  Forall (fun c => c <> LBRACKET /\ c <> RBRACKET) r.

(** The name the last step of the conversion gives to the embed of [r]. *)
Definition fallback_name (r : jsstring) : jsstring :=
  slugifyBasename (Path.basename (trim r)).

(** A text given by its embeds, each with the text before it, and the text
    after the last one. *)
Fixpoint with_embeds (segs : list (jsstring * jsstring)) (tail : jsstring)
  : jsstring :=
  match segs with
  | [] => tail
  | (t, r) :: segs' => t ++ embed r ++ with_embeds segs' tail
  end.

(** The same text with a link to the image directory for each embed. *)
Fixpoint with_links (segs : list (jsstring * jsstring)) (tail : jsstring)
  : jsstring :=
  match segs with
  | [] => tail
  | (t, r) :: segs' =>
      t ++ image_link (fallback_name r) ++ with_links segs' tail
  end.

(** The pieces of a text during the conversion: text that holds no embed,
    and embeds still to convert. *)
Inductive item : Type :=
| Plain (t : jsstring)
| Wiki (r : jsstring).

Definition show (i : item) : jsstring :=
  match i with Plain t => t | Wiki r => embed r end.

Definition render (items : list item) : jsstring := flat_map show items.

(** One round of the first loop of the conversion, on the pieces. *)
Definition subst_item (r rep : jsstring) (i : item) : item :=
  match i with
  | Wiki r' => if str_eqb r' r then Plain rep else i
  | Plain _ => i
  end.

(** What the conversion makes of a piece. *)
Definition final (i : item) : jsstring :=
  match i with Plain t => t | Wiki r => image_link (fallback_name r) end.

(** No occurrence of [pat] starts in [t] when [R] follows. *)
Definition silent (pat t R : jsstring) : Prop :=
  forall u v, t = u ++ v -> v <> [] -> startsWith pat (v ++ R) = false.

(** The pieces are told apart by the opening of an embed: it starts at
    the embeds and nowhere else. *)
Fixpoint well_formed (items : list item) : Prop :=
  match items with
  | [] => True
  | Plain t :: rest => silent (lit "![[") t (render rest) /\ well_formed rest
  | Wiki r :: rest => (r <> [] /\ bracket_free r) /\ well_formed rest
  end.

Fixpoint items_of (segs : list (jsstring * jsstring)) (tail : jsstring)
  : list item :=
  match segs with
  | [] => [Plain tail]
  | (t, r) :: segs' => Plain t :: Wiki r :: items_of segs' tail
  end.

(* ------------------------------------------------------------------ *)
(** ** The task log of the dashboard (server.mjs) *)

Module Dashboard.

(** An entry of [taskLogs]; [at] is the time the task was started, as
    [new Date().toISOString()] gave it. *)
Record log := mkLog {
  l_type : jsstring;
  l_at : jsstring;
  l_result : jsstring;
  l_error : option jsstring
}.

Definition MAX_TASK_LOGS : nat := 50.

Definition RUNNING : jsstring := lit "running".

(** [appendLog(type, result, error)], called at the time [now]:
    [unshift], then one [pop] if the log has grown over the bound. *)
Definition appendLog (now type result : jsstring) (error : option jsstring)
  (taskLogs : list log) : list log :=
  let taskLogs := mkLog type now result error :: taskLogs in
  if Nat.ltb MAX_TASK_LOGS (length taskLogs)
  then removelast taskLogs else taskLogs.

(** [array.findIndex(p)]; [None] stands for [-1]. *)
Fixpoint findIndex {X} (p : X -> bool) (l : list X) : option nat :=
  match l with
  | [] => None
  | x :: l' =>
      if p x then Some 0
      else match findIndex p l' with
           | Some i => Some (S i)
           | None => None
           end
  end.

(** [array[idx] = f(array[idx])] for an index within the array. *)
Fixpoint assign {X} (l : list X) (idx : nat) (f : X -> X) : list X :=
  match l, idx with
  | [], _ => []
  | x :: l', O => f x :: l'
  | x :: l', S i => x :: assign l' i f
  end.

(** The test of [updateLastRunningLog]. *)
Definition is_running (type : jsstring) (l : log) : bool :=
  str_eqb (l_type l) type && str_eqb (l_result l) RUNNING.

(** [updateLastRunningLog(type, result, error)] *)
Definition updateLastRunningLog (type result : jsstring)
  (error : option jsstring) (taskLogs : list log) : list log :=
  match findIndex (is_running type) taskLogs with
  | Some idx =>
      assign taskLogs idx
        (fun l => mkLog (l_type l) (l_at l) result error)
  | None => taskLogs
  end.

(** A call on the task log. *)
Inductive log_call : Type :=
| AppendLog (now type result : jsstring) (error : option jsstring)
| UpdateLastRunningLog (type result : jsstring) (error : option jsstring).

Definition apply_call (taskLogs : list log) (c : log_call) : list log :=
  match c with
  | AppendLog now type result error =>
      appendLog now type result error taskLogs
  | UpdateLastRunningLog type result error =>
      updateLastRunningLog type result error taskLogs
  end.

End Dashboard.

(* ================================================================== *)
(** * Properties *)

Import TestEnv.

(* ------------------------------------------------------------------ *)
(** ** Strings and sets *)

Lemma str_eqb_eq (a b : jsstring) : str_eqb a b = true <-> a = b.
Proof.
  unfold str_eqb. destruct (list_eq_dec N.eq_dec a b); split; congruence.
Qed.

Lemma str_eqb_refl (a : jsstring) : str_eqb a a = true.
Proof. now apply str_eqb_eq. Qed.

Lemma str_eqb_neq (a b : jsstring) : str_eqb a b = false <-> a <> b.
Proof.
  unfold str_eqb. destruct (list_eq_dec N.eq_dec a b); split; congruence.
Qed.

Lemma startsWith_app (p s : jsstring) : startsWith p (p ++ s) = true.
Proof. induction p; simpl; auto. now rewrite N.eqb_refl. Qed.

Lemma startsWith_inv (p s : jsstring) :
  startsWith p s = true -> exists r, s = p ++ r.
Proof.
  revert s. induction p as [|a p IH]; intros s H; simpl in *.
  - now exists s.
  - destruct s as [|b s]; [discriminate|].
    apply andb_prop in H. destruct H as [Hab H].
    apply N.eqb_eq in Hab. subst b.
    destruct (IH _ H) as [r ->]. now exists r.
Qed.

Lemma set_has_In (s : list jsstring) (x : jsstring) :
  set_has s x = true <-> In x s.
Proof.
  unfold set_has. rewrite existsb_exists. split.
  - intros [y [Hy E]]. apply str_eqb_eq in E. now subst.
  - intros H. exists x. split; [assumption | apply str_eqb_refl].
Qed.

Lemma set_has_not_In (s : list jsstring) (x : jsstring) :
  set_has s x = false <-> ~ In x s.
Proof.
  rewrite <- set_has_In. destruct (set_has s x); split; congruence.
Qed.

Lemma set_add_In (x y : jsstring) (s : list jsstring) :
  In x (set_add y s) <-> x = y \/ In x s.
Proof.
  unfold set_add. fold (set_has s y).
  destruct (set_has s y) eqn:E.
  - apply set_has_In in E. split; [auto | intros [-> | H]; auto].
  - rewrite in_app_iff. simpl. split.
    + intros [H | [H | []]]; auto.
    + intros [-> | H]; auto.
Qed.

(* ------------------------------------------------------------------ *)
(** ** Name normaliser *)

Example slugify_examples :
  slugifyBasename (lit "pic 1.png") = lit "pic-1.png" /\
  slugifyBasename (lit "R&D 100%.png") = lit "R-and-D-100-percent.png" /\
  slugifyBasename (lit "what?#1.jpeg") = lit "what1.jpeg".
Proof. repeat split; reflexivity. Qed.

Example extname_examples :
  Path.extname (lit "index.coffee.md") = lit ".md" /\
  Path.extname (lit "index.") = lit "." /\
  Path.extname (lit "index") = [] /\
  Path.extname (lit ".index") = [] /\
  Path.extname (lit ".index.md") = lit ".md" /\
  Path.extname (lit "..") = [] /\
  Path.extname (lit "a/b.c/d") = [] /\
  Path.extname (lit "a.png/") = lit ".png".
Proof. repeat split; reflexivity. Qed.

Example basename_examples :
  Path.basename (lit "a/b/c.png") = lit "c.png" /\
  Path.basename (lit "c.png") = lit "c.png" /\
  Path.basename (lit "a/b/") = lit "b" /\
  Path.basename (lit "/") = [] /\
  Path.basename [] = [].
Proof. repeat split; reflexivity. Qed.

Lemma slice_0_0 (s : jsstring) : slice s 0 0 = [].
Proof.
  unfold slice, slice_index. simpl.
  rewrite Z.min_l by lia. reflexivity.
Qed.

Lemma slice_0_neg (s : jsstring) (n : nat) :
  (0 < n)%nat -> slice s 0 (- Z.of_nat n) = firstn (length s - n) s.
Proof.
  intros Hn. unfold slice, slice_index.
  replace (- Z.of_nat n <? 0)%Z with true by (symmetry; apply Z.ltb_lt; lia).
  replace (0 <? 0)%Z with false by reflexivity.
  rewrite Z.min_l by lia. simpl skipn. f_equal. lia.
Qed.

(** With an extension, the code is the normaliser of the specification. *)
Lemma slugifyBasename_with_extension (name : jsstring) :
  Path.extname name <> [] -> slugifyBasename name = spec_slugify name.
Proof.
  intros H. unfold slugifyBasename, spec_slugify.
  rewrite slice_0_neg; [reflexivity|].
  destruct (Path.extname name); [congruence | simpl; lia].
Qed.

Lemma replace_class_app p rep (a b : jsstring) :
  replace_class p rep (a ++ b) = replace_class p rep a ++ replace_class p rep b.
Proof. apply flat_map_app. Qed.

Lemma slug_replace_app (a b : jsstring) :
  slug_replace (a ++ b) = slug_replace a ++ slug_replace b.
Proof. unfold slug_replace. now rewrite !replace_class_app. Qed.

Lemma slug_replace_one (c : N) : slug_replace [c] = slug_char c.
Proof.
  unfold slug_replace, slug_char, replace_class. cbn [flat_map app].
  destruct (is_space c) eqn:Hs; [reflexivity|]. cbn [flat_map app].
  rewrite (N.eqb_sym AMP c).
  destruct (c =? AMP)%N eqn:Ha; [reflexivity|]. cbn [flat_map app].
  rewrite (N.eqb_sym PERCENT c).
  destruct (c =? PERCENT)%N eqn:Hp; [reflexivity|]. cbn [flat_map app].
  rewrite (N.eqb_sym QUESTION c).
  destruct (c =? QUESTION)%N eqn:Hq; [reflexivity|]. cbn [flat_map app].
  rewrite (N.eqb_sym HASH c).
  destruct (c =? HASH)%N eqn:Hh; reflexivity.
Qed.

(** The five replacements in sequence are one substitution per code
    unit: no replacement text holds a code unit that a later one
    rewrites. *)
Lemma slug_replace_flat_map (s : jsstring) :
  slug_replace s = flat_map slug_char s.
Proof.
  induction s as [|c s IH]; [reflexivity|].
  change (c :: s) with ([c] ++ s).
  rewrite slug_replace_app, slug_replace_one, IH. reflexivity.
Qed.

Lemma slug_char_plain (c : N) :
  Forall (fun d => special d = false) (slug_char c).
Proof.
  unfold slug_char.
  destruct (is_space c) eqn:Hs; [repeat constructor|].
  destruct (c =? AMP)%N eqn:Ha; [repeat constructor|].
  destruct (c =? PERCENT)%N eqn:Hp; [repeat constructor|].
  destruct (c =? QUESTION)%N eqn:Hq; [constructor|].
  destruct (c =? HASH)%N eqn:Hh; [constructor|].
  repeat constructor. unfold special. now rewrite Hs, Ha, Hp, Hq, Hh.
Qed.

Lemma slug_char_fixed (c : N) : special c = false -> slug_char c = [c].
Proof.
  unfold special, slug_char. intros H.
  apply orb_false_iff in H. destruct H as [H Hh].
  apply orb_false_iff in H. destruct H as [H Hq].
  apply orb_false_iff in H. destruct H as [H Hp].
  apply orb_false_iff in H. destruct H as [Hs Ha].
  now rewrite Hs, Ha, Hp, Hq, Hh.
Qed.

Lemma slug_replace_idempotent (s : jsstring) :
  slug_replace (slug_replace s) = slug_replace s.
Proof.
  rewrite !slug_replace_flat_map.
  assert (G : forall l, Forall (fun d => special d = false) l ->
                        flat_map slug_char l = l).
  { induction l as [|d l IH]; intros H; [reflexivity|].
    inversion H; subst. simpl. rewrite slug_char_fixed by assumption.
    simpl. f_equal. now apply IH. }
  apply G. induction s as [|c s IH]; simpl; [constructor|].
  apply Forall_app. split; [apply slug_char_plain | exact IH].
Qed.

Section Extname.
Import Path.

Lemma ext_found_fields p st st' :
  startDot st' = startDot st -> end_ st' = end_ st ->
  ext_found p st -> ext_found p st'.
Proof.
  intros Hs He [pre [e' [post [E [H1 [H2 [H3 H4]]]]]]].
  exists pre, e', post. rewrite Hs, He. auto.
Qed.

Lemma extname_scan_inv (rs tail : jsstring) (st : ext_state) :
  scan_inv rs tail st ->
  let st' := extname_scan rs (Z.of_nat (length rs) - 1) st in
  startDot st' = (-1)%Z \/ ext_found (rev rs ++ tail) st'.
Proof.
  revert tail st. induction rs as [|c rs IH]; intros tail st Hinv.
  - simpl. destruct Hinv as [[H _] | [[H _] | H]]; auto.
  - cbn [extname_scan].
    replace (Z.of_nat (length (c :: rs)) - 1)%Z with (Z.of_nat (length rs))
      by (simpl length; lia).
    assert (Ep : rev (c :: rs) ++ tail = rev rs ++ c :: tail).
    { simpl. now rewrite <- app_assoc. }
    rewrite Ep.
    destruct (c =? SLASH)%N eqn:Hc.
    + apply N.eqb_eq in Hc. subst c.
      destruct (matchedSlash st) eqn:Hm; cbn [negb].
      * apply IH.
        destruct Hinv as [[H1 [H2 H3]] | [[H1 [H2 _]] | H]].
        -- left. split; [assumption|]. split; [assumption|].
           constructor; auto.
        -- congruence.
        -- right. right. now rewrite <- Ep.
      * destruct Hinv as [[H _] | [[H _] | H]]; auto.
        right. rewrite <- Ep. revert H. now apply ext_found_fields.
    + apply N.eqb_neq in Hc.
      destruct Hinv as [[H1 [H2 H3]] | [[H1 [H2 H3]] | H]].
      * (* nothing but slashes so far *)
        rewrite H2, Z.eqb_refl.
        cbn [end_ startDot startPart matchedSlash preDotState].
        rewrite H1, Z.eqb_refl. cbn [negb].
        destruct (c =? DOT)%N eqn:Hd.
        -- apply N.eqb_eq in Hd. subst c.
           apply IH. right. right.
           exists (rev rs), [], tail. cbn [startDot end_ length app].
           rewrite length_rev.
           split; [reflexivity|]. split; [constructor|].
           split; [assumption|]. split; lia.
        -- apply N.eqb_neq in Hd.
           apply IH. right. left. cbn [startDot end_ matchedSlash].
           split; [reflexivity|]. split; [reflexivity|].
           exists [c], tail.
           split; [reflexivity|]. split; [repeat constructor; auto|].
           split; [assumption|]. simpl length. lia.
      * (* inside the last component, no dot yet *)
        destruct H3 as [pl [post [Et [Hpl [Hpost He]]]]].
        assert (Hne : (end_ st =? -1)%Z = false)
          by (apply Z.eqb_neq; lia).
        rewrite Hne, H1, Z.eqb_refl. cbn [negb].
        destruct (c =? DOT)%N eqn:Hd.
        -- apply N.eqb_eq in Hd. subst c.
           apply IH. right. right.
           exists (rev rs), pl, post. cbn [startDot end_].
           rewrite length_rev, Et.
           split; [reflexivity|]. split; [assumption|].
           split; [assumption|]. split; [reflexivity|].
           rewrite He. simpl length. lia.
        -- apply N.eqb_neq in Hd.
           apply IH. right. left.
           split; [assumption|]. split; [assumption|].
           exists (c :: pl), post. rewrite Et.
           split; [reflexivity|]. split; [constructor; auto|].
           split; [assumption|]. rewrite He. simpl length. lia.
      * (* the extension is known *)
        assert (H' := H).
        destruct H' as [pre [e' [post [_ [_ [_ [Hs He]]]]]]].
        assert (Hne : (end_ st =? -1)%Z = false)
          by (apply Z.eqb_neq; lia).
        assert (Hns : (startDot st =? -1)%Z = false)
          by (apply Z.eqb_neq; lia).
        rewrite Hne. rewrite Ep in H.
        destruct (c =? DOT)%N.
        -- rewrite Hns.
           destruct (negb (preDotState st =? 1)%Z); apply IH; right; right;
             [revert H; now apply ext_found_fields | assumption].
        -- rewrite Hns. cbn [negb]. apply IH. right. right.
           revert H. now apply ext_found_fields.
Qed.

Lemma slice_middle (pre mid post : jsstring) :
  slice (pre ++ mid ++ post) (Z.of_nat (length pre))
        (Z.of_nat (length pre + length mid)) = mid.
Proof.
  unfold slice, slice_index. rewrite !length_app.
  replace (Z.of_nat (length pre) <? 0)%Z with false
    by (symmetry; apply Z.ltb_ge; lia).
  replace (Z.of_nat (length pre + length mid) <? 0)%Z with false
    by (symmetry; apply Z.ltb_ge; lia).
  rewrite !Z.min_l by lia. rewrite Nat2Z.id.
  replace (Z.to_nat (Z.of_nat (length pre + length mid)
                     - Z.of_nat (length pre))) with (length mid) by lia.
  rewrite skipn_app, skipn_all, Nat.sub_diag. simpl.
  rewrite firstn_app, firstn_all, Nat.sub_diag. simpl. apply app_nil_r.
Qed.

(** [path.extname] returns nothing, or a dot and what follows it up to the
    trailing slashes, which holds neither dot nor slash. *)
Lemma extname_shape (p : jsstring) :
  extname p = [] \/
  exists pre e' post,
    p = pre ++ DOT :: e' ++ post /\ plain e' /\ slashes post /\
    extname p = DOT :: e'.
Proof.
  unfold extname.
  pose proof (@extname_scan_inv (rev p) [] ext_init) as H.
  rewrite length_rev, rev_involutive, app_nil_r in H.
  destruct H as [H | H].
  - left. repeat split; constructor.
  - rewrite H. left. reflexivity.
  - destruct
      ((startDot _ =? -1) || (end_ _ =? -1) || (preDotState _ =? 0)
       || (preDotState _ =? 1) && (startDot _ =? end_ _ - 1)
          && (startDot _ =? startPart _ + 1))%Z; [now left|].
    right. destruct H as [pre [e' [post [E [H1 [H2 [H3 H4]]]]]]].
    exists pre, e', post. repeat split; auto.
    rewrite H3, H4. rewrite E at 1.
    change (DOT :: e' ++ post) with ((DOT :: e') ++ post).
    replace (length pre + 1 + length e') with (length pre + length (DOT :: e'))
      by (simpl; lia).
    apply slice_middle.
Qed.

Lemma plain_prefix_unique (l1 l2 a b : jsstring) :
  plain l1 -> plain l2 -> l1 ++ DOT :: a = l2 ++ DOT :: b -> l1 = l2.
Proof.
  revert l2. induction l1 as [|c l1 IH]; intros l2 H1 H2 E.
  - destruct l2 as [|d l2]; [reflexivity|].
    simpl in E. injection E as <- _. inversion H2; subst. tauto.
  - destruct l2 as [|d l2].
    + simpl in E. injection E as -> _. inversion H1; subst. tauto.
    + simpl in E. injection E as <- E. inversion H1; inversion H2; subst.
      f_equal. now apply IH.
Qed.

(** The extension of a name that ends in a dot and code units that are
    neither dot nor slash is that ending, or nothing. *)
Lemma extname_app_ext (x e' : jsstring) :
  plain e' ->
  extname (x ++ DOT :: e') = [] \/ extname (x ++ DOT :: e') = DOT :: e'.
Proof.
  intros He. destruct (extname_shape (x ++ DOT :: e'))
    as [H | [pre [e1 [post [E [H1 [H2 H3]]]]]]]; [now left|].
  right. rewrite H3. f_equal.
  apply (f_equal (@rev N)) in E.
  rewrite !rev_app_distr in E. simpl in E.
  rewrite !rev_app_distr in E. simpl in E. rewrite <- !app_assoc in E.
  simpl in E.
  assert (Hp : forall l, plain l -> plain (rev l)).
  { intros l Hl. apply Forall_rev. exact Hl. }
  destruct (rev post) as [|s rp] eqn:Er.
  - simpl in E. symmetry in E.
    apply plain_prefix_unique in E; auto.
    apply (f_equal (@rev N)) in E. now rewrite !rev_involutive in E.
  - assert (Hs : s = SLASH).
    { assert (Hin : In s (rev post)) by (rewrite Er; now left).
      apply in_rev in Hin. unfold slashes in H2.
      rewrite Forall_forall in H2. now apply H2. }
    subst s. simpl in E.
    destruct (rev e') as [|d re] eqn:Ee; simpl in E.
    + injection E as E _. discriminate E.
    + injection E as E _.
      assert (Hin : In d (rev e')) by (rewrite Ee; now left).
      apply in_rev in Hin. unfold plain in He.
      rewrite Forall_forall in He. destruct (He d Hin). congruence.
Qed.

(** Normalising a normalised name changes nothing as long as the
    normalised name still has an extension. *)
Lemma slugifyBasename_idempotent_with_extension (name : jsstring) :
  extname (slugifyBasename name) <> [] ->
  slugifyBasename (slugifyBasename name) = slugifyBasename name.
Proof.
  intros Hkeep.
  destruct (extname_shape name) as [H | [pre [e' [post [_ [He [_ H]]]]]]].
  - exfalso. apply Hkeep. unfold slugifyBasename at 1. rewrite H.
    simpl length. simpl Z.opp. rewrite slice_0_0. reflexivity.
  - unfold slugifyBasename at 2 3. unfold slugifyBasename in Hkeep.
    rewrite H in *.
    set (b := slice name 0 (- Z.of_nat (length (DOT :: e')))) in *.
    destruct (extname_app_ext (slug_replace b) He) as [E | E];
      [contradiction|].
    unfold slugifyBasename. rewrite E.
    rewrite slice_0_neg by (simpl; lia).
    rewrite length_app.
    replace (length (slug_replace b) + length (DOT :: e')
             - length (DOT :: e')) with (length (slug_replace b) + 0) by lia.
    rewrite firstn_app_2. simpl firstn. rewrite app_nil_r.
    now rewrite slug_replace_idempotent.
Qed.

End Extname.

(** C9. A name whose extension is empty ([photo], [.png]) is normalised to
    the empty string: the part to transform is [slice(0, -0)], which is
    [slice(0, 0)].  The destination path of such an asset is then the bare
    [image/] and its rewritten link the bare [../image/]. *)
Theorem slugifyBasename_without_extension (name : jsstring) :
  Path.extname name = [] ->
  slice name 0 (- Z.of_nat (length (Path.extname name))) = slice name 0 0 /\
  slugifyBasename name = [] /\
  image_path (slugifyBasename name) = lit "image/" /\
  image_link (slugifyBasename name) = lit "![](../image/)".
Proof.
  intros H.
  assert (E : slugifyBasename name = []).
  { unfold slugifyBasename. rewrite H. simpl length. simpl Z.opp.
    rewrite slice_0_0. reflexivity. }
  rewrite E, H. repeat split.
Qed.

Lemma slugifyBasename_without_extension_witness :
  Path.extname (lit "photo") = [] /\
  slugifyBasename (lit "photo") = [] /\
  image_path (slugifyBasename (lit "photo")) = lit "image/".
Proof.
  split; [reflexivity|].
  destruct (@slugifyBasename_without_extension (lit "photo") eq_refl)
    as [_ [H1 [H2 _]]].
  split; assumption.
Defined.

Example slugifyBasename_dotfile :
  Path.extname (lit ".png") = [] /\ slugifyBasename (lit ".png") = [].
Proof. split; reflexivity. Qed.

(** An embed of a name without extension is rewritten to a link to the
    image directory itself. *)
Example convert_embed_without_extension :
  convertContentForQuartz (lit "see ![[photo]] and ![[a b.png]]") []
  = lit "see ![](../image/) and ![](../image/a-b.png)".
Proof. vm_compute. reflexivity. Qed.

(** C4. On a name without extension the code does not transform the whole
    name, as the transform rules say, but returns the empty string. *)
Theorem slugifyBasename_loses_name_without_extension :
  slugifyBasename (lit "my photo") = [] /\
  spec_slugify (lit "my photo") = lit "my-photo".
Proof. split; reflexivity. Qed.

(** C8. Normalising twice is not normalising once: [#.png] becomes [.png],
    which has no extension and becomes the empty string. *)
Theorem slugifyBasename_twice_differs :
  slugifyBasename (lit "#.png") = lit ".png" /\
  slugifyBasename (slugifyBasename (lit "#.png")) = [] /\
  slugifyBasename (slugifyBasename (lit "#.png"))
    <> slugifyBasename (lit "#.png") /\
  spec_slugify (spec_slugify (lit "#.png")) = spec_slugify (lit "#.png").
Proof.
  split; [reflexivity|]. split; [reflexivity|]. split; [|reflexivity].
  vm_compute. discriminate.
Qed.

(* ------------------------------------------------------------------ *)
(** ** Reference extraction *)

Example extract_examples :
  extractAssetRefs (lit "x ![[pic 1.png]] y ![alt]( b.png ) ![[ pic 1.png ]]")
    = [lit "pic 1.png"; lit "b.png"] /\
  extractAssetRefs (lit "![a](http://h/a.png) ![b](https://h/b.png)") = [] /\
  captures MD_IMAGE_REGEX (lit "![a](httpdocs/a.png)")
    = [lit "httpdocs/a.png"] /\
  extractAssetRefs (lit "![a](httpdocs/a.png)") = [] /\
  extractAssetRefs (lit "![[httpdocs/a.png]]") = [lit "httpdocs/a.png"] /\
  extractAssetRefs (lit "![[http://h/a.png]]") = [lit "http://h/a.png"].
Proof. repeat split; reflexivity. Qed.

Lemma fold_set_add_In (f : jsstring -> jsstring) (l : list jsstring)
  (refs : list jsstring) (x : jsstring) :
  In x (fold_left (fun refs m1 => set_add (f m1) refs) l refs)
  <-> In x refs \/ In x (map f l).
Proof.
  revert refs. induction l as [|m1 l IH]; intros refs; simpl.
  - tauto.
  - rewrite IH, set_add_In. intuition.
Qed.

Lemma add_wiki_refs_In (content : jsstring) (refs : list jsstring)
  (x : jsstring) :
  In x (add_wiki_refs content refs)
  <-> In x refs \/ In x (map trim (captures WIKI_IMAGE_REGEX content)).
Proof. apply fold_set_add_In. Qed.

Lemma add_md_refs_In (content : jsstring) (refs : list jsstring)
  (x : jsstring) :
  In x (add_md_refs content refs)
  <-> In x refs
      \/ (In x (map trim (captures MD_IMAGE_REGEX content))
          /\ startsWith (lit "http") x = false).
Proof.
  unfold add_md_refs.
  generalize (captures MD_IMAGE_REGEX content) as l.
  intros l. revert refs. induction l as [|m1 l IH]; intros refs.
  - simpl. tauto.
  - cbn [fold_left map In]. rewrite IH.
    destruct (startsWith (lit "http") (trim m1)) eqn:E; cbn [negb].
    + split; [tauto|]. intros [H | [[H | H] Hx]]; auto.
      subst x. congruence.
    + rewrite set_add_In. split.
      * intros [[-> | H] | H]; [right | left | right]; tauto.
      * intros [H | [[H | H] Hx]]; auto.
Qed.

Lemma extractAssetRefs_In (content x : jsstring) :
  In x (extractAssetRefs content)
  <-> In x (map trim (captures WIKI_IMAGE_REGEX content))
      \/ (In x (map trim (captures MD_IMAGE_REGEX content))
          /\ startsWith (lit "http") x = false).
Proof.
  unfold extractAssetRefs. rewrite add_md_refs_In, add_wiki_refs_In.
  simpl. tauto.
Qed.

Section ResolverProperties.
Context {lib : NodeLib} {src : SourceTree}.

Lemma resolveAssets_In (obsidianDir mdDir : jsstring) (refs : list jsstring)
  (a : asset) :
  In a (resolveAssets obsidianDir mdDir refs)
  <-> In (ref a) refs
      /\ findAssetFile obsidianDir mdDir (ref a) = Some (sourcePath a)
      /\ basename a = Path.basename (ref a)
      /\ slugifiedBasename a = slugifyBasename (Path.basename (ref a)).
Proof.
  induction refs as [|r refs IH]; simpl.
  - tauto.
  - destruct (findAssetFile obsidianDir mdDir r) as [p|] eqn:E; simpl.
    + rewrite IH. split.
      * intros [<- | H]; simpl; [auto | tauto].
      * intros [[-> | H] [H1 [H2 H3]]]; [left | right; tauto].
        destruct a as [r' b s p']; simpl in *.
        rewrite E in H1. congruence.
    + rewrite IH. split; [tauto|].
      intros [[-> | H] [H1 H2]]; [congruence | tauto].
Qed.

(* ------------------------------------------------------------------ *)
(** ** Asset resolver *)

Lemma first_slug_match_found (imageDir wantSlug : jsstring)
  (before after : list jsstring) (f : jsstring) :
  (forall g, In g before -> toLowerCase (slugifyBasename g) <> wantSlug) ->
  toLowerCase (slugifyBasename f) = wantSlug ->
  first_slug_match imageDir wantSlug (before ++ f :: after)
  = Some (join imageDir f).
Proof.
  intros Hb Hf. induction before as [|g before IH]; simpl.
  - rewrite Hf, str_eqb_refl. reflexivity.
  - assert (E : str_eqb (toLowerCase (slugifyBasename g)) wantSlug = false).
    { apply str_eqb_neq. apply Hb. now left. }
    rewrite E. apply IH. intros g' Hg'. apply Hb. now right.
Qed.

Lemma first_slug_match_none (imageDir wantSlug : jsstring)
  (files : list jsstring) :
  (forall g, In g files -> toLowerCase (slugifyBasename g) <> wantSlug) ->
  first_slug_match imageDir wantSlug files = None.
Proof.
  intros Hb. induction files as [|g files IH]; simpl; [reflexivity|].
  assert (E : str_eqb (toLowerCase (slugifyBasename g)) wantSlug = false).
  { apply str_eqb_neq. apply Hb. now left. }
  rewrite E. apply IH. intros g' Hg'. apply Hb. now right.
Qed.

Lemma collectPublishable_keeps (obsidianDir : jsstring)
  (candidates : list (jsstring * jsstring)) (acc S : snapshot)
  (k : jsstring) :
  collectPublishable obsidianDir candidates acc = Ok S ->
  Dict.has acc k = true -> Dict.has S k = true.
Proof.
  revert acc. induction candidates as [|[full rel] rest IH]; intros acc.
  - simpl. intros [= <-]. auto.
  - simpl. destruct (src_readFile full) as [c|e]; [|discriminate].
    destruct (hasPublishableFrontmatter c); simpl.
    + destruct (src_stat_mtimeMs full) as [mt|e]; [|discriminate].
      intros H Hk. apply (IH _ H).
      clear - Hk. unfold Dict.has in *.
      induction acc as [|[k' v'] acc IHa]; simpl in *; [discriminate|].
      destruct (str_eqb k' rel) eqn:E1; simpl.
      * destruct (str_eqb k' k); [reflexivity|assumption].
      * destruct (str_eqb k' k); [reflexivity|]. apply IHa, Hk.
    + apply IH.
Qed.

Lemma dict_has_set {V} (d : Dict.t V) (k : jsstring) (v : V) :
  Dict.has (Dict.set d k v) k = true.
Proof.
  unfold Dict.has. induction d as [|[k' v'] d IH]; simpl.
  - now rewrite str_eqb_refl.
  - destruct (str_eqb k' k) eqn:E; simpl; rewrite E; auto.
Qed.

(** The order of [findAssetFile] over the paths [fs.access] accepts: the
    first accessible of the exact base name in the image directory, the
    literal path from the document's directory, the normalised base name
    in the image directory; failing these, the first entry of the image
    directory whose normalised name equals the normalised target without
    regard to case; failing that, nothing.  A reference for which nothing
    is found raises no error: it is left out of the document's assets,
    and the document is in the snapshot all the same. *)
Lemma findAssetFile_resolution_order (obsidianDir mdDir r : jsstring) :
  let base := Path.basename r in
  let imageDir := join obsidianDir IMAGE in
  let exact := join imageDir base in
  let literal := join (join obsidianDir mdDir) r in
  let normalised := join imageDir (slugifyBasename base) in
  let want := toLowerCase (slugifyBasename base) in
  let found := findAssetFile obsidianDir mdDir r in
  (src_access exact = true -> found = Some exact) /\
  (src_access exact = false -> src_access literal = true ->
   found = Some literal) /\
  (src_access exact = false -> src_access literal = false ->
   src_access normalised = true -> found = Some normalised) /\
  (src_access exact = false -> src_access literal = false ->
   src_access normalised = false ->
   (forall before f after,
      src_readdir imageDir = Ok (before ++ f :: after) ->
      (forall g, In g before -> toLowerCase (slugifyBasename g) <> want) ->
      toLowerCase (slugifyBasename f) = want ->
      found = Some (join imageDir f)) /\
   (forall files,
      src_readdir imageDir = Ok files ->
      (forall g, In g files -> toLowerCase (slugifyBasename g) <> want) ->
      found = None) /\
   (forall e, src_readdir imageDir = Err e -> found = None)) /\
  (found = None ->
   (forall rest, resolveAssets obsidianDir mdDir (r :: rest)
                 = resolveAssets obsidianDir mdDir rest) /\
   (forall refs a, In a (resolveAssets obsidianDir mdDir refs) ->
                   ref a <> r) /\
   (forall candidates full rel text S,
      src_listMdFiles obsidianDir = Ok candidates ->
      In (full, rel) candidates ->
      dirname rel = mdDir ->
      src_readFile full = Ok text ->
      hasPublishableFrontmatter text = true ->
      In r (extractAssetRefs text) ->
      getPublishableSet obsidianDir = Ok S ->
      Dict.has S rel = true)).
Proof.
  intros base imageDir exact literal normalised want found.
  unfold found, findAssetFile.
  fold base. fold imageDir. fold exact. fold literal. fold normalised.
  fold want. simpl first_accessible.
  repeat split.
  - intros ->. reflexivity.
  - intros -> ->. reflexivity.
  - intros -> -> ->. reflexivity.
  - intros before f after Hd Hb Hf.
    rewrite H, H0, H1, Hd. now apply first_slug_match_found.
  - intros files Hd Hb. rewrite H, H0, H1, Hd.
    now apply first_slug_match_none.
  - intros e Hd. rewrite H, H0, H1, Hd. reflexivity.
  - intros rest. simpl. unfold findAssetFile.
    fold base. fold imageDir. fold exact. fold literal. fold normalised.
    fold want. simpl first_accessible. rewrite H. reflexivity.
  - intros refs a Ha Hr. apply resolveAssets_In in Ha.
    destruct Ha as [_ [Ha _]]. rewrite Hr in Ha. unfold findAssetFile in Ha.
    fold base in Ha. fold imageDir in Ha. fold exact in Ha.
    fold literal in Ha. fold normalised in Ha. fold want in Ha.
    simpl first_accessible in Ha. congruence.
  - intros candidates full rel text S Hl Hin _ Hread Hpub _.
    unfold getPublishableSet. rewrite Hl. clear Hl.
    generalize (@nil (jsstring * document)) as acc.
    induction candidates as [|[full' rel'] rest IH]; [destruct Hin|].
    intros acc. destruct Hin as [[= -> ->] | Hin].
    + simpl. rewrite Hread, Hpub. simpl.
      destruct (src_stat_mtimeMs full) as [mt|e]; [|discriminate].
      intros HS. apply (collectPublishable_keeps _ _ _ _ HS).
      apply dict_has_set.
    + simpl. destruct (src_readFile full') as [c|e]; [|discriminate].
      destruct (negb (hasPublishableFrontmatter c)); [now apply IH|].
      destruct (src_stat_mtimeMs full') as [mt|e]; [|discriminate].
      now apply IH.
Qed.

End ResolverProperties.

(** C5. The steps of [findAssetFile] test their paths with [fs.access],
    which a directory passes as a file does.  For a reference without
    extension the normalised base name is empty (C4), so that the third
    candidate is the image directory itself.  Here the embed [![[photo]]]
    names no file: none of the four steps of the specification finds one,
    but [findAssetFile] answers the image directory, which is no file; the
    document enters the snapshot with the directory as its asset, and the
    run stops at the copy of it, with [EISDIR], before the document is
    written.  With an extension on the name the reference is dropped and
    the run completes. *)
Theorem findAssetFile_takes_the_image_directory :
  slugifyBasename (Path.basename (lit "photo")) = [] /\
  @spec_findAssetFile Disk.d_lib (Disk.is_file Disk.disk_dangling)
    (Disk.file_names Disk.disk_dangling)
    TestEnv.OBSIDIAN (lit ".") (lit "photo") = None /\
  @findAssetFile Disk.d_lib (Disk.seen Disk.disk_dangling)
    TestEnv.OBSIDIAN (lit ".") (lit "photo") = Some (lit "obsidian/image") /\
  Disk.is_file Disk.disk_dangling (lit "obsidian/image") = false /\
  @getPublishableSet Disk.d_lib (Disk.seen Disk.disk_dangling)
    TestEnv.OBSIDIAN
  = Ok [(lit "a.md",
         mkDocument 5 (Disk.publishable_doc (lit "![[photo]]"))
           [mkAsset (lit "photo") (lit "photo") [] (lit "obsidian/image")])] /\
  Disk.calls_of Disk.disk_dangling
  = [(Mkdir (lit "content/image"), None);
     (Mkdir (lit "content"), None);
     (CopyFile (lit "obsidian/image") (lit "content/image"),
      Some TestEnv.EISDIR)] /\
  snd (Disk.run_from Disk.disk_dangling) = Err TestEnv.EISDIR /\
  @findAssetFile Disk.d_lib (Disk.seen Disk.disk_dangling_ext)
    TestEnv.OBSIDIAN (lit ".") (lit "photo.png") = None /\
  snd (Disk.run_from Disk.disk_dangling_ext)
  = Ok [(lit "a.md", mkEntry 5 [])].
Proof. repeat split; vm_compute; reflexivity. Qed.

(* ------------------------------------------------------------------ *)
(** ** Publishability filter *)

Lemma backtrack_Star_Chr A (p : N -> bool) total cap rest
  (k : option jsstring -> jsstring -> option A) :
  backtrack (Star (Chr p)) total cap rest k = greedy_class p (k cap) rest.
Proof.
  cbn [backtrack].
  generalize (Nat.le_refl (length rest)).
  generalize (length rest) at 2 3 as fuel.
  intros fuel. revert rest.
  induction fuel as [|fuel IH]; intros rest Hlen.
  - destruct rest; [reflexivity | simpl in Hlen; lia].
  - destruct rest as [|c rest]; [reflexivity|].
    cbn [greedy_class]. destruct (p c); [|reflexivity].
    replace (length rest <? length (c :: rest)) with true
      by (symmetry; apply Nat.ltb_lt; simpl; lia).
    rewrite IH by (simpl in Hlen; lia). reflexivity.
Qed.

Lemma backtrack_LazyStar_Chr A (p : N -> bool) total cap rest
  (k : option jsstring -> jsstring -> option A) :
  backtrack (LazyStar (Chr p)) total cap rest k = lazy_class p (k cap) rest.
Proof.
  cbn [backtrack].
  generalize (Nat.le_refl (length rest)).
  generalize (length rest) at 2 3 as fuel.
  intros fuel. revert rest.
  induction fuel as [|fuel IH]; intros rest Hlen.
  - destruct rest; [reflexivity | simpl in Hlen; lia].
  - destruct rest as [|c rest]; [simpl; now destruct (k cap [])|].
    cbn [lazy_class]. destruct (p c); [|reflexivity].
    replace (length rest <? length (c :: rest)) with true
      by (symmetry; apply Nat.ltb_lt; simpl; lia).
    rewrite IH by (simpl in Hlen; lia). reflexivity.
Qed.

Lemma greedy_class_None A (p : N -> bool) (k : jsstring -> option A) rest :
  greedy_class p k rest = None
  <-> forall w r, rest = w ++ r -> all_in p w -> k r = None.
Proof.
  induction rest as [|c rest IH]; simpl.
  - split.
    + intros H w r E _. symmetry in E. apply app_eq_nil in E.
      destruct E as [_ ->]. exact H.
    + intros H. apply (H [] []); [reflexivity | constructor].
  - destruct (p c) eqn:Hc.
    + split.
      * intros H w r E Hw.
        destruct (greedy_class p k rest) eqn:G; [discriminate|]. simpl in H.
        destruct w as [|c' w]; simpl in E.
        -- now subst r.
        -- injection E as <- E. inversion Hw; subst.
           now apply (proj1 IH eq_refl w r).
      * intros H.
        assert (G : greedy_class p k rest = None).
        { apply IH. intros w r E Hw. apply (H (c :: w) r).
          - simpl. now f_equal.
          - constructor; assumption. }
        rewrite G. simpl. apply (H [] (c :: rest)); [reflexivity | constructor].
    + split.
      * intros H w r E Hw. destruct w as [|c' w]; simpl in E.
        -- now subst r.
        -- injection E as <- E. inversion Hw; subst. congruence.
      * intros H. apply (H [] (c :: rest)); [reflexivity | constructor].
Qed.

Lemma greedy_class_Some A (p : N -> bool) (k : jsstring -> option A) rest x :
  greedy_class p k rest = Some x
  <-> exists w r, rest = w ++ r /\ all_in p w /\ k r = Some x /\
        forall w' r', rest = w' ++ r' -> all_in p w' ->
                      length w < length w' -> k r' = None.
Proof.
  induction rest as [|c rest IH]; simpl.
  - split.
    + intros H. exists [], []. repeat split; auto; [constructor|].
      intros w' r' E _ Hl. symmetry in E. apply app_eq_nil in E.
      destruct E as [-> _]. simpl in Hl. lia.
    + intros [w [r [E [_ [H _]]]]]. symmetry in E. apply app_eq_nil in E.
      destruct E as [_ ->]. exact H.
  - destruct (p c) eqn:Hc.
    + split.
      * intros H. destruct (greedy_class p k rest) as [y|] eqn:G; simpl in H.
        -- injection H as ->.
           destruct (proj1 IH eq_refl) as [w [r [E [Hw [Hk Hmax]]]]].
           exists (c :: w), r. subst rest. repeat split; auto.
           ++ constructor; assumption.
           ++ intros w' r' E' Hw' Hl. destruct w' as [|c' w'];
                [simpl in Hl; lia|].
              simpl in E'. injection E' as <- E'. inversion Hw'; subst.
              apply (Hmax w' r'); auto. simpl in Hl. lia.
        -- exists [], (c :: rest). repeat split; auto; [constructor|].
           intros w' r' E' Hw' Hl. destruct w' as [|c' w'];
             [simpl in Hl; lia|].
           simpl in E'. injection E' as <- E'. inversion Hw'; subst.
           now apply (proj1 (greedy_class_None p k _) G w' r').
      * intros [w [r [E [Hw [Hk Hmax]]]]]. destruct w as [|c' w].
        -- simpl in E. subst r.
           assert (G : greedy_class p k rest = None).
           { apply greedy_class_None. intros w r E Hw'.
             apply (Hmax (c :: w) r); simpl; [now f_equal| |lia].
             constructor; assumption. }
           rewrite G. exact Hk.
        -- simpl in E. injection E as <- E. inversion Hw; subst.
           assert (G : greedy_class p k (w ++ r) = Some x).
           { apply IH. exists w, r. repeat split; auto.
             intros w' r' E' Hw' Hl. apply (Hmax (c :: w') r'); simpl.
             - now f_equal.
             - constructor; assumption.
             - lia. }
           rewrite G. reflexivity.
    + split.
      * intros H. exists [], (c :: rest). repeat split; auto; [constructor|].
        intros w' r' E' Hw' Hl. destruct w' as [|c' w'];
          [simpl in Hl; lia|].
        simpl in E'. injection E' as <- E'. inversion Hw'; subst. congruence.
      * intros [w [r [E [Hw [Hk Hmax]]]]]. destruct w as [|c' w].
        -- simpl in E. now subst r.
        -- simpl in E. injection E as <- E. inversion Hw; subst. congruence.
Qed.

Lemma lazy_class_None A (p : N -> bool) (k : jsstring -> option A) rest :
  lazy_class p k rest = None
  <-> forall w r, rest = w ++ r -> all_in p w -> k r = None.
Proof.
  induction rest as [|c rest IH]; simpl.
  - split.
    + intros H w r E _. symmetry in E. apply app_eq_nil in E.
      destruct E as [_ ->]. exact H.
    + intros H. apply (H [] []); [reflexivity | constructor].
  - split.
    + intros H w r E Hw.
      destruct (k (c :: rest)) eqn:K; [discriminate|]. simpl in H.
      destruct w as [|c' w]; simpl in E.
      * now subst r.
      * injection E as <- E. inversion Hw; subst.
        match goal with Hp : p c = true |- _ => rewrite Hp in H end.
        now apply (proj1 IH H w r).
    + intros H. rewrite (H [] (c :: rest)); [|reflexivity|constructor]. simpl.
      destruct (p c) eqn:Hc; [|reflexivity].
      apply IH. intros w r E Hw. apply (H (c :: w) r).
      * simpl. now f_equal.
      * constructor; assumption.
Qed.

Lemma lazy_class_Some A (p : N -> bool) (k : jsstring -> option A) rest x :
  lazy_class p k rest = Some x
  <-> exists w r, rest = w ++ r /\ all_in p w /\ k r = Some x /\
        forall w' r', rest = w' ++ r' -> length w' < length w ->
                      k r' = None.
Proof.
  induction rest as [|c rest IH]; simpl.
  - split.
    + intros H. exists [], []. repeat split; auto; [constructor|].
      intros w' r' _ Hl. simpl in Hl. lia.
    + intros [w [r [E [_ [H _]]]]]. symmetry in E. apply app_eq_nil in E.
      destruct E as [_ ->]. exact H.
  - split.
    + intros H. destruct (k (c :: rest)) as [y|] eqn:K; simpl in H.
      * injection H as ->. exists [], (c :: rest).
        repeat split; auto; [constructor|].
        intros w' r' _ Hl. simpl in Hl. lia.
      * destruct (p c) eqn:Hc; [|discriminate].
        destruct (proj1 IH H) as [w [r [E [Hw [Hk Hmin]]]]].
        exists (c :: w), r. subst rest. repeat split; auto.
        -- constructor; assumption.
        -- intros w' r' E' Hl. destruct w' as [|c' w'].
           ++ simpl in E'. now subst r'.
           ++ simpl in E'. injection E' as <- E'.
              apply (Hmin w' r'); auto. simpl in Hl. lia.
    + intros [w [r [E [Hw [Hk Hmin]]]]]. destruct w as [|c' w].
      * simpl in E. subst r. rewrite Hk. reflexivity.
      * simpl in E. injection E as <- E. inversion Hw; subst.
        rewrite (Hmin [] (c :: w ++ r)); [|reflexivity|simpl; lia]. simpl.
        match goal with Hp : p c = true |- _ => rewrite Hp end.
        apply IH. exists w, r. repeat split; auto.
        intros w' r' E' Hl. apply (Hmin (c :: w') r'); simpl.
        -- now f_equal.
        -- lia.
Qed.

Lemma backtrack_Seq A a b total cap rest
  (k : option jsstring -> jsstring -> option A) :
  backtrack (Seq a b) total cap rest k
  = backtrack a total cap rest
      (fun cap' rest' => backtrack b total cap' rest' k).
Proof. reflexivity. Qed.

Lemma backtrack_Str A s total cap rest
  (k : option jsstring -> jsstring -> option A) :
  backtrack (Str s) total cap rest k
  = if startsWith s rest then k cap (skipn (length s) rest) else None.
Proof. reflexivity. Qed.

Lemma backtrack_Group A a total cap rest
  (k : option jsstring -> jsstring -> option A) :
  backtrack (Group a) total cap rest k
  = backtrack a total cap rest (fun _ rest' =>
      k (Some (firstn (length rest - length rest') rest)) rest').
Proof. reflexivity. Qed.

Lemma any_char_all (w : jsstring) : all_in any_char w.
Proof.
  induction w; constructor; auto. unfold any_char. apply orb_negb_r.
Qed.

Lemma firstn_prefix (w r : jsstring) :
  firstn (length (w ++ r) - length r) (w ++ r) = w.
Proof.
  rewrite length_app.
  replace (length w + length r - length r) with (length w + 0) by lia.
  rewrite firstn_app_2. simpl. apply app_nil_r.
Qed.

Lemma fm_block_inv n total cap r2 m :
  backtrack FM_BLOCK total cap r2 (result_of n) = Some m ->
  exists block rest,
    r2 = block ++ CLOSE ++ rest /\ snd m = Some block /\
    forall block' rest', r2 = block' ++ CLOSE ++ rest' ->
                         length block <= length block'.
Proof.
  unfold FM_BLOCK.
  rewrite backtrack_Seq, backtrack_Group, backtrack_LazyStar_Chr.
  rewrite lazy_class_Some.
  intros [w [r [E [_ [Hk Hmin]]]]].
  rewrite backtrack_Str in Hk.
  destruct (startsWith CLOSE r) eqn:S; [|discriminate].
  apply startsWith_inv in S. destruct S as [rest ->].
  exists w, rest. split; [assumption|]. split.
  - unfold result_of in Hk. injection Hk as <-. simpl snd.
    rewrite E. now rewrite firstn_prefix.
  - intros block' rest' E'.
    destruct (Nat.le_gt_cases (length w) (length block')) as [|Hlt];
      [assumption|].
    specialize (Hmin block' (CLOSE ++ rest') E' Hlt).
    rewrite backtrack_Str, startsWith_app in Hmin. discriminate.
Qed.

Lemma fm_block_intro n total cap r2 block rest :
  r2 = block ++ CLOSE ++ rest ->
  (forall block' rest', r2 = block' ++ CLOSE ++ rest' ->
                        length block <= length block') ->
  exists len, backtrack FM_BLOCK total cap r2 (result_of n)
              = Some (len, Some block).
Proof.
  intros E Hmin. unfold FM_BLOCK.
  rewrite backtrack_Seq, backtrack_Group, backtrack_LazyStar_Chr.
  eexists. apply lazy_class_Some.
  exists block, (CLOSE ++ rest). split; [assumption|].
  split; [apply any_char_all|]. split.
  - rewrite backtrack_Str, startsWith_app. unfold result_of.
    rewrite E, firstn_prefix. reflexivity.
  - intros w' r' E' Hl. rewrite backtrack_Str.
    destruct (startsWith CLOSE r') eqn:S; [|reflexivity].
    apply startsWith_inv in S. destruct S as [rest' ->].
    specialize (Hmin w' rest' E'). lia.
Qed.

Lemma fm_block_None n total cap r2 :
  backtrack FM_BLOCK total cap r2 (result_of n) = None
  <-> forall block rest, r2 <> block ++ CLOSE ++ rest.
Proof.
  unfold FM_BLOCK.
  rewrite backtrack_Seq, backtrack_Group, backtrack_LazyStar_Chr.
  rewrite lazy_class_None. split.
  - intros H block rest E.
    specialize (H block (CLOSE ++ rest) E (any_char_all block)).
    rewrite backtrack_Str, startsWith_app in H. discriminate.
  - intros H w r E _. rewrite backtrack_Str.
    destruct (startsWith CLOSE r) eqn:S; [|reflexivity].
    apply startsWith_inv in S. destruct S as [rest ->].
    now destruct (H w rest).
Qed.

Lemma backtrack_Chr_Seq A p b total cap rest
  (k : option jsstring -> jsstring -> option A) :
  backtrack (Seq (Chr p) b) total cap rest k
  = match rest with
    | c :: rest' => if p c then backtrack b total cap rest' k else None
    | [] => None
    end.
Proof. reflexivity. Qed.

Lemma fm_tail_inv n total cap r1 m :
  backtrack FM_TAIL total cap r1 (result_of n) = Some m ->
  exists block rest,
    r1 = NL :: block ++ CLOSE ++ rest /\ snd m = Some block /\
    forall block' rest', r1 = NL :: block' ++ CLOSE ++ rest' ->
                         length block <= length block'.
Proof.
  unfold FM_TAIL. rewrite backtrack_Chr_Seq.
  destruct r1 as [|c r2]; [discriminate|].
  destruct (N.eqb NL c) eqn:Ec; [|discriminate].
  apply N.eqb_eq in Ec. subst c. intros H.
  apply fm_block_inv in H. destruct H as [block [rest [E [Hm Hmin]]]].
  exists block, rest. split; [now rewrite E|]. split; [assumption|].
  intros block' rest' [= E']. now apply (Hmin block' rest').
Qed.

Lemma fm_tail_intro n total cap block rest :
  (forall block' rest', block ++ CLOSE ++ rest = block' ++ CLOSE ++ rest' ->
                        length block <= length block') ->
  exists len, backtrack FM_TAIL total cap (NL :: block ++ CLOSE ++ rest)
                  (result_of n) = Some (len, Some block).
Proof.
  intros Hmin. unfold FM_TAIL. rewrite backtrack_Chr_Seq, N.eqb_refl.
  now apply fm_block_intro with (rest := rest).
Qed.

Lemma fm_tail_None n total cap r1 :
  backtrack FM_TAIL total cap r1 (result_of n) = None
  <-> forall block rest, r1 <> NL :: block ++ CLOSE ++ rest.
Proof.
  unfold FM_TAIL. rewrite backtrack_Chr_Seq. split.
  - intros H block rest ->. rewrite N.eqb_refl in H.
    pose proof (proj1 (fm_block_None _ _ _ _) H) as H'.
    now apply (H' block rest).
  - intros H. destruct r1 as [|c r2]; [reflexivity|].
    destruct (N.eqb NL c) eqn:Ec; [|reflexivity].
    apply N.eqb_eq in Ec. subst c. apply fm_block_None.
    intros block rest ->. now apply (H block rest).
Qed.

Lemma frontmatter_unfold total text :
  match_at FRONTMATTER_REGEX total text
  = if Nat.eqb (length text) total then
      if startsWith (lit "---") text then
        greedy_class is_space
          (fun r1 => backtrack FM_TAIL total None r1 (result_of (length text)))
          (skipn 3 text)
      else None
    else None.
Proof.
  unfold match_at.
  change FRONTMATTER_REGEX
    with (Seq Bos (Seq (Str (lit "---")) (Seq (Star (Chr is_space)) FM_TAIL))).
  rewrite backtrack_Seq. cbn [backtrack].
  destruct (Nat.eqb (length text) total); [|reflexivity].
  change (length (lit "---")) with 3.
  destruct (startsWith (lit "---") text); [|reflexivity].
  apply (backtrack_Star_Chr is_space total None (skipn 3 text)
           (fun cap' rest' => backtrack FM_TAIL total cap' rest'
                                  (result_of (length text)))).
Qed.

Lemma frontmatter_match_inv text m :
  match_at FRONTMATTER_REGEX (length text) text = Some m ->
  exists block, snd m = Some block /\ header_block text block.
Proof.
  rewrite frontmatter_unfold, Nat.eqb_refl.
  destruct (startsWith (lit "---") text) eqn:S; [|discriminate].
  apply startsWith_inv in S. destruct S as [r0 ->].
  change (skipn 3 (lit "---" ++ r0)) with r0.
  rewrite greedy_class_Some.
  intros [ws [r1 [E [Hws [Hk Hmax]]]]].
  apply fm_tail_inv in Hk. destruct Hk as [block [rest [E1 [Hm Hmin]]]].
  exists block. split; [assumption|]. exists ws, rest. subst r0 r1.
  split; [split; [reflexivity|assumption]|]. split.
  - intros ws' block' rest' [E' Hws'].
    apply app_inv_head in E'.
    destruct (Nat.le_gt_cases (length ws') (length ws)) as [|Hlt];
      [assumption|].
    specialize (Hmax ws' _ E' Hws' Hlt).
    pose proof (proj1 (fm_tail_None _ _ _ _) Hmax) as Hmax'.
    now destruct (Hmax' block' rest').
  - intros block' rest' [E' _].
    apply app_inv_head in E'. apply app_inv_head in E'.
    now apply (Hmin block' rest').
Qed.

Lemma frontmatter_match_intro text block :
  header_block text block ->
  exists len, match_at FRONTMATTER_REGEX (length text) text
              = Some (len, Some block).
Proof.
  intros [ws [rest [[E Hws] [Hmax Hmin]]]].
  destruct (@fm_tail_intro (length text) (length text) None block rest)
    as [len Hlen].
  { intros block' rest' E'. apply (Hmin block' rest').
    split; [|assumption]. rewrite E. now rewrite E'. }
  exists len. rewrite frontmatter_unfold, Nat.eqb_refl.
  set (n := length text) in *. clearbody n.
  assert (Hmax' : forall ws' r',
            ws ++ NL :: block ++ CLOSE ++ rest = ws' ++ r' ->
            all_in is_space ws' -> length ws < length ws' ->
            backtrack FM_TAIL n None r' (result_of n) = None).
  { intros ws' r' E' Hws' Hl.
    apply fm_tail_None. intros block' rest' ->.
    assert (Hs : header_split text ws' block' rest').
    { split; [|assumption]. rewrite E. now rewrite E'. }
    specialize (Hmax _ _ _ Hs). lia. }
  clear Hmax Hmin. subst text. rewrite startsWith_app.
  change (skipn 3 (lit "---" ++ ?r)) with r.
  apply greedy_class_Some.
  exists ws, (NL :: block ++ CLOSE ++ rest).
  split; [reflexivity|]. split; [assumption|]. split; assumption.
Qed.

Lemma frontmatter_search_later total rest :
  length rest < total -> search_from FRONTMATTER_REGEX total rest = None.
Proof.
  induction rest as [|c rest IH]; intros Hl; cbn [search_from].
  - rewrite frontmatter_unfold.
    replace (Nat.eqb (length (@nil N)) total) with false; [reflexivity|].
    symmetry. apply Nat.eqb_neq. lia.
  - rewrite frontmatter_unfold.
    replace (Nat.eqb (length (c :: rest)) total) with false.
    + apply IH. simpl in Hl. lia.
    + symmetry. apply Nat.eqb_neq. lia.
Qed.

Lemma exec_frontmatter text :
  exec FRONTMATTER_REGEX text = match_at FRONTMATTER_REGEX (length text) text.
Proof.
  unfold exec. destruct text as [|c rest]; cbn [search_from].
  - now destruct (match_at FRONTMATTER_REGEX (length (@nil N)) []).
  - destruct (match_at FRONTMATTER_REGEX (length (c :: rest)) (c :: rest));
      [reflexivity|].
    apply frontmatter_search_later. simpl. lia.
Qed.

Lemma greedy_class_is_Some A (p : N -> bool) (k : jsstring -> option A) rest :
  (exists x, greedy_class p k rest = Some x)
  <-> exists w r, rest = w ++ r /\ all_in p w /\ exists x, k r = Some x.
Proof.
  split.
  - intros [x H]. apply greedy_class_Some in H.
    destruct H as [w [r [E [Hw [Hk _]]]]]. exists w, r. eauto.
  - intros [w [r [E [Hw [x Hk]]]]].
    destruct (greedy_class p k rest) as [y|] eqn:G; [now exists y|].
    pose proof (proj1 (greedy_class_None p k rest) G w r E Hw). congruence.
Qed.

Lemma search_from_is_Some r total s :
  (exists m, search_from r total s = Some m)
  <-> exists pre rest, s = pre ++ rest /\
                       exists m, match_at r total rest = Some m.
Proof.
  induction s as [|c s IH]; cbn [search_from].
  - split.
    + intros [m H]. exists [], []. split; [reflexivity|].
      destruct (match_at r total []); [eauto | discriminate].
    + intros [pre [rest [E [m H]]]]. symmetry in E.
      apply app_eq_nil in E. destruct E as [_ ->]. rewrite H. eauto.
  - split.
    + intros [m H].
      destruct (match_at r total (c :: s)) as [m'|] eqn:M.
      * exists [], (c :: s). eauto.
      * destruct (proj1 IH (ex_intro _ m H)) as [pre [rest [E Hm]]].
        exists (c :: pre), rest. subst s. eauto.
    + intros [pre [rest [E [m H]]]].
      destruct (match_at r total (c :: s)) as [m'|] eqn:M; [eauto|].
      apply IH. destruct pre as [|c' pre]; simpl in E.
      * subst rest. congruence.
      * injection E as <- E. exists pre, rest. eauto.
Qed.

Lemma pub_value_is_Some n total cap r :
  (exists m, backtrack PUB_VALUE total cap r (result_of n) = Some m)
  <-> exists w2 after, r = w2 ++ lit "true" ++ after /\ all_in is_space w2.
Proof.
  unfold PUB_VALUE.
  rewrite backtrack_Seq, backtrack_Star_Chr, greedy_class_is_Some.
  split.
  - intros [w [r' [E [Hw [m H]]]]]. rewrite backtrack_Str in H.
    destruct (startsWith (lit "true") r') eqn:S; [|discriminate].
    apply startsWith_inv in S. destruct S as [after ->]. eauto.
  - intros [w2 [after [E Hw]]]. exists w2, (lit "true" ++ after).
    split; [assumption|]. split; [assumption|].
    rewrite backtrack_Str, startsWith_app. unfold result_of. eauto.
Qed.

Lemma pub_tail_is_Some n total cap r :
  (exists m, backtrack PUB_TAIL total cap r (result_of n) = Some m)
  <-> exists w1 w2 after,
        r = w1 ++ lit ":" ++ w2 ++ lit "true" ++ after /\
        all_in is_space w1 /\ all_in is_space w2.
Proof.
  unfold PUB_TAIL.
  rewrite backtrack_Seq, backtrack_Star_Chr, greedy_class_is_Some.
  split.
  - intros [w [r' [E [Hw H]]]]. rewrite backtrack_Seq, backtrack_Str in H.
    destruct (startsWith (lit ":") r') eqn:S;
      [|destruct H; discriminate].
    apply startsWith_inv in S. destruct S as [r2 ->].
    change (skipn (length (lit ":")) (lit ":" ++ r2)) with r2 in H.
    apply pub_value_is_Some in H. destruct H as [w2 [after [-> Hw2]]].
    exists w, w2, after. auto.
  - intros [w1 [w2 [after [E [Hw1 Hw2]]]]].
    exists w1, (lit ":" ++ w2 ++ lit "true" ++ after).
    split; [assumption|]. split; [assumption|].
    rewrite backtrack_Seq, backtrack_Str, startsWith_app.
    change (skipn (length (lit ":")) (lit ":" ++ ?x)) with x.
    apply pub_value_is_Some. exists w2, after. auto.
Qed.

Lemma match_at_eq r total rest :
  match_at r total rest = backtrack r total None rest (result_of (length rest)).
Proof. reflexivity. Qed.

Lemma publishable_match_at total rest :
  (exists m, match_at PUBLISHABLE_REGEX total rest = Some m)
  <-> exists key w1 w2 after,
        rest = key ++ w1 ++ lit ":" ++ w2 ++ lit "true" ++ after /\
        (key = KEY_KEFABU \/ key = KEY_YIFABU) /\
        all_in is_space w1 /\ all_in is_space w2.
Proof.
  rewrite match_at_eq.
  change PUBLISHABLE_REGEX
    with (Seq (Alt (Str KEY_KEFABU) (Str KEY_YIFABU)) PUB_TAIL).
  rewrite backtrack_Seq.
  change (backtrack (Alt (Str KEY_KEFABU) (Str KEY_YIFABU)) total None rest ?k)
    with (orelse (backtrack (Str KEY_KEFABU) total None rest k)
                 (backtrack (Str KEY_YIFABU) total None rest k)).
  rewrite !backtrack_Str.
  change (length KEY_KEFABU) with 3. change (length KEY_YIFABU) with 3.
  cbv beta.
  split.
  - intros [m H].
    destruct (startsWith KEY_KEFABU rest) eqn:S1.
    + apply startsWith_inv in S1. destruct S1 as [r ->].
      change (skipn 3 (KEY_KEFABU ++ r)) with r in H.
      destruct (backtrack PUB_TAIL total None r _) as [m'|] eqn:T.
      * destruct (proj1 (pub_tail_is_Some _ _ _ _) (ex_intro _ m' T))
          as [w1 [w2 [after [-> [H1 H2]]]]].
        exists KEY_KEFABU, w1, w2, after. auto.
      * cbn [orelse] in H.
        replace (startsWith KEY_YIFABU (KEY_KEFABU ++ r)) with false in H
          by reflexivity.
        discriminate.
    + cbn [orelse] in H. destruct (startsWith KEY_YIFABU rest) eqn:S2;
        [|discriminate].
      apply startsWith_inv in S2. destruct S2 as [r ->].
      change (skipn 3 (KEY_YIFABU ++ r)) with r in H.
      destruct (proj1 (pub_tail_is_Some _ _ _ _) (ex_intro _ m H))
        as [w1 [w2 [after [-> [H1 H2]]]]].
      exists KEY_YIFABU, w1, w2, after. auto.
  - intros [key [w1 [w2 [after [E [Hk [H1 H2]]]]]]].
    assert (T : exists m, backtrack PUB_TAIL total None
                  (w1 ++ lit ":" ++ w2 ++ lit "true" ++ after)
                  (result_of (length rest)) = Some m).
    { apply pub_tail_is_Some. exists w1, w2, after. auto. }
    destruct T as [m T]. subst rest. destruct Hk as [-> | ->].
    + rewrite startsWith_app.
      change (skipn 3 (KEY_KEFABU ++ ?x)) with x. rewrite T.
      cbn [orelse]. eauto.
    + replace (startsWith KEY_KEFABU (KEY_YIFABU ++ _)) with false
        by reflexivity.
      cbn [orelse]. rewrite startsWith_app.
      change (skipn 3 (KEY_YIFABU ++ ?x)) with x. eauto.
Qed.

Lemma publishable_test block :
  test PUBLISHABLE_REGEX block = true <-> sets_publishable block.
Proof.
  unfold test, exec, sets_publishable. split.
  - intros H.
    destruct (search_from PUBLISHABLE_REGEX (length block) block)
      as [m|] eqn:S; [|discriminate].
    destruct (proj1 (search_from_is_Some _ _ _) (ex_intro _ m S))
      as [pre [rest [E Hm]]].
    apply publishable_match_at in Hm.
    destruct Hm as [key [w1 [w2 [after [-> Hrest]]]]].
    exists pre, key, w1, w2, after. auto.
  - intros [before [key [w1 [w2 [after [E Hrest]]]]]].
    assert (S : exists m, search_from PUBLISHABLE_REGEX (length block) block
                          = Some m).
    { apply search_from_is_Some. exists before. eexists. split; [exact E|].
      apply publishable_match_at. exists key, w1, w2, after. auto. }
    destruct S as [m ->]. reflexivity.
Qed.

(** C6, as the code has it.  A text is publishable exactly when it splits
    into [---], white space, a line feed, a block, a line feed with [---]
    and a rest -- with the longest such white space and then the shortest
    block -- and the block holds, anywhere, an accepted key, white space,
    a colon, white space and [true].  White space may hold line breaks;
    neither the closing hyphens nor the key need fill a line.  A text with
    no such splitting is not publishable. *)
Theorem hasPublishableFrontmatter_iff text :
  hasPublishableFrontmatter text = true
  <-> exists block, header_block text block /\ sets_publishable block.
Proof.
  unfold hasPublishableFrontmatter. rewrite exec_frontmatter. split.
  - destruct (match_at FRONTMATTER_REGEX (length text) text) as [m|] eqn:M;
      [|discriminate].
    intros T. apply frontmatter_match_inv in M.
    destruct M as [block [Hm Hb]]. exists block. split; [assumption|].
    apply publishable_test. unfold group1 in T. now rewrite Hm in T.
  - intros [block [Hb Hp]].
    destruct (frontmatter_match_intro Hb) as [len ->].
    now apply publishable_test.
Qed.

Example filter_examples :
  hasPublishableFrontmatter doc_publishable = true /\
  spec_publishable doc_publishable = true /\
  hasPublishableFrontmatter doc_unpublished = false /\
  spec_publishable doc_unpublished = false /\
  hasPublishableFrontmatter (lit "x" ++ doc_publishable) = false /\
  hasPublishableFrontmatter (lit "no header") = false.
Proof. repeat split; vm_compute; reflexivity. Qed.

(** C6 as stated fails: a header whose only setting is of another key,
    one that ends in an accepted key, makes the text publishable. *)
Lemma hasPublishableFrontmatter_accepts_other_key :
  hasPublishableFrontmatter doc_other_key = true /\
  spec_publishable doc_other_key = false.
Proof. split; vm_compute; reflexivity. Qed.

(** Other texts the code accepts and the stated condition does not. *)
Example filter_differences :
  (hasPublishableFrontmatter doc_long_marker = true /\
   spec_publishable doc_long_marker = false) /\
  (hasPublishableFrontmatter doc_setting_in_body = true /\
   spec_publishable doc_setting_in_body = false) /\
  (hasPublishableFrontmatter doc_setting_on_three_lines = true /\
   spec_publishable doc_setting_on_three_lines = false).
Proof. repeat split; vm_compute; reflexivity. Qed.

(* ------------------------------------------------------------------ *)
(** ** The snapshot in two states of the file system *)

Section SameReads.
Context {lib : NodeLib}.

Lemma findAssetFile_same (a b : SourceTree) O mdDir r :
  (forall p, In p (candidates_of O mdDir r) ->
             @src_access b p = @src_access a p) ->
  @src_readdir b (join O IMAGE) = @src_readdir a (join O IMAGE) ->
  @findAssetFile lib b O mdDir r = @findAssetFile lib a O mdDir r.
Proof.
  intros Ha Hd. unfold findAssetFile. cbn [first_accessible].
  unfold candidates_of in Ha.
  rewrite !Ha, Hd by (cbn [In]; auto). reflexivity.
Qed.

Lemma resolveAssets_same (a b : SourceTree) O mdDir refs :
  (forall r, In r refs ->
             @findAssetFile lib b O mdDir r = @findAssetFile lib a O mdDir r) ->
  @resolveAssets lib b O mdDir refs = @resolveAssets lib a O mdDir refs.
Proof.
  induction refs as [|r refs IH]; intros H; [reflexivity|].
  cbn [resolveAssets]. rewrite (H r) by now left.
  rewrite IH by (intros r' Hr'; apply H; now right). reflexivity.
Qed.

(** The snapshot depends on the file system through what [same_reads]
    names, and through nothing else. *)
Lemma same_reads_same_snapshot (a b : SourceTree) O :
  same_reads a b O ->
  @getPublishableSet lib b O = @getPublishableSet lib a O.
Proof.
  intros [Hl [Hd H]]. unfold getPublishableSet. rewrite Hl.
  destruct (@src_listMdFiles a O) as [candidates|e]; [|reflexivity].
  specialize (H candidates).
  assert (G : forall l acc,
            (forall full rel, In (full, rel) l -> In (full, rel) candidates) ->
            @collectPublishable lib b O l acc
            = @collectPublishable lib a O l acc).
  { induction l as [|[full rel] l IH]; intros acc Hin; [reflexivity|].
    destruct (H full rel eq_refl (Hin full rel (or_introl eq_refl)))
      as [Hr [Hs Hp]].
    assert (Hin' : forall full' rel',
              In (full', rel') l -> In (full', rel') candidates)
      by (intros full' rel' Hi; apply Hin; now right).
    cbn [collectPublishable]. rewrite Hr.
    destruct (@src_readFile a full) as [text|e]; [|reflexivity].
    destruct (hasPublishableFrontmatter text) eqn:P; cbn [negb];
      [|now apply IH].
    rewrite Hs. destruct (@src_stat_mtimeMs a full) as [mt|e]; [|reflexivity].
    rewrite (@resolveAssets_same a b O (dirname rel) (extractAssetRefs text)).
    - now apply IH.
    - intros r Hr'. apply findAssetFile_same; [|exact Hd].
      intros p Hp'. now apply (Hp text r p). }
  apply G. auto.
Qed.

End SameReads.

(* ------------------------------------------------------------------ *)
(** ** Reconciler *)

(** Each event of an explicit list satisfies a disjunction on its call. *)
Ltac forall_events_by tac :=
  cbn [app];
  repeat (apply Forall_cons; [cbn [fst snd]; solve [tac]|]);
  apply Forall_nil.

Ltac forall_events := forall_events_by auto.


Lemma fold_set_add_gen X (f : X -> jsstring) (l : list X)
  (acc : list jsstring) (a : jsstring) :
  In a (fold_left (fun s x => set_add (f x) s) l acc)
  <-> In a acc \/ exists x, In x l /\ a = f x.
Proof.
  revert acc. induction l as [|x l IH]; intros acc; simpl.
  - split; [auto | intros [H | [x [[] _]]]; exact H].
  - rewrite IH, set_add_In. split.
    + intros [[-> | H] | [y [Hy ->]]]; eauto.
    + intros [H | [y [[<- | Hy] ->]]]; eauto.
Qed.

Lemma assetsStillReferenced_In (S : snapshot) (a : jsstring) :
  In a (assetsStillReferenced S) <-> referenced S a.
Proof.
  unfold assetsStillReferenced, referenced.
  assert (G : forall acc,
    In a (fold_left
            (fun s kv =>
               fold_left
                 (fun s x => set_add (image_path (slugifiedBasename x)) s)
                 (assets (snd kv)) s) S acc)
    <-> In a acc \/
        exists rel data x, In (rel, data) S /\ In x (assets data) /\
                           a = image_path (slugifiedBasename x)).
  { induction S as [|[rel data] S IH]; intros acc; simpl.
    - split; [auto | intros [H | [? [? [? [[] _]]]]]; exact H].
    - rewrite IH, fold_set_add_gen. simpl. split.
      + intros [[H | [x [Hx ->]]] | [rel' [data' [x [H1 [H2 ->]]]]]].
        * now left.
        * right. exists rel, data, x. auto.
        * right. exists rel', data', x. auto.
      + intros [H | [rel' [data' [x [[[= <- <-] | H1] [H2 ->]]]]]].
        * left. now left.
        * left. right. eauto.
        * right. exists rel', data', x. auto. }
  rewrite G. simpl. tauto.
Qed.

Lemma unreferenced_iff (S : snapshot) (a : jsstring) :
  unreferenced S a = true <-> ~ referenced S a.
Proof.
  unfold unreferenced. rewrite negb_true_iff, set_has_not_In.
  now rewrite assetsStillReferenced_In.
Qed.

Lemma dict_has_In V (d : Dict.t V) (k : jsstring) :
  Dict.has d k = true <-> In k (Dict.keys d).
Proof.
  unfold Dict.has. induction d as [|[k' v] d IH]; simpl.
  - split; [discriminate | tauto].
  - destruct (str_eqb k' k) eqn:E.
    + apply str_eqb_eq in E. subst. split; auto.
    + apply str_eqb_neq in E. rewrite IH. split; [auto|].
      intros [H | H]; [congruence | assumption].
Qed.

Lemma toDeleteMd_In (S : snapshot) (m : manifest) (rel : jsstring) :
  In rel (toDeleteMd S m)
  <-> In rel (Dict.keys m) /\ ~ In rel (Dict.keys S).
Proof.
  unfold toDeleteMd. rewrite filter_In, negb_true_iff.
  rewrite <- (dict_has_In S rel).
  destruct (Dict.has S rel); intuition congruence.
Qed.

Lemma dict_get_set_same V (d : Dict.t V) (k : jsstring) (v : V) :
  Dict.get (Dict.set d k v) k = Some v.
Proof.
  induction d as [|[k' v'] d IH]; simpl.
  - now rewrite str_eqb_refl.
  - destruct (str_eqb k' k) eqn:E; simpl; rewrite E; auto.
Qed.

Lemma dict_get_set_other V (d : Dict.t V) (k k' : jsstring) (v : V) :
  k <> k' -> Dict.get (Dict.set d k v) k' = Dict.get d k'.
Proof.
  intros Hn. induction d as [|[k0 v0] d IH]; simpl.
  - apply str_eqb_neq in Hn. now rewrite Hn.
  - destruct (str_eqb k0 k) eqn:E; simpl.
    + apply str_eqb_eq in E. subst k0.
      apply str_eqb_neq in Hn. now rewrite Hn.
    + destruct (str_eqb k0 k'); auto.
Qed.

Lemma dict_keys_set V (d : Dict.t V) (k x : jsstring) (v : V) :
  In x (Dict.keys (Dict.set d k v)) <-> x = k \/ In x (Dict.keys d).
Proof.
  unfold Dict.keys. induction d as [|[k0 v0] d IH]; simpl.
  - intuition.
  - destruct (str_eqb k0 k) eqn:E; simpl.
    + apply str_eqb_eq in E. subst k0. intuition.
    + rewrite IH. intuition.
Qed.

Lemma dict_get_In V (d : Dict.t V) (k : jsstring) (v : V) :
  Dict.get d k = Some v -> In (k, v) d.
Proof.
  induction d as [|[k0 v0] d IH]; simpl; [discriminate|].
  destruct (str_eqb k0 k) eqn:E.
  - apply str_eqb_eq in E. subst k0. intros [= ->]. now left.
  - auto.
Qed.

Lemma nextManifest_keys (entries : manifest)
  (docs : list (jsstring * document)) (acc : manifest) (x : jsstring) :
  In x (Dict.keys (nextManifest entries docs acc))
  <-> In x (Dict.keys acc) \/ In x (Dict.keys docs).
Proof.
  unfold nextManifest. revert acc.
  induction docs as [|[rel data] docs IH]; intros acc; simpl.
  - tauto.
  - rewrite IH, dict_keys_set. intuition.
Qed.

Lemma nextManifest_get_other (entries : manifest)
  (docs : list (jsstring * document)) (acc : manifest) (rel : jsstring) :
  ~ In rel (Dict.keys docs) ->
  Dict.get (nextManifest entries docs acc) rel = Dict.get acc rel.
Proof.
  unfold nextManifest. revert acc.
  induction docs as [|[rel' data] docs IH]; intros acc H; simpl in *.
  - reflexivity.
  - rewrite IH by tauto. apply dict_get_set_other. tauto.
Qed.

Lemma nextManifest_get (entries : manifest)
  (docs : list (jsstring * document)) (acc : manifest)
  (rel : jsstring) (data : document) :
  NoDup (Dict.keys docs) -> In (rel, data) docs ->
  Dict.get (nextManifest entries docs acc) rel
  = Some (new_entry entries rel data).
Proof.
  revert acc. induction docs as [|[rel' data'] docs IH]; intros acc Hnd Hin.
  - destruct Hin.
  - simpl in Hnd. inversion Hnd as [|? ? Hni Hnd']; subst.
    destruct Hin as [[= -> ->] | Hin].
    + change (nextManifest entries ((rel, data) :: docs) acc)
        with (nextManifest entries docs
                (Dict.set acc rel (new_entry entries rel data))).
      rewrite nextManifest_get_other by assumption.
      apply dict_get_set_same.
    + change (nextManifest entries ((rel', data') :: docs) acc)
        with (nextManifest entries docs
                (Dict.set acc rel' (new_entry entries rel' data'))).
      now apply IH.
Qed.

Lemma needsSync_new_entry (entries : manifest) (rel : jsstring)
  (data : document) :
  needsSync (Some (new_entry entries rel data)) data = false.
Proof.
  assert (Hfresh :
    needsSync (Some (mkEntry (mtime data) (current_assets data))) data
    = false).
  { unfold needsSync. cbn [e_mtime e_assets negb andb].
    fold (current_assets data).
    rewrite Z.gtb_ltb, Z.ltb_irrefl, Nat.eqb_refl. cbn [negb orb andb].
    rewrite negb_involutive.
    apply not_true_is_false. intros H. apply existsb_exists in H.
    destruct H as [a [Ha Hn]]. apply negb_true_iff in Hn.
    apply set_has_not_In in Hn. contradiction. }
  unfold new_entry. destruct (Dict.get entries rel) as [p|]; [|exact Hfresh].
  destruct (needsSync (Some p) data) eqn:N; [exact Hfresh | exact N].
Qed.


Section EngineProperties.
Context {lib : NodeLib} {src : SourceTree} {dst : DestFS}.

Lemma bind_assoc A B C (m : M A) (f : A -> M B) (g : B -> M C) w :
  bind (bind m f) g w = bind m (fun a => bind (f a) g) w.
Proof. unfold bind. destruct (m w) as [w' [a|e]]; reflexivity. Qed.

Lemma bind_ext A B (m m' : M A) (f f' : A -> M B) :
  (forall w, m w = m' w) -> (forall a w, f a w = f' a w) ->
  forall w, bind m f w = bind m' f' w.
Proof.
  intros Hm Hf w. unfold bind. rewrite Hm.
  destruct (m' w) as [w' [a|e]]; auto.
Qed.

Lemma forEach_app X (l1 l2 : list X) (body : X -> M unit) w :
  forEach (l1 ++ l2) body w
  = bind (forEach l1 body) (fun _ => forEach l2 body) w.
Proof.
  revert w. induction l1 as [|x l1 IH]; intros w; simpl.
  - reflexivity.
  - rewrite bind_assoc. apply bind_ext; auto.
Qed.

Lemma forEach_ext X (l : list X) (f g : X -> M unit) :
  (forall x w, f x w = g x w) -> forall w, forEach l f w = forEach l g w.
Proof.
  intros H. induction l as [|x l IH]; intros w; simpl; [reflexivity|].
  apply bind_ext; auto.
Qed.

Lemma forEach_map X Y (h : X -> Y) (l : list X) (body : Y -> M unit) w :
  forEach (map h l) body w = forEach l (fun x => body (h x)) w.
Proof.
  revert w. induction l as [|x l IH]; intros w; simpl; [reflexivity|].
  apply bind_ext; auto.
Qed.

Lemma forEach_filter X (c : X -> bool) (l : list X) (body : X -> M unit) w :
  forEach (filter c l) body w
  = forEach l (fun x => if c x then body x else ret tt) w.
Proof.
  revert w. induction l as [|x l IH]; intros w; simpl; [reflexivity|].
  destruct (c x); simpl.
  - apply bind_ext; auto.
  - unfold bind at 1, ret at 1. apply IH.
Qed.

Lemma forEach_flat_map X Y (F : X -> list Y) (l : list X)
  (body : Y -> M unit) w :
  forEach (flat_map F l) body w
  = forEach l (fun x => forEach (F x) body) w.
Proof.
  revert w. induction l as [|x l IH]; intros w; simpl; [reflexivity|].
  rewrite forEach_app. apply bind_ext; auto.
Qed.

(** Phase 1 unlinks the paths of [delete_paths], one after the other. *)
Lemma deleteObsolete_plan Q (S : snapshot) (m : manifest) w :
  deleteObsolete Q S m w
  = forEach (delete_paths Q S m) unlink_unless_missing w.
Proof.
  unfold deleteObsolete, delete_paths. rewrite forEach_flat_map.
  apply forEach_ext. intros rel w'. simpl forEach.
  apply bind_ext; [reflexivity|]. intros _ w''.
  rewrite forEach_map, forEach_filter. reflexivity.
Qed.

Lemma call_eq A (o : op) (f : fs_state -> fs_state * result A) w :
  call o f w
  = ((fst (f (fst w)), snd w ++ [(o, outcome (snd (f (fst w))))]),
     snd (f (fst w))).
Proof. unfold call. destruct (f (fst w)). reflexivity. Qed.

Lemma unlink_unless_missing_eq p w :
  unlink_unless_missing p w
  = ((fst (fs_unlink p (fst w)),
      snd w ++ [(Unlink p, outcome (snd (fs_unlink p (fst w))))]),
     match snd (fs_unlink p (fst w)) with
     | Ok _ => Ok tt
     | Err e => if is_ENOENT e then Ok tt else Err e
     end).
Proof.
  unfold unlink_unless_missing, try_catch. rewrite call_eq.
  destruct (snd (fs_unlink p (fst w))) as [[]|e]; [reflexivity|].
  destruct (is_ENOENT e); reflexivity.
Qed.

(** What a sequence of tolerant unlinks leaves in the trace. *)
Lemma forEach_unlink_trace (ps : list jsstring) w w' r :
  forEach ps unlink_unless_missing w = (w', r) ->
  exists evs,
    snd w' = snd w ++ evs /\
    match r with
    | Ok _ => map fst evs = map Unlink ps /\ Forall benign evs
    | Err e =>
        exists evs0 p rest,
          evs = evs0 ++ [(Unlink p, Some e)] /\ Forall benign evs0 /\
          is_ENOENT e = false /\ map Unlink ps = map fst evs ++ rest
    end.
Proof.
  revert w. induction ps as [|p ps IH]; intros w; simpl.
  - intros [= <- <-]. exists []. rewrite app_nil_r. repeat split; constructor.
  - unfold bind. rewrite unlink_unless_missing_eq.
    destruct (snd (fs_unlink p (fst w))) as [[]|e] eqn:U.
    + intros H. apply IH in H. destruct H as [evs [E H]]. simpl in E.
      exists ((Unlink p, None) :: evs). split.
      { rewrite E, <- app_assoc. reflexivity. }
      destruct r as [[]|e].
      * destruct H as [H1 H2]. split; [simpl; now f_equal|].
        constructor; [now left | assumption].
      * destruct H as [evs0 [q [rest [-> [H1 [H2 H3]]]]]].
        exists ((Unlink p, None) :: evs0), q, rest.
        split; [reflexivity|].
        split; [constructor; [now left | assumption]|].
        split; [assumption|]. simpl. now f_equal.
    + destruct (is_ENOENT e) eqn:N.
      * intros H. apply IH in H. destruct H as [evs [E H]]. simpl in E.
        exists ((Unlink p, Some e) :: evs). split.
        { rewrite E, <- app_assoc. reflexivity. }
        destruct r as [[]|e'].
        -- destruct H as [H1 H2]. split; [simpl; now f_equal|].
           constructor; [|assumption].
           right; exists e; split; [reflexivity | exact N].
        -- destruct H as [evs0 [q [rest [-> [H1 [H2 H3]]]]]].
           exists ((Unlink p, Some e) :: evs0), q, rest.
           split; [reflexivity|].
           split; [constructor; [|assumption];
                   right; exists e; split; [reflexivity | exact N]|].
           split; [assumption|]. simpl. now f_equal.
      * intros [= <- <-]. exists [(Unlink p, Some e)]. split; [reflexivity|].
        exists [], p, (map Unlink ps).
        split; [reflexivity|]. split; [constructor|].
        split; [assumption|]. reflexivity.
Qed.

(** Cleaning the directories never rejects, whatever [readdir] and [rmdir]
    answer. *)
Lemma removeEmptyDirs_trace Q (S : snapshot) (m : manifest) w :
  exists w' evs,
    removeEmptyDirs Q S m w = (w', Ok tt) /\
    snd w' = snd w ++ evs /\
    Forall (fun ev => exists rel,
              In rel (toDeleteMd S m) /\
              (fst ev = Readdir (join Q (dirname rel)) \/
               fst ev = Rmdir (join Q (dirname rel)))) evs.
Proof.
  unfold removeEmptyDirs.
  assert (Hin : forall d, In d (set_of (map dirname (toDeleteMd S m))) ->
                 exists rel, In rel (toDeleteMd S m) /\ d = dirname rel).
  { intros d Hd. unfold set_of in Hd.
    apply fold_set_add_In with (f := fun x : jsstring => x) in Hd.
    destruct Hd as [[]|Hd]. rewrite map_id in Hd.
    apply in_map_iff in Hd. destruct Hd as [rel [<- Hrel]]. eauto. }
  revert Hin. generalize (set_of (map dirname (toDeleteMd S m))) as dirs.
  intros dirs. revert w. induction dirs as [|d dirs IH]; intros w Hin.
  - exists w, []. simpl. rewrite app_nil_r. repeat split. constructor.
  - simpl forEach. unfold bind at 1.
    assert (Hd : exists rel, In rel (toDeleteMd S m) /\ d = dirname rel)
      by (apply Hin; now left).
    destruct Hd as [rel [Hrel ->]].
    assert (Hstep : exists w1 evs1,
      (if str_eqb (dirname rel) [] || str_eqb (dirname rel) (lit ".")
       then ret tt
       else try_catch
              (bind (call (Readdir (join Q (dirname rel)))
                          (fs_readdir (join Q (dirname rel))))
                    (fun names =>
                       if Nat.eqb (length names) 0
                       then call (Rmdir (join Q (dirname rel)))
                                 (fs_rmdir (join Q (dirname rel)))
                       else ret tt))
              (fun _ => ret tt)) w = (w1, Ok tt) /\
      snd w1 = snd w ++ evs1 /\
      Forall (fun ev => fst ev = Readdir (join Q (dirname rel)) \/
                        fst ev = Rmdir (join Q (dirname rel))) evs1).
    { destruct (str_eqb (dirname rel) [] || str_eqb (dirname rel) (lit ".")).
      - exists w, []. rewrite app_nil_r. repeat split. constructor.
      - unfold try_catch, bind. rewrite call_eq.
        destruct (snd (fs_readdir (join Q (dirname rel)) (fst w)))
          as [names|e].
        + destruct (Nat.eqb (length names) 0).
          * rewrite call_eq. cbn [fst snd].
            destruct (snd (fs_rmdir (join Q (dirname rel)) _)) as [[]|e'];
              eexists; eexists; (split; [reflexivity|]); cbn [snd];
              rewrite <- app_assoc; (split; [reflexivity|]).
            all: forall_events.
          * eexists; eexists. unfold ret. split; [reflexivity|].
            split; [reflexivity|]. forall_events.
        + eexists; eexists. unfold ret. split; [reflexivity|].
          split; [reflexivity|]. forall_events. }
    destruct Hstep as [w1 [evs1 [-> [E1 F1]]]].
    destruct (IH w1) as [w' [evs [-> [E F]]]].
    { intros d Hd. apply Hin. now right. }
    exists w', (evs1 ++ evs). split; [reflexivity|].
    split; [rewrite E, E1, app_assoc; reflexivity|].
    apply Forall_app. split; [|assumption].
    eapply Forall_impl; [|exact F1]. intros ev Hev. exists rel. auto.
Qed.

Lemma delete_paths_In Q (S : snapshot) (m : manifest) (p : jsstring) :
  In p (delete_paths Q S m)
  <-> (exists rel, In rel (toDeleteMd S m) /\ p = join Q rel) \/
      (exists rel a, In rel (toDeleteMd S m) /\ In a (entry_assets m rel) /\
                     ~ referenced S a /\ p = join Q a).
Proof.
  unfold delete_paths. rewrite in_flat_map. split.
  - intros [rel [Hrel [<- | H]]]; [left; eauto|].
    apply in_map_iff in H. destruct H as [a [<- Ha]].
    apply filter_In in Ha. destruct Ha as [Ha Hu].
    apply unreferenced_iff in Hu. right. exists rel, a. auto.
  - intros [[rel [Hrel ->]] | [rel [a [Hrel [Ha [Hu ->]]]]]];
      exists rel; (split; [assumption|]); [now left | right].
    apply in_map. apply filter_In. split; [assumption|].
    now apply unreferenced_iff.
Qed.

(** The calls of phase 1: unlinks of obsolete documents and of the assets
    their entries list that no document of the snapshot references; all
    of them when the phase completes. *)
Lemma deleteObsolete_trace Q (S : snapshot) (m : manifest) w w' r :
  deleteObsolete Q S m w = (w', r) ->
  exists evs,
    snd w' = snd w ++ evs /\
    (forall ev, In ev evs ->
       (exists rel, In rel (toDeleteMd S m) /\
                    fst ev = Unlink (join Q rel)) \/
       (exists rel a, In rel (toDeleteMd S m) /\
                      In a (entry_assets m rel) /\ ~ referenced S a /\
                      fst ev = Unlink (join Q a))) /\
    (r = Ok tt -> map fst evs = map Unlink (delete_paths Q S m)).
Proof.
  rewrite deleteObsolete_plan. intros H.
  apply forEach_unlink_trace in H. destruct H as [evs [E H]].
  exists evs. split; [assumption|].
  assert (Hpre : exists rest,
            map Unlink (delete_paths Q S m) = map fst evs ++ rest).
  { destruct r as [[]|e].
    - destruct H as [-> _]. exists []. now rewrite app_nil_r.
    - destruct H as [evs0 [p [rest [_ [_ [_ H]]]]]]. eauto. }
  destruct Hpre as [rest Hpre]. split.
  - intros ev Hev.
    assert (Hin : In (fst ev) (map Unlink (delete_paths Q S m))).
    { rewrite Hpre. apply in_or_app. left. now apply in_map. }
    apply in_map_iff in Hin. destruct Hin as [p [Hp Hin]].
    apply delete_paths_In in Hin.
    destruct Hin as [[rel [Hrel ->]] | [rel [a [Hrel [Ha [Hu ->]]]]]];
      [left | right]; eauto 7.
  - intros ->. now destruct H.
Qed.


(** C7, as the code has it.  An [unlink] of phase 1 that fails with
    [ENOENT] counts as done and any other failure of it rejects the run
    with that error, the failed call being the last one made.  While the
    emptied directories are removed, every failure of [readdir] or [rmdir],
    whatever its code, is ignored and the run goes on. *)
Theorem delete_phase_failure_policy Q (S : snapshot) (m : manifest) w :
  (forall p e st',
     fs_unlink p (fst w) = (st', Err e) ->
     snd (unlink_unless_missing p w)
     = if is_ENOENT e then Ok tt else Err e) /\
  (forall w' r,
     deleteObsolete Q S m w = (w', r) ->
     exists evs,
       snd w' = snd w ++ evs /\
       match r with
       | Ok _ => Forall benign evs
       | Err e =>
           exists evs0 p,
             evs = evs0 ++ [(Unlink p, Some e)] /\ Forall benign evs0 /\
             is_ENOENT e = false /\
             reconcile Q S m w = (w', Err e)
       end) /\
  (forall w0, exists w' evs,
     removeEmptyDirs Q S m w0 = (w', Ok tt) /\
     snd w' = snd w0 ++ evs /\
     Forall (fun ev => exists d, fst ev = Readdir d \/ fst ev = Rmdir d)
            evs).
Proof.
  split; [|split].
  - intros p e st' H. rewrite unlink_unless_missing_eq, H. reflexivity.
  - intros w' r H. pose proof H as H0. rewrite deleteObsolete_plan in H.
    apply forEach_unlink_trace in H. destruct H as [evs [E H]].
    exists evs. split; [assumption|]. destruct r as [[]|e].
    + now destruct H.
    + destruct H as [evs0 [p [rest [-> [H1 [H2 _]]]]]].
      exists evs0, p. repeat split; auto.
      unfold reconcile, bind. rewrite H0. reflexivity.
  - intros w0. destruct (removeEmptyDirs_trace Q S m w0)
      as [w' [evs [H [E F]]]].
    exists w', evs. repeat split; auto.
    eapply Forall_impl; [|exact F].
    intros ev [rel [_ [Hev | Hev]]]; eauto.
Qed.

Lemma copyAssets_trace I (l : list asset) (acc : list jsstring) w w' r :
  copyAssets I l acc w = (w', r) ->
  exists evs,
    snd w' = snd w ++ evs /\
    Forall (fun ev => exists x, In x l /\
              fst ev = CopyFile (sourcePath x)
                                (join I (slugifiedBasename x))) evs /\
    (forall paths, r = Ok paths ->
       paths = acc ++ map (fun a => image_path (slugifiedBasename a)) l).
Proof.
  revert acc w. induction l as [|a l IH]; intros acc w; simpl.
  - intros [= <- <-]. exists []. rewrite !app_nil_r.
    repeat split; [constructor|]. now intros paths [= <-].
  - unfold bind. rewrite call_eq.
    destruct (snd (fs_copyFile (sourcePath a)
                     (join I (slugifiedBasename a)) (fst w))) as [[]|e].
    + intros H. apply IH in H. destruct H as [evs [E [F P]]].
      cbn [snd] in E. eexists. split; [rewrite E, <- app_assoc; reflexivity|].
      split.
      * apply Forall_app. split.
        -- forall_events_by ltac:(exists a; split; [now left | reflexivity]).
        -- eapply Forall_impl; [|exact F]. intros ev [x [Hx Hev]].
           exists x. split; [now right | assumption].
      * intros paths Hp. rewrite (P paths Hp), <- app_assoc. reflexivity.
    + intros [= <- <-]. eexists. split; [reflexivity|]. split.
      * forall_events_by ltac:(exists a; split; [now left | reflexivity]).
      * discriminate.
Qed.

Lemma sync_event_cons Q I entries kv docs ev :
  sync_event Q I entries docs ev -> sync_event Q I entries (kv :: docs) ev.
Proof.
  intros [rel [data [H1 H2]]]. exists rel, data. split; [now right | exact H2].
Qed.

Lemma addOrUpdate_trace Q I (entries : manifest)
  (docs : list (jsstring * document)) (acc : manifest) w w' r :
  addOrUpdate Q I entries docs acc w = (w', r) ->
  exists evs,
    snd w' = snd w ++ evs /\
    Forall (sync_event Q I entries docs) evs /\
    (forall m', r = Ok m' -> m' = nextManifest entries docs acc).
Proof.
  revert acc w. induction docs as [|[rel data] docs IH]; intros acc w.
  - simpl. intros [= <- <-]. exists []. rewrite app_nil_r.
    repeat split; [constructor|]. now intros m' [= <-].
  - cbn [addOrUpdate nextManifest fold_left fst snd].
    assert (Hslow : synced entries rel data = false ->
      bind (call (Mkdir (dirname (join Q rel)))
                 (fs_mkdir (dirname (join Q rel))))
        (fun _ =>
           bind (copyAssets I (assets data) [])
             (fun paths =>
                bind (call (WriteFile (join Q rel)
                        (convertContentForQuartz (content data)
                                                 (assets data)))
                       (fs_writeFile (join Q rel)
                          (convertContentForQuartz (content data)
                                                   (assets data))))
                  (fun _ =>
                     addOrUpdate Q I entries docs
                       (Dict.set acc rel (mkEntry (mtime data) paths)))))
        w = (w', r) ->
      new_entry entries rel data = mkEntry (mtime data) (current_assets data) ->
      exists evs,
        snd w' = snd w ++ evs /\
        Forall (sync_event Q I entries ((rel, data) :: docs)) evs /\
        (forall m', r = Ok m' ->
           m' = fold_left
                  (fun acc kv =>
                     Dict.set acc (fst kv)
                       (new_entry entries (fst kv) (snd kv)))
                  docs (Dict.set acc rel (new_entry entries rel data)))).
    { intros Hs H Hnew.
      assert (Hev : forall ev,
        (fst ev = Mkdir (dirname (join Q rel)) \/
         (exists x, In x (assets data) /\
                    fst ev = CopyFile (sourcePath x)
                                      (join I (slugifiedBasename x))) \/
         fst ev = WriteFile (join Q rel)
                    (convertContentForQuartz (content data) (assets data))) ->
        sync_event Q I entries ((rel, data) :: docs) ev).
      { intros ev Hev. exists rel, data. split; [now left|]. auto. }
      unfold bind at 1 in H. rewrite call_eq in H.
      destruct (snd (fs_mkdir (dirname (join Q rel)) (fst w))) as [[]|e].
      2:{ injection H as <- <-. eexists. split; [reflexivity|].
          split; [|discriminate]. forall_events. }
      unfold bind at 1 in H.
      match type of H with
      | context [copyAssets I (assets data) [] ?w1] =>
          destruct (copyAssets I (assets data) [] w1)
            as [w2 [paths|e]] eqn:C
      end; apply copyAssets_trace in C; destruct C as [evs2 [E2 [F2 P2]]];
        cbn [snd] in E2.
      2:{ injection H as <- <-. eexists.
          split; [rewrite E2, <- app_assoc; reflexivity|].
          split; [|discriminate].
          apply Forall_app. split; [forall_events|].
          eapply Forall_impl; [|exact F2]. intros ev Hx. apply Hev. auto. }
      rewrite (P2 paths eq_refl) in H. cbn [app] in H.
      unfold bind at 1 in H. rewrite call_eq in H.
      match type of H with
      | context [snd (fs_writeFile ?p ?c ?st)] =>
          destruct (snd (fs_writeFile p c st)) as [[]|e]
      end.
      2:{ injection H as <- <-. eexists.
          split; [cbn [snd]; rewrite E2, <- !app_assoc; reflexivity|].
          split; [|discriminate].
          apply Forall_app. split; [forall_events|].
          apply Forall_app. split; [|forall_events].
          eapply Forall_impl; [|exact F2]. intros ev Hx. apply Hev. auto. }
      apply IH in H. destruct H as [evs3 [E3 [F3 P3]]]. cbn [snd] in E3.
      eexists. split; [rewrite E3, E2, <- !app_assoc; reflexivity|]. split.
      - apply Forall_app. split; [forall_events|].
        apply Forall_app. split.
        + eapply Forall_impl; [|exact F2]. intros ev Hx. apply Hev. auto.
        + apply Forall_app. split; [forall_events|].
          eapply Forall_impl; [|exact F3]. apply sync_event_cons.
      - intros m' Hm. rewrite Hnew. now apply P3. }
    unfold synced, new_entry in Hslow. unfold new_entry at 2.
    destruct (Dict.get entries rel) as [p|] eqn:G.
    + destruct (needsSync (Some p) data) eqn:N.
      * intros H. now apply Hslow.
      * intros H. apply IH in H. destruct H as [evs [E [F P]]].
        exists evs. split; [assumption|]. split; [|assumption].
        eapply Forall_impl; [|exact F]. apply sync_event_cons.
    + intros H. now apply Hslow.
Qed.

Lemma reconcile_trace Q (S : snapshot) (m : manifest) w w' r :
  reconcile Q S m w = (w', r) ->
  exists evs,
    snd w' = snd w ++ evs /\
    Forall (reconcile_event Q S m) evs /\
    (forall m', r = Ok m' -> m' = nextManifest m S []).
Proof.
  unfold reconcile. unfold bind at 1.
  destruct (deleteObsolete Q S m w) as [w1 [[]|e]] eqn:D;
    apply deleteObsolete_trace in D; destruct D as [evs1 [E1 [F1 _]]].
  2:{ intros [= <- <-]. exists evs1. split; [assumption|].
      split; [|discriminate]. apply Forall_forall. intros ev Hev.
      destruct (F1 ev Hev) as [H | H]; [left | right; left]; exact H. }
  assert (G1 : Forall (reconcile_event Q S m) evs1).
  { apply Forall_forall. intros ev Hev.
    destruct (F1 ev Hev) as [H | H]; [left | right; left]; exact H. }
  unfold bind at 1.
  destruct (removeEmptyDirs_trace Q S m w1) as [w2 [evs2 [-> [E2 F2]]]].
  assert (G2 : Forall (reconcile_event Q S m) evs2).
  { eapply Forall_impl; [|exact F2]. intros ev H. right; right; left.
    exact H. }
  unfold bind at 1. rewrite call_eq.
  destruct (snd (fs_mkdir (join Q IMAGE) (fst w2))) as [[]|e].
  2:{ intros [= <- <-]. eexists.
      split; [cbn [snd]; rewrite E2, E1, <- !app_assoc; reflexivity|].
      split; [|discriminate].
      repeat (apply Forall_app; split; [assumption|]).
      forall_events_by ltac:(right; right; right; left; reflexivity). }
  unfold bind at 1.
  match goal with
  | |- context [addOrUpdate Q (join Q IMAGE) m S [] ?w3] =>
      destruct (addOrUpdate Q (join Q IMAGE) m S [] w3)
        as [w4 [m4|e]] eqn:A
  end; apply addOrUpdate_trace in A; destruct A as [evs4 [E4 [F4 P4]]];
    cbn [snd] in E4.
  assert (G4 : Forall (reconcile_event Q S m) evs4).
  { eapply Forall_impl; [|exact F4]. intros ev H.
    right; right; right; right; left. exact H. }
  2:{ intros [= <- <-]. eexists.
      split; [rewrite E4, E2, E1, <- !app_assoc; reflexivity|].
      split; [|discriminate].
      repeat (apply Forall_app; split; [assumption|]).
      apply Forall_app. split.
      - forall_events_by ltac:(right; right; right; left; reflexivity).
      - eapply Forall_impl; [|exact F4]. intros ev H.
        right; right; right; right; left. exact H. }
  rewrite (P4 m4 eq_refl). unfold bind at 1, writeManifest.
  rewrite call_eq.
  match goal with
  | |- context [snd (fs_writeManifest ?x ?st)] =>
      destruct (snd (fs_writeManifest x st)) as [[]|e]
  end.
  - unfold ret. intros [= <- <-]. eexists.
    split; [cbn [snd]; rewrite E4, E2, E1, <- !app_assoc; reflexivity|].
    split; [|now intros m' [= <-]].
    repeat (apply Forall_app; split; [assumption|]).
    apply Forall_app. split.
    + forall_events_by ltac:(right; right; right; left; reflexivity).
    + apply Forall_app. split; [assumption|].
      forall_events_by ltac:(right; right; right; right; right; reflexivity).
  - intros [= <- <-]. eexists.
    split; [cbn [snd]; rewrite E4, E2, E1, <- !app_assoc; reflexivity|].
    split; [|discriminate].
    repeat (apply Forall_app; split; [assumption|]).
    apply Forall_app. split.
    + forall_events_by ltac:(right; right; right; left; reflexivity).
    + apply Forall_app. split; [assumption|].
      forall_events_by ltac:(right; right; right; right; right; reflexivity).
Qed.

Lemma dict_set_NoDup V (d : Dict.t V) (k : jsstring) (v : V) :
  NoDup (Dict.keys d) -> NoDup (Dict.keys (Dict.set d k v)).
Proof.
  induction d as [|[k0 v0] d IH]; simpl; intros H.
  - repeat constructor. intros [].
  - inversion H as [|? ? Hni Hnd]; subst.
    destruct (str_eqb k0 k) eqn:E; simpl.
    + constructor; assumption.
    + constructor; [|now apply IH].
      intros Hin. apply dict_keys_set in Hin. apply str_eqb_neq in E.
      destruct Hin as [-> | Hin]; [congruence | contradiction].
Qed.

Lemma collectPublishable_NoDup O (candidates : list (jsstring * jsstring))
  (acc S : snapshot) :
  collectPublishable O candidates acc = Ok S ->
  NoDup (Dict.keys acc) -> NoDup (Dict.keys S).
Proof.
  revert acc. induction candidates as [|[full rel] rest IH]; intros acc.
  - simpl. now intros [= <-].
  - simpl. destruct (src_readFile full) as [c|e]; [|discriminate].
    destruct (negb (hasPublishableFrontmatter c)); [apply IH|].
    destruct (src_stat_mtimeMs full) as [mt|e]; [|discriminate].
    intros H Hnd. apply (IH _ H). now apply dict_set_NoDup.
Qed.

Lemma getPublishableSet_NoDup O (S : snapshot) :
  getPublishableSet O = Ok S -> NoDup (Dict.keys S).
Proof.
  unfold getPublishableSet.
  destruct (src_listMdFiles O) as [candidates|e]; [|discriminate].
  intros H. apply (collectPublishable_NoDup _ _ _ H). constructor.
Qed.

Lemma dict_set_In V (d : Dict.t V) (k k' : jsstring) (v v' : V) :
  In (k', v') (Dict.set d k v) -> (k', v') = (k, v) \/ In (k', v') d.
Proof.
  induction d as [|[k0 v0] d IH]; simpl.
  - intros [H | []]. now left.
  - destruct (str_eqb k0 k) eqn:E; simpl.
    + apply str_eqb_eq in E. subst k0.
      intros [H | H]; [left; congruence | right; now right].
    + intros [H | H]; [right; now left|].
      destruct (IH H) as [H' | H']; [now left | right; now right].
Qed.

(** The assets of a document of the snapshot are what the resolver found
    for the references of its text. *)
Lemma getPublishableSet_assets O (S : snapshot) rel data :
  getPublishableSet O = Ok S -> In (rel, data) S ->
  assets data
  = resolveAssets O (dirname rel) (extractAssetRefs (content data)).
Proof.
  unfold getPublishableSet.
  destruct (src_listMdFiles O) as [candidates|e]; [|discriminate].
  assert (G : forall acc,
    (forall rel data, In (rel, data) acc ->
       assets data
       = resolveAssets O (dirname rel) (extractAssetRefs (content data))) ->
    collectPublishable O candidates acc = Ok S ->
    In (rel, data) S ->
    assets data
    = resolveAssets O (dirname rel) (extractAssetRefs (content data))).
  { induction candidates as [|[full rel'] rest IH]; intros acc Hacc.
    - simpl. intros [= <-]. apply Hacc.
    - simpl. destruct (src_readFile full) as [c|e]; [|discriminate].
      destruct (negb (hasPublishableFrontmatter c)); [now apply IH|].
      destruct (src_stat_mtimeMs full) as [mt|e]; [|discriminate].
      apply IH. intros rel0 data0 Hin. apply dict_set_In in Hin.
      destruct Hin as [[= -> ->] | Hin]; [reflexivity | now apply Hacc]. }
  apply G. intros rel0 data0 [].
Qed.

Lemma entry_assets_recorded Q (m : manifest) (rel a : jsstring) :
  In a (entry_assets m rel) -> recorded Q m (join Q a).
Proof.
  unfold entry_assets. destruct (Dict.get m rel) as [e|] eqn:G; [|intros []].
  intros Ha. right. exists rel, e, a. split; [now apply dict_get_In|]. auto.
Qed.

Lemma reconcile_event_target Q (S : snapshot) (m : manifest) ev p :
  NoDup (Dict.keys S) ->
  reconcile_event Q S m ev -> file_target (fst ev) = Some p ->
  recorded Q m p \/
  (wanted Q S p /\ recorded Q (nextManifest m S []) p).
Proof.
  intros Hnd Hev Hp.
  destruct Hev as [[rel [Hrel E]] | [[rel [a [Hrel [Ha [_ E]]]]] |
                  [[rel [_ [E | E]]] | [E | [Hs | E]]]]];
    try (rewrite E in Hp; discriminate).
  - rewrite E in Hp. injection Hp as <-. left. left. exists rel.
    apply toDeleteMd_In in Hrel. tauto.
  - rewrite E in Hp. injection Hp as <-. left.
    now apply entry_assets_recorded with (rel := rel).
  - destruct Hs as [rel [data [Hin [Hsy [E | [[x [Hx E]] | E]]]]]];
      rewrite E in Hp; [discriminate| |]; injection Hp as <-; right.
    + split.
      * right. exists rel, data, x. auto.
      * right. exists rel, (new_entry m rel data),
          (image_path (slugifiedBasename x)).
        split; [apply dict_get_In; now apply nextManifest_get|].
        split; [|right; eauto].
        unfold new_entry. unfold synced in Hsy.
        destruct (Dict.get m rel) as [p0|].
        -- apply negb_false_iff in Hsy. rewrite Hsy.
           cbn [e_assets]. unfold current_assets.
           now apply (in_map (fun a => image_path (slugifiedBasename a))).
        -- cbn [e_assets]. unfold current_assets.
           now apply (in_map (fun a => image_path (slugifiedBasename a))).
    + assert (Hk : In rel (Dict.keys S)).
      { unfold Dict.keys. now apply (in_map fst) in Hin. }
      split; left; exists rel; (split; [|reflexivity]); [assumption|].
      apply nextManifest_keys. now right.
Qed.

Lemma run_eq O Q w :
  run O Q w
  = match getPublishableSet O with
    | Err e => (w, Err e)
    | Ok publishable =>
        reconcile Q publishable (fs_readManifest (fst w)) w
    end.
Proof. unfold run. destruct (getPublishableSet O); reflexivity. Qed.

Lemma first_slug_match_In (imageDir wantSlug : jsstring)
  (files : list jsstring) (p : jsstring) :
  first_slug_match imageDir wantSlug files = Some p ->
  exists f, In f files /\ p = join imageDir f.
Proof.
  induction files as [|f files IH]; simpl; [discriminate|].
  destruct (str_eqb (toLowerCase (slugifyBasename f)) wantSlug).
  - intros [= <-]. exists f. auto.
  - intros H. destruct (IH H) as [g [Hg ->]]. exists g. auto.
Qed.

(** What [findAssetFile] answers is a candidate path that [fs.access]
    accepts, or the place of an entry of the image directory. *)
Lemma findAssetFile_found O mdDir r p :
  findAssetFile O mdDir r = Some p ->
  (In p (candidates_of O mdDir r) /\ src_access p = true) \/
  (exists files f,
     src_readdir (join O IMAGE) = Ok files /\ In f files /\
     p = join (join O IMAGE) f).
Proof.
  unfold findAssetFile, candidates_of. cbn [first_accessible In].
  destruct (src_access (join (join O IMAGE) (Path.basename r))) eqn:A1.
  { intros [= <-]. left. auto. }
  destruct (src_access (join (join O mdDir) r)) eqn:A2.
  { intros [= <-]. left. auto. }
  destruct (src_access
              (join (join O IMAGE) (slugifyBasename (Path.basename r))))
    eqn:A3.
  { intros [= <-]. left. auto. }
  destruct (src_readdir (join O IMAGE)) as [files|e]; [|discriminate].
  intros H. apply first_slug_match_In in H. destruct H as [f [Hf ->]].
  right. exists files, f. auto.
Qed.

(** C3, as the code has it.  Every file a run removes, copies onto or
    writes is at the place of a path recorded in the manifest it loaded or,
    when it completes, in the manifest it has written; when it is cut
    short, it can also be the place of a document of the snapshot or of
    one of its resolved assets, which then no manifest records.  The only
    other calls on the destination list or remove the directories of
    documents the loaded manifest recorded, create directories, and write
    the manifest.  What a copy reads is the file [findAssetFile] found for
    a reference of a publishable document: a candidate path that
    [fs.access] accepted or an entry of the image directory of the source,
    wherever that path leads.  So a file whose path the loaded manifest
    does not record and that is no document or asset of the snapshot is
    neither removed nor written.  Beside these calls the run depends on
    the file system through what [same_reads] names and through nothing
    else: the documents under the source root, their texts and times, the
    listing of the image directory of the source, and the answer of
    [fs.access] on the candidate paths of the references. *)
Theorem run_no_clobber O Q w w' r :
  run O Q w = (w', r) ->
  exists evs,
    snd w' = snd w ++ evs /\
    (forall ev p,
       In ev evs -> file_target (fst ev) = Some p ->
       recorded Q (fs_readManifest (fst w)) p \/
       match r with
       | Ok m' => recorded Q m' p
       | Err _ => exists S, getPublishableSet O = Ok S /\ wanted Q S p
       end) /\
    (forall ev d,
       In ev evs -> fst ev = Readdir d \/ fst ev = Rmdir d ->
       exists rel, In rel (Dict.keys (fs_readManifest (fst w))) /\
                   d = join Q (dirname rel)) /\
    (forall ev from to,
       In ev evs -> fst ev = CopyFile from to ->
       exists S rel data x,
         getPublishableSet O = Ok S /\ In (rel, data) S /\
         In x (assets data) /\
         In (ref x) (extractAssetRefs (content data)) /\
         from = sourcePath x /\
         findAssetFile O (dirname rel) (ref x) = Some from /\
         ((In from (candidates_of O (dirname rel) (ref x)) /\
           src_access from = true) \/
          (exists files f,
             src_readdir (join O IMAGE) = Ok files /\ In f files /\
             from = join (join O IMAGE) f))) /\
    (forall p,
       ~ recorded Q (fs_readManifest (fst w)) p ->
       (forall S, getPublishableSet O = Ok S -> ~ wanted Q S p) ->
       forall ev, In ev evs -> file_target (fst ev) <> Some p) /\
    (forall other : SourceTree,
       same_reads src other O ->
       @run lib other dst O Q w = (w', r)).
Proof.
  intros H0.
  assert (R : forall other : SourceTree,
            same_reads src other O ->
            @run lib other dst O Q w = (w', r)).
  { intros other Hs. unfold run.
    rewrite (same_reads_same_snapshot Hs). exact H0. }
  revert H0.
  rewrite run_eq. destruct (getPublishableSet O) as [S|e] eqn:G.
  2:{ intros [= <- <-]. exists []. rewrite app_nil_r.
      repeat split; intros; try contradiction. now apply R. }
  set (m := fs_readManifest (fst w)). intros H.
  pose proof (getPublishableSet_NoDup _ G) as Hnd.
  apply reconcile_trace in H. destruct H as [evs [E [F P]]].
  rewrite Forall_forall in F.
  exists evs. split; [assumption|].
  assert (T : forall ev p, In ev evs -> file_target (fst ev) = Some p ->
            recorded Q m p \/
            (wanted Q S p /\ recorded Q (nextManifest m S []) p)).
  { intros ev p Hev Hp. apply (reconcile_event_target Hnd (F ev Hev) Hp). }
  split; [|split; [|split; [|split; [|exact R]]]].
  - intros ev p Hev Hp. destruct (T ev p Hev Hp) as [H | [H1 H2]]; [now left|].
    right. destruct r as [m'|e].
    + now rewrite (P m' eq_refl).
    + exists S. auto.
  - intros ev d Hev Hd. pose proof (F ev Hev) as Fe.
    destruct Fe as [[rel [Hrel Ee]] | [[rel [a [Hrel [Ha [_ Ee]]]]] |
                   [[rel [Hrel Ee]] | [Ee | [Hs | Ee]]]]].
    + destruct Hd as [Hd | Hd]; rewrite Ee in Hd; discriminate.
    + destruct Hd as [Hd | Hd]; rewrite Ee in Hd; discriminate.
    + exists rel. split; [apply toDeleteMd_In in Hrel; tauto|].
      destruct Ee as [Ee | Ee], Hd as [Hd | Hd]; rewrite Ee in Hd;
        congruence.
    + destruct Hd as [Hd | Hd]; rewrite Ee in Hd; discriminate.
    + destruct Hs as [rel [data [_ [_ [Ee | [[x [_ Ee]] | Ee]]]]]];
        destruct Hd as [Hd | Hd]; rewrite Ee in Hd; discriminate.
    + destruct Hd as [Hd | Hd]; rewrite Ee in Hd; discriminate.
  - intros ev from to Hev Hc. pose proof (F ev Hev) as Fe.
    destruct Fe as [[rel [Hrel Ee]] | [[rel [a [Hrel [Ha [_ Ee]]]]] |
                   [[rel [Hrel [Ee | Ee]]] | [Ee | [Hs | Ee]]]]];
      try (rewrite Ee in Hc; discriminate).
    destruct Hs as [rel [data [Hin [_ [Ee | [[x [Hx Ee]] | Ee]]]]]];
      try (rewrite Ee in Hc; discriminate).
    rewrite Ee in Hc. injection Hc as <- _.
    exists S, rel, data, x.
    pose proof (@getPublishableSet_assets O S rel data G Hin) as Ha.
    pose proof Hx as Hx'. rewrite Ha in Hx'.
    apply resolveAssets_In in Hx'. destruct Hx' as [Hr [Hf _]].
    repeat split; auto.
    now apply findAssetFile_found.
  - intros p Hr Hw ev Hev Hp.
    destruct (T ev p Hev Hp) as [H | [H _]]; [contradiction|].
    now apply (Hw S).
Qed.

Lemma nextManifest_ext (e1 e2 : manifest)
  (docs : list (jsstring * document)) (acc : manifest) :
  (forall rel data, In (rel, data) docs ->
                    new_entry e1 rel data = new_entry e2 rel data) ->
  nextManifest e1 docs acc = nextManifest e2 docs acc.
Proof.
  unfold nextManifest. revert acc.
  induction docs as [|[rel data] docs IH]; intros acc H; simpl.
  - reflexivity.
  - rewrite (H rel data) by now left. apply IH.
    intros rel' data' Hin. apply H. now right.
Qed.

Lemma synced_after (m : manifest) (S : snapshot) rel data :
  NoDup (Dict.keys S) -> In (rel, data) S ->
  synced (nextManifest m S []) rel data = true /\
  new_entry (nextManifest m S []) rel data = new_entry m rel data.
Proof.
  intros Hnd Hin. unfold synced. unfold new_entry at 1.
  rewrite (@nextManifest_get m S [] rel data Hnd Hin).
  rewrite needsSync_new_entry. auto.
Qed.

Lemma toDeleteMd_after (m : manifest) (S : snapshot) :
  toDeleteMd S (nextManifest m S []) = [].
Proof.
  unfold toDeleteMd.
  assert (H : forall x, In x (Dict.keys (nextManifest m S [])) ->
                        negb (Dict.has S x) = false).
  { intros x Hx. apply nextManifest_keys in Hx. destruct Hx as [[] | Hx].
    apply dict_has_In in Hx. now rewrite Hx. }
  revert H. generalize (Dict.keys (nextManifest m S [])) as l.
  induction l as [|x l IH]; intros H; simpl; [reflexivity|].
  rewrite (H x) by now left. apply IH. intros y Hy. apply H. now right.
Qed.

Lemma addOrUpdate_synced Q I (entries : manifest)
  (docs : list (jsstring * document)) (acc : manifest) w :
  (forall rel data, In (rel, data) docs -> synced entries rel data = true) ->
  addOrUpdate Q I entries docs acc w
  = (w, Ok (nextManifest entries docs acc)).
Proof.
  revert acc. induction docs as [|[rel data] docs IH]; intros acc H.
  - reflexivity.
  - cbn [addOrUpdate nextManifest fold_left fst snd].
    pose proof (H rel data (or_introl eq_refl)) as Hs.
    unfold synced in Hs. unfold new_entry.
    destruct (Dict.get entries rel) as [p|]; [|discriminate].
    apply negb_true_iff in Hs. rewrite Hs.
    apply IH. intros rel' data' Hin. apply H. now right.
Qed.

(** After a run that completed, phase 1 and phase 2 of the next run on the
    same snapshot make no call: what remains is the creation of the image
    directory and the writing of the same manifest. *)
Lemma reconcile_idle Q (S : snapshot) (m : manifest) w :
  NoDup (Dict.keys S) ->
  reconcile Q S (nextManifest m S []) w
  = bind (call (Mkdir (join Q IMAGE)) (fs_mkdir (join Q IMAGE)))
      (fun _ =>
         bind (writeManifest (nextManifest m S []))
           (fun _ => ret (nextManifest m S []))) w.
Proof.
  intros Hnd. unfold reconcile, deleteObsolete, removeEmptyDirs.
  rewrite toDeleteMd_after. cbn [forEach map set_of fold_left].
  unfold bind at 1, ret at 1. unfold bind at 1, ret at 1.
  apply bind_ext; [reflexivity|]. intros _ w1.
  unfold bind at 1. rewrite addOrUpdate_synced.
  - rewrite (@nextManifest_ext (nextManifest m S []) m); [reflexivity|].
    intros rel data Hin. now apply synced_after.
  - intros rel data Hin. now apply synced_after.
Qed.

End EngineProperties.

(* ------------------------------------------------------------------ *)
(** ** Two runs in a row *)

Section TwoRuns.
Context {lib : NodeLib}.

Context {dst : DestFS}.

(** C1, as the code has it.  A second run right after a run that
    completed, with the manifest that run stored, removes, copies and
    writes no file -- its only calls are the creation of the image
    directory and the writing of the manifest, with the entries of the
    first run, and if these two calls succeed it completes with that
    manifest -- provided the file system shows to the second run what it
    showed to the first ([same_reads]): not only the documents, their
    texts and times and the image directory of the source, but also the
    accessibility of every candidate path of every reference, which the
    first run can have changed where a reference leads into the
    destination. *)
Theorem second_run_is_idle (first second : SourceTree) O Q w w1 m1 :
  @run lib first dst O Q w = (w1, Ok m1) ->
  fs_readManifest (fst w1) = m1 ->
  same_reads first second O ->
  forall w2 r,
    @run lib second dst O Q w1 = (w2, r) ->
    (exists evs,
       snd w2 = snd w1 ++ evs /\
       Forall (fun ev => fst ev = Mkdir (join Q IMAGE) \/
                         fst ev = WriteManifest m1) evs) /\
    (forall m2, r = Ok m2 -> m2 = m1) /\
    (forall st2 st3,
       fs_mkdir (join Q IMAGE) (fst w1) = (st2, Ok tt) ->
       fs_writeManifest m1 st2 = (st3, Ok tt) ->
       w2 = (st3, snd w1 ++ [(Mkdir (join Q IMAGE), None);
                             (WriteManifest m1, None)]) /\
       r = Ok m1).
Proof.
  intros H1 Hm Hsame w2 r.
  rewrite (@run_eq lib second dst), (same_reads_same_snapshot Hsame).
  rewrite (@run_eq lib first dst) in H1.
  destruct (@getPublishableSet lib first O) as [S|e] eqn:G;
    [|discriminate].
  set (m := fs_readManifest (fst w)) in *.
  rewrite Hm.
  pose proof (@getPublishableSet_NoDup lib first _ _ G) as Hnd.
  apply reconcile_trace in H1. destruct H1 as [_ [_ [_ P]]].
  rewrite (P m1 eq_refl). clear P Hm.
  rewrite (@reconcile_idle lib dst Q S m w1 Hnd).
  set (m' := nextManifest m S []) in *.
  unfold bind at 1. rewrite call_eq.
  destruct (fs_mkdir (join Q IMAGE) (fst w1)) as [st2 [[]|e]];
    cbn [fst snd].
  2:{ intros [= <- <-]. split; [|split].
      - eexists. split; [reflexivity|]. forall_events.
      - discriminate.
      - intros st2' st3 Hmk. discriminate Hmk. }
  unfold bind at 1, writeManifest. rewrite call_eq. cbn [fst snd].
  destruct (fs_writeManifest m' st2) as [st3 [[]|e]] eqn:W;
    cbn [fst snd outcome].
  - unfold ret. intros [= <- <-]. split; [|split].
    + eexists. split; [rewrite <- app_assoc; reflexivity|]. forall_events.
    + now intros m2 [= <-].
    + intros st2' st3' [= <-] Hwr. rewrite W in Hwr. injection Hwr as <-.
      rewrite <- app_assoc. auto.
  - intros [= <- <-]. split; [|split].
    + eexists. split; [rewrite <- app_assoc; reflexivity|]. forall_events.
    + discriminate.
    + intros st2' st3' [= <-] Hwr. rewrite W in Hwr. discriminate Hwr.
Qed.

End TwoRuns.

(* ------------------------------------------------------------------ *)
(** ** The shape of a normalised name *)

(** X16. The normalised name is a stem followed by the extension of the
    name as it was; the stem holds none of the code units the normaliser
    rewrites (white space, [&], [%], [?], [#]); for a name with an
    extension the stem is the part before the extension with each code
    unit transformed on its own. *)
Theorem slugifyBasename_stem (name : jsstring) :
  exists stem,
    slugifyBasename name = stem ++ Path.extname name /\
    Forall (fun c => special c = false) stem /\
    (Path.extname name <> [] ->
     forall base, name = base ++ Path.extname name ->
                  stem = flat_map slug_char base).
Proof.
  exists (slug_replace
            (slice name 0 (- Z.of_nat (length (Path.extname name))))).
  split; [reflexivity|]. split.
  - rewrite slug_replace_flat_map. apply Forall_flat_map.
    apply Forall_forall. intros c _. apply slug_char_plain.
  - intros Hne base E. rewrite slug_replace_flat_map. f_equal.
    rewrite slice_0_neg by (destruct (Path.extname name);
                            [contradiction | simpl; lia]).
    remember (Path.extname name) as ext eqn:Hext. clear Hext. subst name.
    rewrite length_app, Nat.add_sub, firstn_app, Nat.sub_diag, firstn_all.
    cbn [firstn]. apply app_nil_r.
Qed.

(** The extension is kept as it is, also where it holds such a code unit. *)
Example slugify_extension_kept :
  slugifyBasename (lit "a b.p g") = lit "a-b.p g".
Proof. reflexivity. Qed.

(* ------------------------------------------------------------------ *)
(** ** Sets without repetition *)

Lemma set_add_NoDup (x : jsstring) (s : list jsstring) :
  NoDup s -> NoDup (set_add x s).
Proof.
  intros H. unfold set_add.
  destruct (existsb (str_eqb x) s) eqn:E; [assumption|].
  apply NoDup_app; [assumption | repeat constructor; intros [] | ].
  intros y Hy [Hx|[]]. subst y.
  assert (set_has s x = true) by (apply set_has_In; assumption).
  unfold set_has in *. congruence.
Qed.

Lemma fold_set_add_NoDup X (f : X -> jsstring) (l : list X)
  (acc : list jsstring) :
  NoDup acc -> NoDup (fold_left (fun s x => set_add (f x) s) l acc).
Proof.
  revert acc. induction l as [|x l IH]; intros acc H; simpl; [assumption|].
  apply IH. now apply set_add_NoDup.
Qed.

Lemma set_of_NoDup (l : list jsstring) : NoDup (set_of l).
Proof. unfold set_of. apply fold_set_add_NoDup. constructor. Qed.

Lemma set_of_In (l : list jsstring) (x : jsstring) :
  In x (set_of l) <-> In x l.
Proof.
  unfold set_of.
  rewrite (fold_set_add_In (fun y => y) l [] x), map_id. simpl. tauto.
Qed.

(** *** References are listed once *)

Lemma add_md_refs_NoDup (content : jsstring) (refs : list jsstring) :
  NoDup refs -> NoDup (add_md_refs content refs).
Proof.
  unfold add_md_refs. generalize (captures MD_IMAGE_REGEX content) as l.
  intros l. revert refs.
  induction l as [|m1 l IH]; intros refs H; cbn [fold_left]; [exact H|].
  apply IH. destruct (negb (startsWith (lit "http") (trim m1)));
    [now apply set_add_NoDup | exact H].
Qed.

Lemma extractAssetRefs_NoDup (content : jsstring) :
  NoDup (extractAssetRefs content).
Proof.
  unfold extractAssetRefs. apply add_md_refs_NoDup.
  unfold add_wiki_refs. apply fold_set_add_NoDup. constructor.
Qed.

Section ReferenceProperties.
Context {lib : NodeLib} {src : SourceTree}.

Lemma resolveAssets_refs_NoDup O mdDir (refs : list jsstring) :
  NoDup refs -> NoDup (map ref (resolveAssets O mdDir refs)).
Proof.
  induction refs as [|r refs IH]; intros H; simpl; [constructor|].
  inversion H as [|? ? Hn Hr]; subst.
  destruct (findAssetFile O mdDir r) as [p|]; [|now apply IH].
  cbn [map ref]. constructor; [|now apply IH].
  intros Hin. apply in_map_iff in Hin. destruct Hin as [a [Ha Hin]].
  apply resolveAssets_In in Hin. destruct Hin as [Hin _].
  apply Hn. rewrite <- Ha. exact Hin.
Qed.

(** X5. [extractAssetRefs] lists a reference once, however often and in
    whichever of the two syntaxes the text names it; the assets resolved
    from the list have distinct references, each one a listed reference
    that [findAssetFile] found. *)
Theorem references_are_listed_once (content : jsstring) :
  NoDup (extractAssetRefs content) /\
  (forall O mdDir,
     NoDup (map ref (resolveAssets O mdDir (extractAssetRefs content)))) /\
  (forall O mdDir a,
     In a (resolveAssets O mdDir (extractAssetRefs content)) ->
     In (ref a) (extractAssetRefs content) /\
     findAssetFile O mdDir (ref a) = Some (sourcePath a)).
Proof.
  split; [apply extractAssetRefs_NoDup|]. split.
  - intros O mdDir. apply resolveAssets_refs_NoDup, extractAssetRefs_NoDup.
  - intros O mdDir a Ha. apply resolveAssets_In in Ha.
    destruct Ha as [H1 [H2 _]]. auto.
Qed.

End ReferenceProperties.

(* ------------------------------------------------------------------ *)
(** ** Traversal of the source tree *)

Section TraversalProperties.
Context {lib : NodeLib} {rel_lib : NodeRelative}.

Lemma listEntries_In recur dir base entries acc out :
  listEntries recur dir base entries acc = Ok out ->
  forall x,
    In x out
    <-> In x acc \/
        exists name e, In (name, e) entries /\
                       entry_lists recur dir base name e x.
Proof.
  revert acc. induction entries as [|[name e] rest IH]; intros acc; simpl.
  - intros [= <-] x. split; [now left|]. intros [H | [n [e [[] _]]]]. exact H.
  - destruct (descends name e) eqn:D.
    + destruct (recur (join dir name) e) as [sub|err] eqn:R; [|discriminate].
      intros H x. rewrite (IH _ H x), in_app_iff. split.
      * intros [[Ha | Hs] | [n [e' [Hin He]]]].
        -- now left.
        -- right. exists name, e. split; [now left|]. left. eauto.
        -- right. exists n, e'. split; [now right | exact He].
      * intros [Ha | [n [e' [[[= <- <-] | Hin] He]]]].
        -- left. now left.
        -- destruct He as [[_ [sub' [Hs Hx]]] | [Hd _]]; [|congruence].
           rewrite R in Hs. injection Hs as <-. left. now right.
        -- right. exists n, e'. auto.
    + destruct (isFile e && endsWith (lit ".md") name) eqn:F.
      * intros H x. rewrite (IH _ H x), in_app_iff. split.
        -- intros [[Ha | [<- | []]] | [n [e' [Hin He]]]].
           ++ now left.
           ++ right. exists name, e. split; [now left|]. right.
              apply andb_true_iff in F. destruct F as [F1 F2]. auto.
           ++ right. exists n, e'. split; [now right | exact He].
        -- intros [Ha | [n [e' [[[= <- <-] | Hin] He]]]].
           ++ left. now left.
           ++ destruct He as [[Hd _] | [_ [_ [_ ->]]]]; [congruence|].
              left. right. now left.
           ++ right. exists n, e'. auto.
      * intros H x. rewrite (IH _ H x). split.
        -- intros [Ha | [n [e' [Hin He]]]]; [now left|].
           right. exists n, e'. split; [now right | exact He].
        -- intros [Ha | [n [e' [[[= <- <-] | Hin] He]]]].
           ++ now left.
           ++ destruct He as [[Hd _] | [_ [F1 [F2 _]]]]; [congruence|].
              rewrite F1, F2 in F. discriminate F.
           ++ right. exists n, e'. auto.
Qed.

Lemma listEntries_Ok recur dir base entries acc :
  (exists out, listEntries recur dir base entries acc = Ok out)
  <-> forall name e, In (name, e) entries -> descends name e = true ->
                     exists sub, recur (join dir name) e = Ok sub.
Proof.
  revert acc. induction entries as [|[name e] rest IH]; intros acc; simpl.
  - split; [intros _ ? ? [] | eauto].
  - destruct (descends name e) eqn:D.
    + destruct (recur (join dir name) e) as [sub|err] eqn:R.
      * rewrite IH. split.
        -- intros H n e' [[= <- <-] | Hin] Hd; [eauto | now apply H].
        -- intros H n e' Hin. apply H. now right.
      * split; [intros [out H]; discriminate H|].
        intros H. destruct (H name e (or_introl eq_refl) D) as [sub Hs].
        congruence.
    + assert (Hrest : forall acc',
                (exists out, listEntries recur dir base rest acc' = Ok out)
                <-> forall n e', (name, e) = (n, e') \/ In (n, e') rest ->
                                 descends n e' = true ->
                                 exists sub, recur (join dir n) e' = Ok sub).
      { intros acc'. rewrite IH. split.
        - intros H n e' [[= <- <-] | Hin] Hd; [congruence | now apply H].
        - intros H n e' Hin. apply H. now right. }
      destruct (isFile e && endsWith (lit ".md") name); apply Hrest.
Qed.

Lemma descends_visible name e :
  descends name e = true <-> isDirectory e = true /\ visible name.
Proof.
  unfold descends, visible.
  rewrite !andb_true_iff, !negb_true_iff, str_eqb_neq. tauto.
Qed.

Lemma listMdFiles_found base d :
  forall dir out,
    listMdFiles dir base d = Ok out ->
    forall x, In x out <-> found dir base d x.
Proof.
  induction d as [| | err | entries IH] using node_induction;
    intros dir out; simpl; try discriminate.
  intros H x. rewrite (listEntries_In _ _ _ _ _ H x). split.
  - intros [[] | [name [e [Hin He]]]].
    rewrite Forall_forall in IH. specialize (IH _ Hin). cbn [snd] in IH.
    destruct He as [[Hd [sub [Hs Hx]]] | [Hd [Hf [Hm ->]]]].
    + apply (IH _ _ Hs) in Hx.
      destruct Hx as [dirs [n [Hp [Hv [Hm ->]]]]].
      apply descends_visible in Hd. destruct Hd as [_ Hd].
      exists (name :: dirs), n. split; [|split; [|split]].
      * cbn [app at_path]. exists entries, e. auto.
      * now constructor.
      * exact Hm.
      * reflexivity.
    + exists [], name. split; [|split; [|split]].
      * cbn [app at_path]. exists entries, e.
        split; [reflexivity|]. split; [exact Hin|]. now destruct e.
      * constructor.
      * exact Hm.
      * reflexivity.
  - intros [dirs [n [Hp [Hv [Hm ->]]]]]. right.
    destruct dirs as [|d1 dirs]; cbn [app at_path] in Hp;
      destruct Hp as [entries' [sub [[= <-] [Hin Hp]]]].
    + subst sub. exists n, File. split; [exact Hin|]. right. auto.
    + exists d1, sub. split; [exact Hin|]. left.
      inversion Hv as [|? ? Hv1 Hv2]; subst.
      assert (Hd : descends d1 sub = true).
      { apply descends_visible. split; [|exact Hv1].
        destruct dirs; cbn [app at_path] in Hp;
          destruct Hp as [? [? [-> _]]]; reflexivity. }
      split; [exact Hd|].
      destruct (proj1 (listEntries_Ok _ dir base entries [])
                  (ex_intro _ out H) d1 sub Hin Hd) as [subout Hs].
      exists subout. split; [exact Hs|].
      rewrite Forall_forall in IH. specialize (IH _ Hin). cbn [snd] in IH.
      apply (IH _ _ Hs). exists dirs, n. auto.
Qed.

(** X1. What [listMdFiles] lists: a pair is in the result exactly when it
    is the full and the relative path of a regular file whose name ends in
    [.md], reached from the root through directories that could be read
    and whose names neither begin with a dot nor are [image].  The name of
    the file itself may begin with a dot; only backslashes of the relative
    path are rewritten. *)
Theorem listMdFiles_lists dir base d out :
  listMdFiles dir base d = Ok out ->
  forall full rel,
    In (full, rel) out
    <-> exists dirs name,
          at_path d (dirs ++ [name]) File /\ Forall visible dirs /\
          endsWith (lit ".md") name = true /\
          full = below dir (dirs ++ [name]) /\
          rel = replace_class (N.eqb BACKSLASH) (lit "/")
                  (relative base full).
Proof.
  intros H full rel. rewrite (listMdFiles_found _ _ _ H (full, rel)).
  unfold found. split.
  - intros [dirs [name [Hp [Hv [Hm [= -> ->]]]]]]. exists dirs, name. auto.
  - intros [dirs [name [Hp [Hv [Hm [-> ->]]]]]]. exists dirs, name. auto.
Qed.

(** X2. [listMdFiles] resolves exactly when the root and every directory
    it goes into can be read.  A directory it does not go into (a hidden
    one, the image directory) may be unreadable; one unreadable directory
    among the others makes the whole listing fail. *)
Theorem listMdFiles_succeeds_iff dir base d :
  (exists out, listMdFiles dir base d = Ok out)
  <-> forall dirs n,
        Forall visible dirs -> at_path d dirs n ->
        dirs = [] \/ isDirectory n = true ->
        exists entries, n = Directory (Ok entries).
Proof.
  revert dir.
  induction d as [| | err | entries IH] using node_induction;
    intros dir; simpl.
  - split; [intros [out H]; discriminate H|]. intros H.
    destruct (H [] File (Forall_nil _) eq_refl (or_introl eq_refl))
      as [entries He]. discriminate He.
  - split; [intros [out H]; discriminate H|]. intros H.
    destruct (H [] Other (Forall_nil _) eq_refl (or_introl eq_refl))
      as [entries He]. discriminate He.
  - split; [intros [out H]; discriminate H|]. intros H.
    destruct (H [] _ (Forall_nil _) eq_refl (or_introl eq_refl))
      as [entries He]. discriminate He.
  - rewrite listEntries_Ok. rewrite Forall_forall in IH. split.
    + intros H dirs n Hv Hp Hk. destruct dirs as [|d1 dirs].
      * simpl in Hp. subst n. eauto.
      * cbn [at_path] in Hp. destruct Hp as [entries' [sub [[= <-] [Hin Hp]]]].
        inversion Hv as [|? ? Hv1 Hv2]; subst.
        assert (Hd : descends d1 sub = true).
        { apply descends_visible. split; [|exact Hv1].
          destruct dirs; cbn [at_path] in Hp.
          - subst sub. destruct Hk as [Hk | Hk]; [discriminate Hk | exact Hk].
          - destruct Hp as [? [? [-> _]]]. reflexivity. }
        specialize (IH _ Hin (join dir d1)). cbn [snd] in IH.
        destruct (H d1 sub Hin Hd) as [subout Hs].
        apply (proj1 IH (ex_intro _ subout Hs) dirs n Hv2 Hp).
        destruct dirs; [now left|]. destruct Hk as [Hk | Hk];
          [discriminate Hk | now right].
    + intros H name e Hin Hd.
      specialize (IH _ Hin (join dir name)). cbn [snd] in IH.
      apply IH. intros dirs n Hv Hp Hk.
      apply descends_visible in Hd. destruct Hd as [Hd1 Hd2].
      apply (H (name :: dirs) n).
      * now constructor.
      * cbn [at_path]. exists entries, e. auto.
      * right. destruct dirs as [|d2 dirs].
        -- simpl in Hp. now subst n.
        -- destruct Hk as [Hk | Hk]; [discriminate Hk | exact Hk].
Qed.

End TraversalProperties.

(* ------------------------------------------------------------------ *)
(** ** The snapshot *)

Section SnapshotProperties.
Context {lib : NodeLib} {src : SourceTree}.

Lemma collectPublishable_sound O (candidates : list (jsstring * jsstring))
  (acc S : snapshot) rel data :
  collectPublishable O candidates acc = Ok S -> In (rel, data) S ->
  In (rel, data) acc \/
  exists full, In (full, rel) candidates /\ read_from O full rel data.
Proof.
  revert acc. induction candidates as [|[full r] rest IH]; intros acc; simpl.
  - intros [= <-] H. now left.
  - destruct (src_readFile full) as [text|e] eqn:R; [|discriminate].
    destruct (hasPublishableFrontmatter text) eqn:P; cbn [negb].
    + destruct (src_stat_mtimeMs full) as [t|e] eqn:T; [|discriminate].
      intros H Hin. destruct (IH _ H Hin) as [Hacc | [f [Hf Hr]]].
      * apply dict_set_In in Hacc. destruct Hacc as [[= -> ->] | Hacc].
        -- right. exists full. split; [now left|].
           unfold read_from. cbn [content mtime assets]. auto.
        -- now left.
      * right. exists f. split; [now right | exact Hr].
    + intros H Hin. destruct (IH _ H Hin) as [Hacc | [f [Hf Hr]]].
      * now left.
      * right. exists f. split; [now right | exact Hr].
Qed.

Lemma collectPublishable_complete O (candidates : list (jsstring * jsstring))
  (acc S : snapshot) full rel text :
  collectPublishable O candidates acc = Ok S ->
  In (full, rel) candidates -> src_readFile full = Ok text ->
  hasPublishableFrontmatter text = true ->
  In rel (Dict.keys S).
Proof.
  revert acc. induction candidates as [|[f r] rest IH]; intros acc; simpl.
  - intros _ [].
  - destruct (src_readFile f) as [text'|e] eqn:R; [|discriminate].
    destruct (hasPublishableFrontmatter text') eqn:P; cbn [negb].
    + destruct (src_stat_mtimeMs f) as [t|e] eqn:T; [|discriminate].
      intros H [[= -> ->] | Hin] HR HP.
      * apply dict_has_In. eapply collectPublishable_keeps; [exact H|].
        apply dict_has_set.
      * eapply IH; eassumption.
    + intros H [[= -> ->] | Hin] HR HP.
      * congruence.
      * eapply IH; eassumption.
Qed.

Lemma collectPublishable_Err O (candidates : list (jsstring * jsstring))
  (acc : snapshot) e :
  collectPublishable O candidates acc = Err e
  <-> exists pre full rel post,
        candidates = pre ++ (full, rel) :: post /\
        (forall f r, In (f, r) pre -> readable f) /\
        fails_with full e.
Proof.
  revert acc. induction candidates as [|[f r] rest IH]; intros acc; simpl.
  - split; [discriminate|]. intros [pre [full [rel [post [E _]]]]].
    destruct pre; discriminate.
  - split.
    + destruct (src_readFile f) as [text|e'] eqn:R.
      2:{ intros [= ->]. exists [], f, r, rest.
          split; [reflexivity|]. split; [intros ? ? []|]. now left. }
      destruct (hasPublishableFrontmatter text) eqn:P; cbn [negb].
      * destruct (src_stat_mtimeMs f) as [t|e'] eqn:T.
        -- intros H. apply IH in H.
           destruct H as [pre [full [rel [post [-> [Hpre Hf]]]]]].
           exists ((f, r) :: pre), full, rel, post.
           split; [reflexivity|]. split; [|exact Hf].
           intros f' r' [[= <- <-] | Hin]; [|eapply Hpre; exact Hin].
           exists text. split; [exact R|]. intros _. eauto.
        -- intros [= ->]. exists [], f, r, rest.
           split; [reflexivity|]. split; [intros ? ? []|].
           right. exists text. auto.
      * intros H. apply IH in H.
        destruct H as [pre [full [rel [post [-> [Hpre Hf]]]]]].
        exists ((f, r) :: pre), full, rel, post.
        split; [reflexivity|]. split; [|exact Hf].
        intros f' r' [[= <- <-] | Hin]; [|eapply Hpre; exact Hin].
        exists text. split; [exact R|]. congruence.
    + intros [pre [full [rel [post [E [Hpre Hf]]]]]].
      destruct pre as [|[f' r'] pre]; simpl in E;
        [injection E as <- <- <- | injection E as <- <- ->].
      * destruct Hf as [-> | [text [-> [-> ->]]]]; reflexivity.
      * destruct (Hpre f r (or_introl eq_refl)) as [text [-> Ht]].
        assert (Hrest : collectPublishable O (pre ++ (full, rel) :: post)
                          (if hasPublishableFrontmatter text
                           then Dict.set acc r
                                  (mkDocument
                                     match src_stat_mtimeMs f with
                                     | Ok t => t | Err _ => 0%Z end
                                     text
                                     (resolveAssets O (dirname r)
                                        (extractAssetRefs text)))
                           else acc) = Err e).
        { apply IH. exists pre, full, rel, post.
          split; [reflexivity|]. split; [|exact Hf].
          intros f' r' Hin. apply (Hpre f' r'). now right. }
        destruct (hasPublishableFrontmatter text); cbn [negb].
        -- destruct (Ht eq_refl) as [t Et]. rewrite Et in *. exact Hrest.
        -- exact Hrest.
Qed.

(** X3. The snapshot of [getPublishableSet] holds the documents that pass
    the filter and nothing else: a relative path is a key exactly when a
    listed file with that path passes [hasPublishableFrontmatter]; the
    value of a key is the text and the modification time read from such a
    file, with the assets resolved from the references of that text; and
    no key occurs twice. *)
Theorem snapshot_is_the_publishable_documents O (S : snapshot) :
  getPublishableSet O = Ok S ->
  exists candidates,
    src_listMdFiles O = Ok candidates /\
    (forall rel,
       In rel (Dict.keys S)
       <-> exists full text,
             In (full, rel) candidates /\ src_readFile full = Ok text /\
             hasPublishableFrontmatter text = true) /\
    (forall rel data,
       In (rel, data) S ->
       exists full, In (full, rel) candidates /\ read_from O full rel data) /\
    NoDup (Dict.keys S).
Proof.
  intros G. pose proof (getPublishableSet_NoDup _ G) as Hnd.
  unfold getPublishableSet in G.
  destruct (src_listMdFiles O) as [candidates|e]; [|discriminate].
  exists candidates. split; [reflexivity|].
  assert (Hs : forall rel data,
             In (rel, data) S ->
             exists full, In (full, rel) candidates /\ read_from O full rel data).
  { intros rel data Hin.
    destruct (@collectPublishable_sound O candidates [] S rel data G Hin) as [[] | H]. exact H. }
  split; [|split; assumption].
  intros rel. split.
  - intros Hk. unfold Dict.keys in Hk. apply in_map_iff in Hk.
    destruct Hk as [[r data] [<- Hin]]. cbn [fst].
    destruct (Hs r data Hin) as [full [Hc [HR [HP _]]]].
    exists full, (content data). auto.
  - intros [full [text [Hc [HR HP]]]].
    eapply collectPublishable_complete; eassumption.
Qed.

(** X4. [getPublishableSet] rejects with [e] exactly when the listing
    rejects with [e], or the first listed file that cannot be read -- its
    text, or its modification time once it passed the filter -- fails with
    [e].  An asset that cannot be found is never a reason. *)
Theorem snapshot_failure O (e : error) :
  getPublishableSet O = Err e
  <-> src_listMdFiles O = Err e \/
      exists candidates pre full rel post,
        src_listMdFiles O = Ok candidates /\
        candidates = pre ++ (full, rel) :: post /\
        (forall f r, In (f, r) pre -> readable f) /\
        fails_with full e.
Proof.
  unfold getPublishableSet.
  destruct (src_listMdFiles O) as [candidates|e'].
  - rewrite collectPublishable_Err. split.
    + intros [pre [full [rel [post H]]]]. right.
      exists candidates, pre, full, rel, post. split; [reflexivity | exact H].
    + intros [H | [c [pre [full [rel [post [[= <-] H]]]]]]]; [discriminate|].
      exists pre, full, rel, post. exact H.
  - split.
    + intros [= ->]. now left.
    + intros [[= ->] | [c [pre [full [rel [post [H _]]]]]]];
        [reflexivity | discriminate].
Qed.

End SnapshotProperties.

Section PrivacyProperties.
Context {lib : NodeLib} {src : SourceTree} {dst : DestFS}.

(** X6. What a run puts into the destination comes from documents that
    pass the filter: every file it writes is the converted text of a
    listed file that passes [hasPublishableFrontmatter], at that file's
    relative path, and every file it copies is what [findAssetFile] found
    for a reference of such a text, copied into the image directory under
    the normalised base name of the reference. *)
Theorem only_publishable_documents_are_written O Q w w' r :
  run O Q w = (w', r) ->
  exists evs,
    snd w' = snd w ++ evs /\
    (forall p c o,
       In (WriteFile p c, o) evs ->
       exists candidates full rel text,
         src_listMdFiles O = Ok candidates /\ In (full, rel) candidates /\
         src_readFile full = Ok text /\
         hasPublishableFrontmatter text = true /\
         p = join Q rel /\
         c = convertContentForQuartz text
               (resolveAssets O (dirname rel) (extractAssetRefs text))) /\
    (forall from to o,
       In (CopyFile from to, o) evs ->
       exists candidates full rel text x,
         src_listMdFiles O = Ok candidates /\ In (full, rel) candidates /\
         src_readFile full = Ok text /\
         hasPublishableFrontmatter text = true /\
         In x (extractAssetRefs text) /\
         findAssetFile O (dirname rel) x = Some from /\
         to = join (join Q IMAGE) (slugifyBasename (Path.basename x))).
Proof.
  rewrite run_eq. destruct (getPublishableSet O) as [S|e] eqn:G.
  2:{ intros [= <- <-]. exists []. rewrite app_nil_r.
      split; [reflexivity|]. split; intros ? ? ? []. }
  intros H. apply reconcile_trace in H. destruct H as [evs [E [F _]]].
  exists evs. split; [exact E|].
  assert (Hsync : forall ev,
            In ev evs ->
            (exists p c, fst ev = WriteFile p c) \/
            (exists a b, fst ev = CopyFile a b) ->
            sync_event Q (join Q IMAGE) (fs_readManifest (fst w)) S ev).
  { intros ev Hin Hk. rewrite Forall_forall in F.
    destruct (F ev Hin)
      as [[rel [_ Hx]] | [[rel [a [_ [_ [_ Hx]]]]] |
          [[rel [_ [Hx | Hx]]] | [Hx | [Hx | Hx]]]]];
      try exact Hx;
      destruct Hk as [[p [c Hk]] | [a' [b Hk]]]; rewrite Hk in Hx;
      discriminate Hx. }
  unfold getPublishableSet in G.
  destruct (src_listMdFiles O) as [candidates|e] eqn:L; [|discriminate].
  split.
  - intros p c o Hin.
    destruct (Hsync _ Hin) as [rel [data [HS [_ Hx]]]];
      [left; exists p, c; reflexivity|].
    cbn [fst] in Hx.
    destruct (@collectPublishable_sound lib src O candidates [] S rel data G HS)
      as [[] | [full [Hc [HR [HP [_ HA]]]]]].
    destruct Hx as [Hx | [[x [_ Hx]] | Hx]]; try discriminate Hx.
    injection Hx as -> ->.
    exists candidates, full, rel, (content data).
    rewrite <- HA. auto 10.
  - intros from to o Hin.
    destruct (Hsync _ Hin) as [rel [data [HS [_ Hx]]]];
      [right; exists from, to; reflexivity|].
    cbn [fst] in Hx.
    destruct (@collectPublishable_sound lib src O candidates [] S rel data G HS)
      as [[] | [full [Hc [HR [HP [_ HA]]]]]].
    destruct Hx as [Hx | [[x [Hin' Hx]] | Hx]]; try discriminate Hx.
    injection Hx as -> ->.
    rewrite HA in Hin'. apply resolveAssets_In in Hin'.
    destruct Hin' as [H1 [H2 [_ H4]]].
    exists candidates, full, rel, (content data), (ref x).
    rewrite H4. auto 10.
Qed.

End PrivacyProperties.

Section PublishedDocuments.
Context {lib : NodeLib} {rel_lib : NodeRelative} {src : SourceTree}.

(** X17. Which documents a run takes: when the listing of the source is
    the traversal of a tree, a relative path is in the snapshot exactly
    when it is that of a regular file whose name ends in [.md], reached
    through directories that are neither hidden nor the image directory,
    and whose text passes the filter. *)
Theorem snapshot_of_tree O (root : node) (S : snapshot) :
  src_listMdFiles O = listMdFiles O O root ->
  getPublishableSet O = Ok S ->
  forall rel,
    In rel (Dict.keys S)
    <-> exists dirs name text,
          at_path root (dirs ++ [name]) File /\ Forall visible dirs /\
          endsWith (lit ".md") name = true /\
          rel = replace_class (N.eqb BACKSLASH) (lit "/")
                  (relative O (below O (dirs ++ [name]))) /\
          src_readFile (below O (dirs ++ [name])) = Ok text /\
          hasPublishableFrontmatter text = true.
Proof.
  intros L G rel. unfold getPublishableSet in G. rewrite L in G.
  destruct (listMdFiles O O root) as [candidates|e] eqn:T; [|discriminate].
  split.
  - intros Hk. unfold Dict.keys in Hk. apply in_map_iff in Hk.
    destruct Hk as [[r data] [<- Hin]]. cbn [fst].
    destruct (@collectPublishable_sound lib src O candidates [] S r data
                G Hin) as [[] | [full [Hc [HR [HP _]]]]].
    apply (listMdFiles_found _ _ _ T) in Hc.
    destruct Hc as [dirs [name [Hp [Hv [Hm [= -> ->]]]]]].
    exists dirs, name, (content data). auto 10.
  - intros [dirs [name [text [Hp [Hv [Hm [-> [HR HP]]]]]]]].
    eapply collectPublishable_complete; [exact G| |exact HR|exact HP].
    apply (listMdFiles_found _ _ _ T). exists dirs, name. auto.
Qed.

End PublishedDocuments.


(* ------------------------------------------------------------------ *)
(** ** Body conversion without embeds *)

Lemma includes_iff (pat s : jsstring) :
  includes pat s = true <-> exists pre post, s = pre ++ pat ++ post.
Proof.
  induction s as [|c s IH]; simpl.
  - rewrite orb_false_r. split.
    + intros H. apply startsWith_inv in H. destruct H as [r H].
      exists [], r. exact H.
    + intros [pre [post H]]. destruct pre; [|discriminate].
      simpl in H. rewrite H. apply startsWith_app.
  - rewrite orb_true_iff, IH. split.
    + intros [H | [pre [post ->]]].
      * apply startsWith_inv in H. destruct H as [r H]. exists [], r. exact H.
      * exists (c :: pre), post. reflexivity.
    + intros [pre [post H]]. destruct pre as [|c' pre].
      * left. simpl in H. rewrite H. apply startsWith_app.
      * right. injection H as _ H. eauto.
Qed.

Lemma includes_tail (pat : jsstring) (c : N) (s : jsstring) :
  includes pat (c :: s) = false ->
  startsWith pat (c :: s) = false /\ includes pat s = false.
Proof. simpl. intros H. apply orb_false_iff in H. exact H. Qed.

Lemma startsWith_app_l (p q s : jsstring) :
  startsWith (p ++ q) s = true -> startsWith p s = true.
Proof.
  intros H. apply startsWith_inv in H. destruct H as [r ->].
  rewrite <- app_assoc. apply startsWith_app.
Qed.

Lemma includes_app_l (p q s : jsstring) :
  includes p s = false -> includes (p ++ q) s = false.
Proof.
  intros H. apply not_true_iff_false. intros Hc.
  apply includes_iff in Hc. destruct Hc as [pre [post ->]].
  assert (includes p (pre ++ (p ++ q) ++ post) = true).
  { apply includes_iff. exists pre, (q ++ post).
    now rewrite <- app_assoc. }
  congruence.
Qed.

(** [split(pat).join(rep)] changes nothing in a text without [pat]. *)
Lemma split_join_absent (pat rep s : jsstring) :
  includes pat s = false -> split_join pat rep s 0 = s.
Proof.
  induction s as [|c s IH]; [reflexivity|].
  intros H. apply includes_tail in H. destruct H as [H1 H2].
  cbn [split_join]. rewrite H1. f_equal. now apply IH.
Qed.

Lemma match_at_wiki_None total (rest : jsstring) :
  startsWith (lit "![[") rest = false ->
  match_at WIKI_IMAGE_REGEX total rest = None.
Proof.
  intros H. unfold match_at, WIKI_IMAGE_REGEX.
  rewrite backtrack_Seq, backtrack_Str, H. reflexivity.
Qed.

Lemma replace_all_wiki_absent f total (s : jsstring) :
  includes (lit "![[") s = false ->
  replace_all WIKI_IMAGE_REGEX f total s 0 = s.
Proof.
  induction s as [|c s IH]; [reflexivity|].
  intros H. apply includes_tail in H. destruct H as [H1 H2].
  cbn [replace_all]. rewrite match_at_wiki_None by exact H1.
  f_equal. now apply IH.
Qed.

(** X12. [convertContentForQuartz] returns a text that holds no [![[] as
    it is, whatever the assets: links of the standard image syntax are not
    rewritten, also when their target was resolved and is copied under
    another name. *)
Theorem convertContentForQuartz_without_embed (content : jsstring)
  (assets : list asset) :
  includes (lit "![[") content = false ->
  convertContentForQuartz content assets = content.
Proof.
  intros H. unfold convertContentForQuartz.
  assert (Hfold :
    fold_left
      (fun out a =>
         split_join (lit "![[" ++ ref a ++ lit "]]")
                    (image_link (slugifiedBasename a)) out 0)
      assets content = content).
  { induction assets as [|a assets IH]; [reflexivity|].
    cbn [fold_left]. rewrite split_join_absent; [exact IH|].
    apply includes_app_l. exact H. }
  rewrite Hfold. apply replace_all_wiki_absent. exact H.
Qed.



(* ------------------------------------------------------------------ *)
(** ** Body conversion of embeds *)

(** *** Trimming *)

Lemma trimStart_idempotent (s : jsstring) :
  trimStart (trimStart s) = trimStart s.
Proof.
  induction s as [|c s IH]; [reflexivity|]. simpl.
  destruct (is_space c) eqn:E; [exact IH|]. simpl. now rewrite E.
Qed.

Lemma trimStart_app_kept (x : jsstring) (c : N) (y : jsstring) :
  is_space c = false -> trimStart (x ++ c :: y) = trimStart x ++ c :: y.
Proof.
  intros H. induction x as [|d x IH]; simpl.
  - now rewrite H.
  - destruct (is_space d); [exact IH | reflexivity].
Qed.

Lemma trimStart_head (s : jsstring) :
  trimStart s = [] \/
  exists c r, trimStart s = c :: r /\ is_space c = false.
Proof.
  induction s as [|c s IH]; [now left|]. simpl.
  destruct (is_space c) eqn:E; [exact IH|]. right. eauto.
Qed.

Lemma trim_idempotent (s : jsstring) : trim (trim s) = trim s.
Proof.
  unfold trim. set (t := trimStart s).
  assert (Hs : trimStart (trimEnd t) = trimEnd t).
  { destruct (trimStart_head s) as [E | [c [r [E Hc]]]]; fold t in E;
      rewrite E.
    - reflexivity.
    - unfold trimEnd. simpl rev. rewrite trimStart_app_kept by exact Hc.
      rewrite rev_app_distr. simpl. now rewrite Hc. }
  rewrite Hs. unfold trimEnd. rewrite rev_involutive, trimStart_idempotent.
  reflexivity.
Qed.

(** *** Names without brackets *)

Lemma Forall_firstn_skipn X (P : X -> Prop) (l : list X) (n k : nat) :
  Forall P l -> Forall P (firstn n (skipn k l)).
Proof.
  intros H. apply Forall_forall. intros x Hx.
  rewrite Forall_forall in H. apply H.
  rewrite <- (firstn_skipn k l). apply in_or_app. right.
  rewrite <- (firstn_skipn n (skipn k l)). apply in_or_app. now left.
Qed.

Lemma Forall_slice (P : N -> Prop) (s : jsstring) (a b : Z) :
  Forall P s -> Forall P (slice s a b).
Proof. intros H. unfold slice. now apply Forall_firstn_skipn. Qed.

Lemma Forall_trimStart (P : N -> Prop) (s : jsstring) :
  Forall P s -> Forall P (trimStart s).
Proof.
  induction 1 as [|c s Hc Hs IH]; [constructor|]. simpl.
  destruct (is_space c); [exact IH | now constructor].
Qed.

Lemma Forall_trim (P : N -> Prop) (s : jsstring) :
  Forall P s -> Forall P (trim s).
Proof.
  intros H. unfold trim, trimEnd.
  apply Forall_rev, Forall_trimStart, Forall_rev, Forall_trimStart, H.
Qed.

Lemma Forall_basename (P : N -> Prop) (s : jsstring) :
  Forall P s -> Forall P (Path.basename s).
Proof.
  intros H. unfold Path.basename.
  destruct (Path.b_end _ =? -1)%Z; [constructor | now apply Forall_slice].
Qed.

Lemma Forall_extname (P : N -> Prop) (s : jsstring) :
  Forall P s -> Forall P (Path.extname s).
Proof.
  intros H. unfold Path.extname.
  match goal with |- Forall P (if ?c then _ else _) => destruct c end;
    [constructor | now apply Forall_slice].
Qed.

Lemma slugifyBasename_no_bracket (s : jsstring) :
  Forall (fun c => c <> LBRACKET) s ->
  Forall (fun c => c <> LBRACKET) (slugifyBasename s).
Proof.
  intros H. unfold slugifyBasename. apply Forall_app. split.
  - rewrite slug_replace_flat_map. apply Forall_flat_map.
    eapply Forall_impl; [|apply Forall_slice, H].
    intros c Hc. cbv beta. unfold slug_char.
    repeat match goal with
           | |- Forall _ (if ?b then _ else _) => destruct b
           end;
      repeat constructor; try exact Hc; discriminate.
  - now apply Forall_extname.
Qed.

Lemma fallback_name_no_bracket (r : jsstring) :
  bracket_free r -> Forall (fun c => c <> LBRACKET) (fallback_name r).
Proof.
  intros H. unfold fallback_name.
  apply slugifyBasename_no_bracket, Forall_basename, Forall_trim.
  eapply Forall_impl; [|exact H]. intros c [Hc _]. exact Hc.
Qed.

(** *** Where an embed can start *)

Lemma silent_tail pat (c : N) (t R : jsstring) :
  silent pat (c :: t) R ->
  startsWith pat ((c :: t) ++ R) = false /\ silent pat t R.
Proof.
  intros H. split.
  - apply (H [] (c :: t)); [reflexivity | discriminate].
  - intros u v E Hv. apply (H (c :: u) v); [now rewrite E | exact Hv].
Qed.

Lemma silent_longer (p q t R : jsstring) :
  silent p t R -> silent (p ++ q) t R.
Proof.
  intros H u v E Hv. apply not_true_iff_false. intros Hc.
  apply startsWith_app_l in Hc. rewrite (H u v E Hv) in Hc. discriminate.
Qed.

Lemma startsWith_open_firstn (v R : jsstring) :
  v <> [] ->
  startsWith (lit "![[") (v ++ R)
  = startsWith (lit "![[") (v ++ firstn 2 R).
Proof.
  intros Hv. destruct v as [|a [|b [|c v]]]; [contradiction| | |];
    destruct R as [|x [|y R]]; reflexivity.
Qed.

Lemma silent_firstn (t R R' : jsstring) :
  firstn 2 R = firstn 2 R' ->
  silent (lit "![[") t R -> silent (lit "![[") t R'.
Proof.
  intros E H u v Et Hv.
  rewrite startsWith_open_firstn, <- E, <- startsWith_open_firstn
    by exact Hv.
  now apply (H u v).
Qed.

(** Text without the opening of an embed, followed by something that does
    not begin with a bracket. *)
Lemma silent_plain (t R : jsstring) :
  includes (lit "![[") t = false ->
  (forall R', R <> LBRACKET :: R') ->
  silent (lit "![[") t R.
Proof.
  intros Hi HR u v E Hv. apply not_true_iff_false. intros Hc.
  apply startsWith_inv in Hc. destruct Hc as [z Hz].
  destruct v as [|a [|b [|c v]]]; [contradiction| | |].
  - simpl in Hz. injection Hz as _ Hz. exact (HR _ Hz).
  - simpl in Hz. injection Hz as _ _ Hz. exact (HR _ Hz).
  - simpl in Hz. injection Hz as -> -> -> Hz.
    assert (Hin : includes (lit "![[") t = true).
    { apply includes_iff. exists u, v. rewrite E. reflexivity. }
    congruence.
Qed.

(** A sequence without opening bracket, then something that is no opening
    bracket: no embed starts there. *)
Lemma silent_no_bracket (t R : jsstring) :
  Forall (fun c => c <> LBRACKET) t ->
  (forall R', R <> LBRACKET :: R') ->
  silent (lit "![[") t R.
Proof.
  intros Ht HR u v E Hv. apply not_true_iff_false. intros Hc.
  apply startsWith_inv in Hc. destruct Hc as [z Hz].
  assert (Hfv : Forall (fun c => c <> LBRACKET) v).
  { rewrite E in Ht. apply Forall_app in Ht. apply Ht. }
  destruct v as [|a [|b v]]; [contradiction| |].
  - simpl in Hz. injection Hz as _ Hz. exact (HR _ Hz).
  - simpl in Hz. injection Hz as _ Hb _.
    inversion Hfv as [|? ? _ Hf2]; subst.
    inversion Hf2 as [|? ? Hb' _]; subst. now apply Hb'.
Qed.

Lemma silent_app (pat t1 t2 R : jsstring) :
  silent pat t1 (t2 ++ R) -> silent pat t2 R -> silent pat (t1 ++ t2) R.
Proof.
  intros H1 H2 u v E Hv.
  revert u E. induction t1 as [|c t1 IH] in H1 |- *; intros u E.
  - simpl in E. now apply (H2 u v).
  - destruct u as [|d u].
    + simpl in E. subst v.
      replace ((c :: t1 ++ t2) ++ R) with ((c :: t1) ++ t2 ++ R)
        by (simpl; now rewrite app_assoc).
      apply (H1 [] (c :: t1)); [reflexivity | discriminate].
    + simpl in E. injection E as <- E.
      apply (IH (proj2 (silent_tail H1)) u E).
Qed.

(** A link to the image directory holds no opening of an embed and joins
    none, whatever follows. *)
Lemma silent_link (name R : jsstring) :
  Forall (fun c => c <> LBRACKET) name ->
  silent (lit "![[") (image_link name) R.
Proof.
  intros Hn. unfold image_link.
  change (lit "![](../image/" ++ name ++ lit ")")
    with (lit "![" ++ (lit "](../image/" ++ name ++ lit ")")).
  apply silent_app.
  - intros u v E Hv.
    destruct u as [|a [|b [|c u]]]; simpl in E.
    + subst v. reflexivity.
    + injection E as _ <-. reflexivity.
    + injection E as _ _ <-. contradiction.
    + injection E as _ _ E. destruct u; discriminate E.
  - change (silent (lit "![[") ((lit "](../image/" ++ name) ++ lit ")") R).
    apply silent_app.
    + apply silent_no_bracket.
      * apply Forall_app. split; [|exact Hn].
        repeat constructor; discriminate.
      * intros R'. discriminate.
    + intros u v E Hv.
      destruct u as [|a u]; simpl in E.
      * subst v. reflexivity.
      * injection E as _ E. destruct u; [|discriminate E].
        simpl in E. subst v. contradiction.
Qed.

(** The inside of an embed of a name without brackets. *)
Lemma silent_embed_tail (r R : jsstring) :
  bracket_free r ->
  silent (lit "![[") (lit "[[" ++ r ++ lit "]]") R.
Proof.
  intros Hr.
  apply silent_app; [|apply silent_app].
  - intros u v E Hv.
    destruct u as [|a [|b u]]; simpl in E.
    + subst v. reflexivity.
    + injection E as _ <-. reflexivity.
    + injection E as _ _ E. destruct u; [|discriminate E].
      simpl in E. subst v. contradiction.
  - apply silent_no_bracket.
    + eapply Forall_impl; [|exact Hr]. intros c [Hc _]. exact Hc.
    + intros R'. discriminate.
  - intros u v E Hv.
    destruct u as [|a [|b u]]; simpl in E.
    + subst v. reflexivity.
    + injection E as _ <-. reflexivity.
    + injection E as _ _ E. destruct u; [|discriminate E].
      simpl in E. subst v. contradiction.
Qed.

(** *** The two replacements on a text in pieces *)

Lemma split_join_silent (pat rep t R : jsstring) :
  silent pat t R ->
  split_join pat rep (t ++ R) 0 = t ++ split_join pat rep R 0.
Proof.
  induction t as [|c t IH]; intros H; [reflexivity|].
  apply silent_tail in H. destruct H as [H1 H2].
  change ((c :: t) ++ R) with (c :: t ++ R) in *.
  cbn [split_join]. rewrite H1. cbn [app]. f_equal. now apply IH.
Qed.

Lemma split_join_skip (pat rep x R : jsstring) :
  split_join pat rep (x ++ R) (length x) = split_join pat rep R 0.
Proof. induction x as [|c x IH]; [destruct R; reflexivity | exact IH]. Qed.

Lemma split_join_match (pat rep R : jsstring) :
  pat <> [] ->
  split_join pat rep (pat ++ R) 0 = rep ++ split_join pat rep R 0.
Proof.
  intros Hp. destruct pat as [|c pat]; [contradiction|].
  change ((c :: pat) ++ R) with (c :: pat ++ R).
  cbn [split_join].
  change (c :: pat ++ R) with ((c :: pat) ++ R).
  rewrite startsWith_app.
  replace (length (c :: pat) - 1) with (length pat) by (simpl; lia).
  now rewrite split_join_skip.
Qed.

Lemma replace_all_silent f total (t R : jsstring) :
  silent (lit "![[") t R ->
  replace_all WIKI_IMAGE_REGEX f total (t ++ R) 0
  = t ++ replace_all WIKI_IMAGE_REGEX f total R 0.
Proof.
  induction t as [|c t IH]; intros H; [reflexivity|].
  apply silent_tail in H. destruct H as [H1 H2].
  change ((c :: t) ++ R) with (c :: t ++ R) in *.
  cbn [replace_all]. rewrite match_at_wiki_None by exact H1.
  cbn [app]. f_equal. now apply IH.
Qed.

Lemma replace_all_skip r f total (x R : jsstring) :
  replace_all r f total (x ++ R) (length x) = replace_all r f total R 0.
Proof. induction x as [|c x IH]; [destruct R; reflexivity | exact IH]. Qed.

Lemma greedy_class_run A (p : N -> bool) (k : jsstring -> option A)
  (w rest : jsstring) (x : A) :
  all_in p w ->
  (forall c rest', rest = c :: rest' -> p c = false) ->
  k rest = Some x ->
  greedy_class p k (w ++ rest) = Some x.
Proof.
  intros Hw Hr Hk. induction Hw as [|c w Hc Hw IH]; simpl.
  - destruct rest as [|d rest]; [exact Hk|]. simpl.
    rewrite (Hr d rest eq_refl). exact Hk.
  - rewrite Hc, IH. reflexivity.
Qed.

(** The pattern matches an embed whole, and captures its name. *)
Lemma match_at_embed total (r R : jsstring) :
  r <> [] -> bracket_free r ->
  match_at WIKI_IMAGE_REGEX total (embed r ++ R)
  = Some (length (embed r), Some r).
Proof.
  intros Hne Hr. unfold match_at, WIKI_IMAGE_REGEX, embed.
  rewrite <- !app_assoc.
  rewrite backtrack_Seq, backtrack_Str, startsWith_app.
  replace (skipn (length (lit "![[")) (lit "![[" ++ r ++ lit "]]" ++ R))
    with (r ++ lit "]]" ++ R) by reflexivity.
  rewrite backtrack_Seq, backtrack_Group. unfold Plus.
  rewrite backtrack_Chr_Seq.
  destruct r as [|c r]; [contradiction|].
  inversion Hr as [|? ? [_ Hc] Hr']; subst.
  change ((c :: r) ++ lit "]]" ++ R) with (c :: r ++ lit "]]" ++ R).
  cbv beta iota.
  replace (negb (c =? RBRACKET)%N) with true
    by (symmetry; apply negb_true_iff, N.eqb_neq; exact Hc).
  rewrite backtrack_Star_Chr.
  apply greedy_class_run.
  - eapply Forall_impl; [|exact Hr']. intros d [_ Hd]. cbv beta.
    apply negb_true_iff, N.eqb_neq. exact Hd.
  - intros d rest' [= <- _]. reflexivity.
  - rewrite backtrack_Str.
    change (startsWith (lit "]]") (lit "]]" ++ R)) with true.
    cbv beta iota.
    change (skipn (length (lit "]]")) (lit "]]" ++ R)) with R.
    f_equal. f_equal.
    + rewrite !length_app. cbn [length]. rewrite !length_app.
      cbn [length lit map list_ascii_of_string]. lia.
    + f_equal.
      change (c :: r ++ lit "]]" ++ R) with ((c :: r) ++ lit "]]" ++ R).
      apply firstn_prefix.
Qed.

Lemma replace_all_embed f total (r R : jsstring) :
  r <> [] -> bracket_free r ->
  replace_all WIKI_IMAGE_REGEX f total (embed r ++ R) 0
  = f (Some r) ++ replace_all WIKI_IMAGE_REGEX f total R 0.
Proof.
  intros Hne Hr.
  pose proof (match_at_embed total R Hne Hr) as Hm.
  change (embed r ++ R)
    with (33%N :: (lit "[[" ++ r ++ lit "]]") ++ R) in *.
  cbn [replace_all]. rewrite Hm. f_equal.
  replace (length (embed r) - 1)
    with (length (lit "[[" ++ r ++ lit "]]"))
    by (unfold embed; cbn [lit map list_ascii_of_string app length]; lia).
  apply replace_all_skip.
Qed.

Lemma silent_cons pat (c : N) (t R : jsstring) :
  startsWith pat ((c :: t) ++ R) = false -> silent pat t R ->
  silent pat (c :: t) R.
Proof.
  intros H1 H2 u v E Hv. destruct u as [|d u]; simpl in E.
  - now subst v.
  - injection E as _ E. now apply (H2 u v).
Qed.

Lemma closed_name_unique (a b x y : jsstring) :
  Forall (fun c => c <> RBRACKET) a -> Forall (fun c => c <> RBRACKET) b ->
  a ++ RBRACKET :: x = b ++ RBRACKET :: y -> a = b.
Proof.
  intros Ha. revert b. induction Ha as [|c a Hc Ha IH]; intros b Hb E.
  - destruct b as [|d b]; [reflexivity|]. simpl in E. injection E as E _.
    inversion Hb; subst. congruence.
  - destruct b as [|d b]; simpl in E.
    + injection E as E _. congruence.
    + injection E as -> E. inversion Hb; subst. f_equal. now apply IH.
Qed.

Lemma embed_mismatch (r r' R : jsstring) :
  bracket_free r -> bracket_free r' -> r' <> r ->
  startsWith (embed r) (embed r' ++ R) = false.
Proof.
  intros Hr Hr' Hne. apply not_true_iff_false. intros Hc.
  apply startsWith_inv in Hc. destruct Hc as [z Hz].
  unfold embed in Hz. rewrite <- !app_assoc in Hz.
  apply app_inv_head in Hz. apply Hne.
  apply (@closed_name_unique r' r (RBRACKET :: R) (RBRACKET :: z)).
  - eapply Forall_impl; [|exact Hr']. now intros c [_ Hc].
  - eapply Forall_impl; [|exact Hr]. now intros c [_ Hc].
  - exact Hz.
Qed.

Lemma silent_embed (r r' R : jsstring) :
  bracket_free r -> bracket_free r' -> r' <> r ->
  silent (embed r) (embed r') R.
Proof.
  intros Hr Hr' Hne.
  change (embed r') with (33%N :: (lit "[[" ++ r' ++ lit "]]")).
  apply silent_cons.
  - now apply embed_mismatch.
  - unfold embed. apply silent_longer. now apply silent_embed_tail.
Qed.

Lemma firstn_render_subst (r rep' : jsstring) (items : list item) (n : nat) :
  n <= 2 ->
  firstn n (render (map (subst_item r (lit "![" ++ rep')) items))
  = firstn n (render items).
Proof.
  revert n. induction items as [|i items IH]; intros n Hn; [reflexivity|].
  cbn [map render flat_map]. fold (render items).
  fold (render (map (subst_item r (lit "![" ++ rep')) items)).
  destruct i as [t|r0]; cbn [subst_item show].
  - rewrite !firstn_app. f_equal. apply IH. lia.
  - destruct (str_eqb r0 r); cbn [show].
    + destruct n as [|[|[|n]]]; try reflexivity. lia.
    + destruct n as [|[|[|n]]]; try reflexivity. lia.
Qed.

Lemma well_formed_subst (r rep' : jsstring) (items : list item) :
  (forall R, silent (lit "![[") (lit "![" ++ rep') R) ->
  well_formed items ->
  well_formed (map (subst_item r (lit "![" ++ rep')) items).
Proof.
  intros Hrep. induction items as [|i items IH]; [trivial|].
  destruct i as [t|r0]; cbn [map subst_item well_formed].
  - intros [Hs Hw]. split; [|now apply IH].
    eapply silent_firstn; [|exact Hs].
    symmetry. now apply firstn_render_subst.
  - intros [Hn Hw]. destruct (str_eqb r0 r); cbn [well_formed].
    + split; [apply Hrep | now apply IH].
    + split; [exact Hn | now apply IH].
Qed.

(** One round of the first loop replaces the embeds of [r] and nothing
    else. *)
Lemma split_join_render (r rep : jsstring) (items : list item) :
  bracket_free r -> well_formed items ->
  split_join (embed r) rep (render items) 0
  = render (map (subst_item r rep) items).
Proof.
  intros Hr. induction items as [|i items IH]; [reflexivity|].
  cbn [map render flat_map]. fold (render items).
  fold (render (map (subst_item r rep) items)).
  destruct i as [t|r0]; cbn [subst_item show well_formed].
  - intros [Hs Hw]. rewrite split_join_silent.
    + now rewrite IH.
    + unfold embed. now apply silent_longer.
  - intros [[Hne Hr0] Hw]. destruct (str_eqb r0 r) eqn:E; cbn [show].
    + apply str_eqb_eq in E. subst r0. rewrite split_join_match.
      * now rewrite IH.
      * discriminate.
    + apply str_eqb_neq in E. rewrite split_join_silent.
      * now rewrite IH.
      * now apply silent_embed.
Qed.

(** The last step replaces every embed that is left. *)
Lemma replace_all_render f total (items : list item) :
  well_formed items ->
  replace_all WIKI_IMAGE_REGEX f total (render items) 0
  = flat_map (fun i => match i with
                       | Plain t => t
                       | Wiki r => f (Some r)
                       end) items.
Proof.
  induction items as [|i items IH]; [reflexivity|].
  cbn [render flat_map]. fold (render items).
  destruct i as [t|r]; cbn [show well_formed].
  - intros [Hs Hw]. rewrite replace_all_silent by exact Hs. now rewrite IH.
  - intros [[Hne Hr] Hw]. rewrite replace_all_embed by assumption.
    now rewrite IH.
Qed.

Lemma final_subst (r : jsstring) (items : list item) :
  flat_map final (map (subst_item r (image_link (fallback_name r))) items)
  = flat_map final items.
Proof.
  induction items as [|i items IH]; [reflexivity|].
  cbn [map flat_map]. rewrite IH. f_equal.
  destruct i as [t|r0]; cbn [subst_item]; [reflexivity|].
  destruct (str_eqb r0 r) eqn:E; [|reflexivity].
  apply str_eqb_eq in E. now subst r0.
Qed.

Lemma render_items_of (segs : list (jsstring * jsstring)) (tail : jsstring) :
  render (items_of segs tail) = with_embeds segs tail.
Proof.
  induction segs as [|[t r] segs IH];
    cbn [items_of with_embeds render flat_map show].
  - apply app_nil_r.
  - fold (render (items_of segs tail)). rewrite IH. reflexivity.
Qed.

Lemma final_items_of (segs : list (jsstring * jsstring)) (tail : jsstring) :
  flat_map final (items_of segs tail) = with_links segs tail.
Proof.
  induction segs as [|[t r] segs IH];
    cbn [items_of with_links flat_map final].
  - apply app_nil_r.
  - now rewrite IH.
Qed.

Lemma well_formed_items_of (segs : list (jsstring * jsstring))
  (tail : jsstring) :
  Forall (fun s => includes (lit "![[") (fst s) = false /\
                   snd s <> [] /\ bracket_free (snd s)) segs ->
  includes (lit "![[") tail = false ->
  well_formed (items_of segs tail).
Proof.
  intros Hs Ht.
  induction Hs as [|[t r] segs [H1 H2] Hs IH];
    cbn [items_of well_formed render flat_map show fst snd] in *.
  - split; [|trivial]. apply silent_plain; [exact Ht|]. discriminate.
  - split; [|split; [exact H2 | exact IH]].
    apply silent_plain; [exact H1|]. intros R'. discriminate.
Qed.

Lemma includes_silent (pat s : jsstring) :
  pat <> [] -> silent pat s [] -> includes pat s = false.
Proof.
  intros Hp H. apply not_true_iff_false. intros Hc.
  apply includes_iff in Hc. destruct Hc as [pre [post E]].
  assert (Hs : startsWith pat ((pat ++ post) ++ []) = true).
  { rewrite app_nil_r. apply startsWith_app. }
  rewrite (H pre (pat ++ post) E) in Hs; [discriminate|].
  destruct pat; [contradiction | discriminate].
Qed.

Lemma firstn_render_final (items : list item) (n : nat) :
  n <= 2 ->
  firstn n (render (map (fun i => Plain (final i)) items))
  = firstn n (render items).
Proof.
  revert n. induction items as [|i items IH]; intros n Hn; [reflexivity|].
  cbn [map render flat_map show]. fold (render items).
  fold (render (map (fun i => Plain (final i)) items)).
  destruct i as [t|r]; cbn [final show].
  - rewrite !firstn_app. f_equal. apply IH. lia.
  - destruct n as [|[|[|n]]]; try reflexivity. lia.
Qed.

Lemma well_formed_final (items : list item) :
  well_formed items ->
  well_formed (map (fun i => Plain (final i)) items).
Proof.
  induction items as [|i items IH]; [trivial|].
  destruct i as [t|r]; cbn [map final well_formed].
  - intros [Hs Hw]. split; [|now apply IH].
    eapply silent_firstn; [|exact Hs].
    symmetry. now apply firstn_render_final.
  - intros [[Hne Hr] Hw]. split; [|now apply IH].
    apply silent_link. now apply fallback_name_no_bracket.
Qed.

Lemma render_final (items : list item) :
  render (map (fun i => Plain (final i)) items) = flat_map final items.
Proof.
  induction items as [|i items IH]; [reflexivity|].
  cbn [map render flat_map show]. f_equal. exact IH.
Qed.

Lemma silent_render_plain (items : list item) :
  well_formed (map (fun i => Plain (final i)) items) ->
  silent (lit "![[") (render (map (fun i => Plain (final i)) items)) [].
Proof.
  induction items as [|i items IH]; cbn [map well_formed render flat_map show].
  - intros _ u v E Hv. destruct u; destruct v; try discriminate E.
    contradiction.
  - fold (render (map (fun i => Plain (final i)) items)).
    intros [Hs Hw]. apply silent_app; [|now apply IH].
    now rewrite app_nil_r.
Qed.

(** No embed is left in the converted text. *)
Lemma with_links_no_embed (segs : list (jsstring * jsstring))
  (tail : jsstring) :
  Forall (fun s => includes (lit "![[") (fst s) = false /\
                   snd s <> [] /\ bracket_free (snd s)) segs ->
  includes (lit "![[") tail = false ->
  includes (lit "![[") (with_links segs tail) = false.
Proof.
  intros Hs Ht. rewrite <- final_items_of, <- render_final.
  apply includes_silent; [discriminate|].
  apply silent_render_plain, well_formed_final.
  now apply well_formed_items_of.
Qed.

(** The first loop, over the assets of the document. *)
Lemma first_loop_render (assets : list asset) (items : list item) :
  Forall (fun a => bracket_free (ref a) /\
                   slugifiedBasename a = fallback_name (ref a)) assets ->
  well_formed items ->
  exists items',
    fold_left
      (fun out a =>
         split_join (lit "![[" ++ ref a ++ lit "]]")
                    (image_link (slugifiedBasename a)) out 0)
      assets (render items) = render items' /\
    well_formed items' /\
    flat_map final items' = flat_map final items.
Proof.
  intros Ha. revert items.
  induction Ha as [|a assets [Hr Hn] Ha IH]; intros items Hw.
  - exists items. auto.
  - cbn [fold_left].
    change (lit "![[" ++ ref a ++ lit "]]") with (embed (ref a)).
    rewrite split_join_render by assumption.
    destruct (IH (map (subst_item (ref a) (image_link (slugifiedBasename a)))
                      items)) as [items' [E [Hw' Hf]]].
    + change (image_link (slugifiedBasename a))
        with (lit "![" ++ (lit "](../image/" ++ slugifiedBasename a
                           ++ lit ")")).
      apply well_formed_subst; [|exact Hw].
      intros R.
      change (lit "![" ++ (lit "](../image/" ++ slugifiedBasename a
                           ++ lit ")"))
        with (image_link (slugifiedBasename a)).
      apply silent_link. rewrite Hn. now apply fallback_name_no_bracket.
    + exists items'. split; [exact E|]. split; [exact Hw'|].
      rewrite Hf, Hn. apply final_subst.
Qed.

(** The names of the assets of a snapshot are those the last step of the
    conversion computes. *)
Lemma resolved_asset_names {lib : NodeLib} {src : SourceTree}
  O mdDir (content : jsstring) (a : asset) :
  In a (resolveAssets O mdDir (extractAssetRefs content)) ->
  slugifiedBasename a = fallback_name (ref a).
Proof.
  intros Ha. apply resolveAssets_In in Ha.
  destruct Ha as [Hin [_ [_ Hs]]]. rewrite Hs. unfold fallback_name.
  assert (Ht : trim (ref a) = ref a).
  { apply extractAssetRefs_In in Hin.
    destruct Hin as [Hin | [Hin _]]; apply in_map_iff in Hin;
      destruct Hin as [m [<- _]]; apply trim_idempotent. }
  now rewrite Ht.
Qed.

(** X13. [convertContentForQuartz] turns each embed [![[name]]] into the
    link [![](../image/n)], [n] being the normalised base name of the
    trimmed name, and keeps the text between the embeds; no [![[] is left
    in the result.  This holds for a text whose [![[] are the openings of
    embeds of names without brackets, and assets whose references have no
    bracket and whose names are those of the snapshot
    ([resolved_asset_names]). *)
Theorem convertContentForQuartz_rewrites_embeds
  (segs : list (jsstring * jsstring)) (tail : jsstring)
  (assets : list asset) :
  Forall (fun s => includes (lit "![[") (fst s) = false /\
                   snd s <> [] /\ bracket_free (snd s)) segs ->
  includes (lit "![[") tail = false ->
  Forall (fun a => bracket_free (ref a) /\
                   slugifiedBasename a = fallback_name (ref a)) assets ->
  convertContentForQuartz (with_embeds segs tail) assets
  = with_links segs tail /\
  includes (lit "![[") (with_links segs tail) = false.
Proof.
  intros Hs Ht Ha. split; [|now apply with_links_no_embed].
  unfold convertContentForQuartz.
  rewrite <- render_items_of.
  destruct (@first_loop_render assets (items_of segs tail) Ha
              (@well_formed_items_of segs tail Hs Ht))
    as [items' [E [Hw Hf]]].
  rewrite E, replace_all_render by exact Hw.
  rewrite <- final_items_of, <- Hf. reflexivity.
Qed.


(* ------------------------------------------------------------------ *)
(** ** The references of a text in pieces *)

Lemma exec_all_silent total (t R : jsstring) :
  silent (lit "![[") t R ->
  exec_all WIKI_IMAGE_REGEX total (t ++ R) 0
  = exec_all WIKI_IMAGE_REGEX total R 0.
Proof.
  induction t as [|c t IH]; intros H; [reflexivity|].
  apply silent_tail in H. destruct H as [H1 H2].
  change ((c :: t) ++ R) with (c :: t ++ R) in *.
  cbn [exec_all]. rewrite match_at_wiki_None by exact H1.
  now apply IH.
Qed.

Lemma exec_all_skip r total (x R : jsstring) :
  exec_all r total (x ++ R) (length x) = exec_all r total R 0.
Proof. induction x as [|c x IH]; [destruct R; reflexivity | exact IH]. Qed.

Lemma exec_all_embed total (r R : jsstring) :
  r <> [] -> bracket_free r ->
  exec_all WIKI_IMAGE_REGEX total (embed r ++ R) 0
  = Some r :: exec_all WIKI_IMAGE_REGEX total R 0.
Proof.
  intros Hne Hr.
  pose proof (match_at_embed total R Hne Hr) as Hm.
  change (embed r ++ R)
    with (33%N :: (lit "[[" ++ r ++ lit "]]") ++ R) in *.
  cbn [exec_all]. rewrite Hm. f_equal.
  replace (length (embed r) - 1)
    with (length (lit "[[" ++ r ++ lit "]]"))
    by (unfold embed; cbn [lit map list_ascii_of_string app length]; lia).
  apply exec_all_skip.
Qed.

(** The first pattern matches at the embeds of a text in pieces, in
    order, and nowhere else. *)
Lemma exec_all_render total (items : list item) :
  well_formed items ->
  exec_all WIKI_IMAGE_REGEX total (render items) 0
  = flat_map (fun i => match i with
                       | Plain _ => []
                       | Wiki r => [Some r]
                       end) items.
Proof.
  induction items as [|i items IH]; [reflexivity|].
  cbn [render flat_map]. fold (render items).
  destruct i as [t|r]; cbn [show well_formed].
  - intros [Hs Hw]. rewrite exec_all_silent by exact Hs. now rewrite IH.
  - intros [[Hne Hr] Hw]. rewrite exec_all_embed by assumption.
    now rewrite IH.
Qed.

Lemma captures_with_embeds (segs : list (jsstring * jsstring))
  (tail : jsstring) :
  Forall (fun s => includes (lit "![[") (fst s) = false /\
                   snd s <> [] /\ bracket_free (snd s)) segs ->
  includes (lit "![[") tail = false ->
  captures WIKI_IMAGE_REGEX (with_embeds segs tail) = map snd segs.
Proof.
  intros Hs Ht. unfold captures.
  rewrite <- render_items_of.
  rewrite exec_all_render by now apply well_formed_items_of.
  clear. induction segs as [|[t r] segs IH]; [reflexivity|].
  cbn [items_of flat_map map app snd capture_text]. now rewrite IH.
Qed.

Section CollectedReferences.
Context {lib : NodeLib} {src : SourceTree}.

(** C10. A target of the standard image syntax that begins with [http]
    after trimming is never added by the second loop, whatever follows the
    four letters; such a reference is in the result only when a wiki-style
    embed names it.  Hence a resolved asset with such a reference always
    comes from a wiki-style embed.  Wiki-style embeds are collected
    whatever their prefix: in a text given by its embeds [![[name]]] and
    the text between them (names not empty and without brackets, no
    [![[] in the text between), the first pattern captures exactly the
    names, in order, and the trimmed name of every embed is in the result
    of [extractAssetRefs]. *)
Theorem extractAssetRefs_http_prefix (content href : jsstring) :
  startsWith (lit "http") href = true ->
  (forall refs, In href (add_md_refs content refs) -> In href refs) /\
  (In href (extractAssetRefs content)
   <-> In href (map trim (captures WIKI_IMAGE_REGEX content))) /\
  (forall m1, In m1 (captures WIKI_IMAGE_REGEX content) ->
              In (trim m1) (extractAssetRefs content)) /\
  (forall obsidianDir mdDir a,
     In a (resolveAssets obsidianDir mdDir (extractAssetRefs content)) ->
     ref a = href ->
     In href (map trim (captures WIKI_IMAGE_REGEX content))) /\
  (forall (segs : list (jsstring * jsstring)) (tail : jsstring),
     Forall (fun s => includes (lit "![[") (fst s) = false /\
                      snd s <> [] /\ bracket_free (snd s)) segs ->
     includes (lit "![[") tail = false ->
     captures WIKI_IMAGE_REGEX (with_embeds segs tail) = map snd segs /\
     forall r, In r (map snd segs) ->
               In (trim r) (extractAssetRefs (with_embeds segs tail))).
Proof.
  intros Hhttp.
  assert (Hiff : In href (extractAssetRefs content)
                 <-> In href (map trim (captures WIKI_IMAGE_REGEX content))).
  { rewrite extractAssetRefs_In. split; [|tauto].
    intros [H | [_ H]]; [assumption | congruence]. }
  split; [|split; [exact Hiff|split; [|split]]].
  - intros refs H. apply add_md_refs_In in H.
    destruct H as [H | [_ H]]; [assumption | congruence].
  - intros m1 H. apply extractAssetRefs_In. left. now apply in_map.
  - intros obsidianDir mdDir a Ha Hr. apply resolveAssets_In in Ha.
    destruct Ha as [Ha _]. rewrite Hr in Ha. now apply Hiff.
  - intros segs tail Hs Ht.
    pose proof (@captures_with_embeds segs tail Hs Ht) as Hc.
    split; [exact Hc|].
    intros r Hr. apply extractAssetRefs_In. left. rewrite Hc.
    now apply in_map.
Qed.

End CollectedReferences.

(* ------------------------------------------------------------------ *)
(** ** The test and the calls of phase 2 *)

Lemma needsSync_false_iff (p : entry) (data : document) :
  needsSync (Some p) data = false
  <-> (mtime data <= e_mtime p)%Z /\
      forall a, In a (e_assets p) <-> In a (current_assets data).
Proof.
  unfold needsSync. fold (current_assets data).
  set (prevA := set_of (e_assets p)). set (currA := set_of (current_assets data)).
  assert (Np : NoDup prevA) by apply set_of_NoDup.
  assert (Nc : NoDup currA) by apply set_of_NoDup.
  assert (Ip : forall a, In a prevA <-> In a (e_assets p))
    by (intros; apply set_of_In).
  assert (Ic : forall a, In a currA <-> In a (current_assets data))
    by (intros; apply set_of_In).
  cbn [negb andb]. rewrite negb_false_iff, andb_true_iff, !negb_true_iff.
  rewrite orb_false_iff, negb_false_iff, Nat.eqb_eq.
  rewrite <- (not_true_iff_false (existsb _ _)), existsb_exists.
  rewrite Z.gtb_ltb, Z.ltb_ge.
  split.
  - intros [Hm [Hlen Hsub]]. split; [assumption|].
    assert (Hincl : incl currA prevA).
    { intros a Ha. destruct (set_has prevA a) eqn:E.
      - now apply set_has_In.
      - exfalso. apply Hsub. exists a. split; [assumption|]. now rewrite E. }
    assert (Hback : incl prevA currA).
    { apply NoDup_length_incl; [assumption | lia | assumption]. }
    intros a. rewrite <- Ip, <- Ic. split; [apply Hback | apply Hincl].
  - intros [Hm Hsame]. split; [assumption|].
    assert (Hincl : incl currA prevA).
    { intros a Ha. apply Ip, Hsame, Ic, Ha. }
    assert (Hback : incl prevA currA).
    { intros a Ha. apply Ic, Hsame, Ip, Ha. }
    split.
    + apply Nat.le_antisymm; apply NoDup_incl_length; assumption.
    + intros [a [Ha Hn]]. apply negb_true_iff, set_has_not_In in Hn.
      apply Hn, Hincl, Ha.
Qed.

(** *** The calls of a run, exactly *)

Section ExactTraces.
Context {lib : NodeLib} {src : SourceTree} {dst : DestFS}.

(** The copies of one document: all of them in order, or up to the first
    that fails. *)
Lemma copyAssets_exact I (l : list asset) (acc : list jsstring) w w' r :
  copyAssets I l acc w = (w', r) ->
  match r with
  | Ok paths =>
      snd w' = snd w ++ map succeeded (map (copy_op I) l) /\
      paths = acc ++ map (fun a => image_path (slugifiedBasename a)) l
  | Err e =>
      exists l1 a l2,
        l = l1 ++ a :: l2 /\
        snd w' = snd w ++ map succeeded (map (copy_op I) l1)
                       ++ [(copy_op I a, Some e)]
  end.
Proof.
  revert acc w. induction l as [|a l IH]; intros acc w; simpl.
  - intros [= <- <-]. rewrite !app_nil_r. split; reflexivity.
  - unfold bind. rewrite call_eq.
    destruct (snd (fs_copyFile (sourcePath a)
                     (join I (slugifiedBasename a)) (fst w))) as [[]|e].
    + intros H. apply IH in H. cbn [snd] in H. destruct r as [paths|e].
      * destruct H as [E P]. split.
        -- rewrite E, <- app_assoc. reflexivity.
        -- rewrite P, <- app_assoc. reflexivity.
      * destruct H as [l1 [b [l2 [-> E]]]]. exists (a :: l1), b, l2.
        split; [reflexivity|]. rewrite E, <- !app_assoc. reflexivity.
    + intros [= <- <-]. exists [], a, l. split; reflexivity.
Qed.

Lemma sync_plan_cons Q I (entries : manifest) kv docs :
  sync_plan Q I entries (kv :: docs)
  = sync_ops Q I entries kv ++ sync_plan Q I entries docs.
Proof. reflexivity. Qed.

(** Phase 2: the whole plan, every call succeeding, or a part of it that
    ends with the call that failed. *)
Lemma addOrUpdate_exact Q I (entries : manifest)
  (docs : list (jsstring * document)) (acc : manifest) w w' r :
  addOrUpdate Q I entries docs acc w = (w', r) ->
  match r with
  | Ok m' =>
      snd w' = snd w ++ map succeeded (sync_plan Q I entries docs) /\
      m' = nextManifest entries docs acc
  | Err e =>
      exists ops o rest,
        sync_plan Q I entries docs = ops ++ o :: rest /\
        snd w' = snd w ++ map succeeded ops ++ [(o, Some e)]
  end.
Proof.
  revert acc w. induction docs as [|[rel data] docs IH]; intros acc w.
  - simpl. intros [= <- <-]. rewrite app_nil_r. split; reflexivity.
  - rewrite sync_plan_cons. unfold sync_ops. cbn [fst snd].
    cbn [addOrUpdate nextManifest fold_left fst snd].
    assert (Hslow : synced entries rel data = false ->
      bind (call (Mkdir (dirname (join Q rel)))
                 (fs_mkdir (dirname (join Q rel))))
        (fun _ =>
           bind (copyAssets I (assets data) [])
             (fun paths =>
                bind (call (WriteFile (join Q rel)
                        (convertContentForQuartz (content data)
                                                 (assets data)))
                       (fs_writeFile (join Q rel)
                          (convertContentForQuartz (content data)
                                                   (assets data))))
                  (fun _ =>
                     addOrUpdate Q I entries docs
                       (Dict.set acc rel (mkEntry (mtime data) paths)))))
        w = (w', r) ->
      new_entry entries rel data = mkEntry (mtime data) (current_assets data) ->
      match r with
      | Ok m' =>
          snd w' = snd w ++ map succeeded
            ((Mkdir (dirname (join Q rel))
              :: map (copy_op I) (assets data)
              ++ [WriteFile (join Q rel)
                    (convertContentForQuartz (content data) (assets data))])
             ++ sync_plan Q I entries docs) /\
          m' = fold_left
                 (fun acc kv =>
                    Dict.set acc (fst kv)
                      (new_entry entries (fst kv) (snd kv)))
                 docs (Dict.set acc rel (new_entry entries rel data))
      | Err e =>
          exists ops o rest,
            (Mkdir (dirname (join Q rel))
             :: map (copy_op I) (assets data)
             ++ [WriteFile (join Q rel)
                   (convertContentForQuartz (content data) (assets data))])
            ++ sync_plan Q I entries docs = ops ++ o :: rest /\
            snd w' = snd w ++ map succeeded ops ++ [(o, Some e)]
      end).
    { intros Hs H Hnew.
      unfold bind at 1 in H. rewrite call_eq in H.
      destruct (snd (fs_mkdir (dirname (join Q rel)) (fst w))) as [[]|e].
      2:{ injection H as <- <-. exists [], (Mkdir (dirname (join Q rel))).
          eexists. split; reflexivity. }
      unfold bind at 1 in H.
      match type of H with
      | context [copyAssets I (assets data) [] ?w1] =>
          destruct (copyAssets I (assets data) [] w1)
            as [w2 [paths|e]] eqn:C
      end; apply copyAssets_exact in C; cbn [snd] in C.
      2:{ injection H as <- <-. destruct C as [l1 [a [l2 [El E2]]]].
          exists (Mkdir (dirname (join Q rel)) :: map (copy_op I) l1),
                 (copy_op I a).
          eexists. split.
          - rewrite El, map_app. cbn [map app]. rewrite <- !app_assoc.
            cbn [app]. reflexivity.
          - rewrite E2. cbn [map app]. rewrite <- !app_assoc. reflexivity. }
      destruct C as [E2 P2]. rewrite P2 in H. cbn [app] in H.
      unfold bind at 1 in H. rewrite call_eq in H.
      match type of H with
      | context [snd (fs_writeFile ?p ?c ?st)] =>
          destruct (snd (fs_writeFile p c st)) as [[]|e]
      end.
      2:{ injection H as <- <-.
          exists (Mkdir (dirname (join Q rel))
                  :: map (copy_op I) (assets data)).
          eexists. eexists. split.
          - cbn [app]. rewrite <- app_assoc. cbn [app]. reflexivity.
          - cbn [snd]. rewrite E2. cbn [map app]. rewrite <- !app_assoc.
            reflexivity. }
      apply IH in H. cbn [snd] in H. destruct r as [m'|e].
      - destruct H as [E3 P3]. split.
        + rewrite E3, E2. cbn [map app]. rewrite !map_app.
          cbn [map app]. rewrite <- !app_assoc. reflexivity.
        + rewrite Hnew. exact P3.
      - destruct H as [ops [o [rest [Ep E3]]]].
        exists ((Mkdir (dirname (join Q rel))
                 :: map (copy_op I) (assets data)
                 ++ [WriteFile (join Q rel)
                       (convertContentForQuartz (content data)
                                                (assets data))]) ++ ops),
               o, rest.
        split.
        + rewrite Ep, <- app_assoc. reflexivity.
        + rewrite E3, E2. cbn [map app]. rewrite !map_app.
          cbn [map app]. rewrite <- !app_assoc. reflexivity. }
    unfold synced, new_entry in Hslow. unfold synced. unfold new_entry at 2.
    destruct (Dict.get entries rel) as [p|] eqn:G.
    + destruct (needsSync (Some p) data) eqn:N; cbn [negb].
      * intros H. now apply Hslow.
      * intros H. apply IH in H. cbn [app]. exact H.
    + intros H. now apply Hslow.
Qed.

(** The clean-up of the directories: one group of calls for each
    directory of [dirsToCheck], and no rejection. *)
Lemma removeEmptyDirs_exact Q (S : snapshot) (m : manifest) w :
  exists w' blocks,
    removeEmptyDirs Q S m w = (w', Ok tt) /\
    snd w' = snd w ++ concat blocks /\
    Forall2 (fun d evs => dir_events (join Q d) evs) (dirsToCheck S m) blocks.
Proof.
  unfold removeEmptyDirs, dirsToCheck.
  generalize (set_of (map dirname (toDeleteMd S m))) as dirs.
  intros dirs. revert w. induction dirs as [|d dirs IH]; intros w.
  - exists w, []. simpl. rewrite app_nil_r. repeat split. constructor.
  - cbn [forEach filter]. unfold bind at 1.
    destruct (str_eqb d [] || str_eqb d (lit ".")); cbn [negb].
    + unfold ret at 1. apply IH.
    + unfold try_catch, bind at 1. rewrite call_eq.
      destruct (fs_readdir (join Q d) (fst w)) as [st1 [names|e]] eqn:R;
        cbn [fst snd outcome].
      * destruct names as [|n names]; cbn [length Nat.eqb].
        -- rewrite call_eq. cbn [fst snd].
           destruct (fs_rmdir (join Q d) st1) as [st2 r2] eqn:D.
           cbn [fst snd].
           destruct (IH (st2, (snd w ++ [(Readdir (join Q d), None)])
                              ++ [(Rmdir (join Q d), outcome r2)]))
             as [w' [blocks [H [E F]]]].
           exists w', ([(Readdir (join Q d), None);
                        (Rmdir (join Q d), outcome r2)] :: blocks).
           split; [destruct r2 as [[]|e2]; exact H|].
           split; [rewrite E; cbn [snd concat app];
                   rewrite <- !app_assoc; reflexivity|].
           constructor; [|exact F].
           right; right. exists (fst w), st1, (outcome r2).
           split; [exact R | reflexivity].
        -- unfold ret at 1.
           destruct (IH (st1, snd w ++ [(Readdir (join Q d), None)]))
             as [w' [blocks [H [E F]]]].
           exists w', ([(Readdir (join Q d), None)] :: blocks).
           split; [exact H|].
           split; [rewrite E; cbn [snd concat app];
                   rewrite <- !app_assoc; reflexivity|].
           constructor; [|exact F].
           right; left. exists (fst w), st1, (n :: names).
           split; [exact R|]. split; [discriminate | reflexivity].
      * unfold ret at 1.
        destruct (IH (st1, snd w ++ [(Readdir (join Q d), Some e)]))
          as [w' [blocks [H [E F]]]].
        exists w', ([(Readdir (join Q d), Some e)] :: blocks).
        split; [exact H|].
        split; [rewrite E; cbn [snd concat app];
                rewrite <- !app_assoc; reflexivity|].
        constructor; [|exact F]. left. exists e. reflexivity.
Qed.

Lemma dir_events_ops p evs :
  dir_events p evs -> Forall (fun ev => is_dir_op (fst ev) = true) evs.
Proof.
  intros [[e ->] | [[st [st' [names [_ [_ ->]]]]] | [st [st' [o [_ ->]]]]]];
    repeat constructor.
Qed.

Lemma dir_blocks_ops Q (dirs : list jsstring) (blocks : list (list event)) :
  Forall2 (fun d evs => dir_events (join Q d) evs) dirs blocks ->
  Forall (fun ev => is_dir_op (fst ev) = true) (concat blocks).
Proof.
  induction 1 as [|d evs dirs blocks H _ IH]; simpl; [constructor|].
  apply Forall_app. split; [|exact IH]. eapply dir_events_ops, H.
Qed.

Lemma sync_plan_ops Q I (entries : manifest)
  (docs : list (jsstring * document)) :
  Forall (fun o => is_sync_op o = true) (sync_plan Q I entries docs).
Proof.
  unfold sync_plan. induction docs as [|kv docs IH]; simpl; [constructor|].
  apply Forall_app. split; [|exact IH]. unfold sync_ops.
  destruct (synced entries (fst kv) (snd kv)); [constructor|].
  constructor; [reflexivity|]. apply Forall_app. split.
  - apply Forall_forall. intros o Ho. apply in_map_iff in Ho.
    destruct Ho as [a [<- _]]. reflexivity.
  - repeat constructor.
Qed.

Lemma passed_unlinks (ps : list jsstring) (evs : list event) (rest : list op) :
  map Unlink ps = map fst evs ++ rest -> Forall benign evs ->
  Forall passed evs.
Proof.
  revert ps. induction evs as [|ev evs IH]; intros ps E B; [constructor|].
  destruct ps as [|p ps]; [discriminate|]. simpl in E.
  injection E as E1 E2. inversion B as [|? ? B1 B2]; subst.
  constructor; [|eapply IH; eassumption].
  split; [rewrite <- E1; reflexivity | now left].
Qed.

Lemma passed_dirs (evs : list event) :
  Forall (fun ev => is_dir_op (fst ev) = true) evs -> Forall passed evs.
Proof.
  apply Forall_impl. intros [o r]. cbn [fst]. intros H.
  split; [destruct o; (reflexivity || discriminate) | now right].
Qed.

Lemma passed_plan (ops : list op) :
  Forall (fun o => is_sync_op o = true) ops ->
  Forall passed (map succeeded ops).
Proof.
  intros H. apply Forall_map. eapply Forall_impl; [|exact H].
  intros o H1. split; [now destruct o | left; left; reflexivity].
Qed.

(** The calls of a run, once the snapshot and the manifest are loaded. *)
Lemma reconcile_exact Q (S : snapshot) (m : manifest) w w' r :
  reconcile Q S m w = (w', r) ->
  match r with
  | Ok m' =>
      exists del blocks,
        snd w' = snd w ++ del ++ concat blocks
                 ++ map succeeded
                      (Mkdir (join Q IMAGE)
                       :: sync_plan Q (join Q IMAGE) m S
                       ++ [WriteManifest m']) /\
        map fst del = map Unlink (delete_paths Q S m) /\
        Forall benign del /\
        Forall2 (fun d evs => dir_events (join Q d) evs)
                (dirsToCheck S m) blocks /\
        m' = nextManifest m S []
  | Err e =>
      exists done o,
        snd w' = snd w ++ done ++ [(o, Some e)] /\
        Forall passed done /\
        is_dir_op o = false /\
        (forall p, o = Unlink p -> is_ENOENT e = false)
  end.
Proof.
  unfold reconcile. unfold bind at 1. rewrite deleteObsolete_plan.
  destruct (forEach (delete_paths Q S m) unlink_unless_missing w)
    as [w1 [[]|e]] eqn:D;
    apply forEach_unlink_trace in D; destruct D as [evs1 [E1 D]].
  2:{ intros [= <- <-]. destruct D as [evs0 [p [rest [-> [B [N P]]]]]].
      exists evs0, (Unlink p). split; [exact E1|].
      split; [|split; [reflexivity | intros _ _; exact N]].
      rewrite map_app in P. rewrite <- app_assoc in P.
      eapply passed_unlinks; eassumption. }
  destruct D as [P1 B1].
  assert (G1 : Forall passed evs1).
  { apply passed_unlinks with (ps := delete_paths Q S m) (rest := []);
      [rewrite app_nil_r; symmetry; exact P1 | exact B1]. }
  unfold bind at 1.
  destruct (removeEmptyDirs_exact Q S m w1) as [w2 [blocks [-> [E2 F2]]]].
  assert (G2 : Forall passed (concat blocks)).
  { eapply passed_dirs, dir_blocks_ops, F2. }
  unfold bind at 1. rewrite call_eq.
  destruct (snd (fs_mkdir (join Q IMAGE) (fst w2))) as [[]|e].
  2:{ intros [= <- <-]. exists (evs1 ++ concat blocks), (Mkdir (join Q IMAGE)).
      split; [cbn [snd]; rewrite E2, E1, <- !app_assoc; reflexivity|].
      split; [apply Forall_app; split; assumption|].
      split; [reflexivity | intros p Hp; discriminate Hp]. }
  unfold bind at 1.
  match goal with
  | |- context [addOrUpdate Q (join Q IMAGE) m S [] ?w3] =>
      destruct (addOrUpdate Q (join Q IMAGE) m S [] w3)
        as [w4 [m4|e]] eqn:A
  end; apply addOrUpdate_exact in A; cbn [snd] in A.
  2:{ intros [= <- <-]. destruct A as [ops [o [rest [Ep E4]]]].
      pose proof (sync_plan_ops Q (join Q IMAGE) m S) as Hops.
      rewrite Ep in Hops. apply Forall_app in Hops.
      destruct Hops as [Hops Ho]. inversion Ho as [|? ? Ho1 _]; subst.
      exists (evs1 ++ concat blocks
              ++ map succeeded (Mkdir (join Q IMAGE) :: ops)), o.
      split; [rewrite E4, E2, E1; cbn [map app];
              rewrite <- !app_assoc; reflexivity|].
      split.
      - apply Forall_app. split; [assumption|].
        apply Forall_app. split; [assumption|].
        apply passed_plan. constructor; [reflexivity | exact Hops].
      - split; [now destruct o|]. intros p ->. discriminate Ho1. }
  destruct A as [E4 ->]. unfold bind at 1, writeManifest.
  rewrite call_eq.
  match goal with
  | |- context [snd (fs_writeManifest ?x ?st)] =>
      destruct (snd (fs_writeManifest x st)) as [[]|e]
  end.
  - unfold ret. intros [= <- <-]. exists evs1, blocks.
    split; [cbn [snd]; rewrite E4, E2, E1; cbn [map app];
            rewrite map_app; cbn [map]; rewrite <- !app_assoc;
            reflexivity|].
    repeat split; assumption.
  - intros [= <- <-].
    exists (evs1 ++ concat blocks
            ++ map succeeded (Mkdir (join Q IMAGE)
                              :: sync_plan Q (join Q IMAGE) m S)),
           (WriteManifest (nextManifest m S [])).
    split; [cbn [snd]; rewrite E4, E2, E1; cbn [map app];
            rewrite <- !app_assoc; reflexivity|].
    split.
    + apply Forall_app. split; [assumption|].
      apply Forall_app. split; [assumption|].
      apply passed_plan. constructor; [reflexivity|].
      apply sync_plan_ops.
    + split; [reflexivity | intros p Hp; discriminate Hp].
Qed.

End ExactTraces.

(** *** The manifest a run writes *)

Lemma dict_keys_set_new V (d : Dict.t V) (k : jsstring) (v : V) :
  ~ In k (Dict.keys d) -> Dict.keys (Dict.set d k v) = Dict.keys d ++ [k].
Proof.
  induction d as [|[k' v'] d IH]; simpl; [reflexivity|].
  intros H. destruct (str_eqb k' k) eqn:E.
  - apply str_eqb_eq in E. exfalso. apply H. now left.
  - simpl. f_equal. apply IH. intros Hin. apply H. now right.
Qed.

Lemma nextManifest_keys_eq (entries : manifest)
  (docs : list (jsstring * document)) (acc : manifest) :
  NoDup (Dict.keys acc ++ Dict.keys docs) ->
  Dict.keys (nextManifest entries docs acc) = Dict.keys acc ++ Dict.keys docs.
Proof.
  revert acc. induction docs as [|[rel data] docs IH]; intros acc H.
  - simpl. now rewrite app_nil_r.
  - cbn [nextManifest fold_left fst snd]. fold (nextManifest entries docs).
    assert (Hn : ~ In rel (Dict.keys acc)).
    { cbn [Dict.keys map fst] in H. apply NoDup_remove_2 in H.
      intros Hin. apply H, in_or_app. now left. }
    change (Dict.keys (nextManifest entries docs
                         (Dict.set acc rel (new_entry entries rel data)))
            = Dict.keys acc ++ rel :: Dict.keys docs).
    rewrite IH; rewrite dict_keys_set_new by exact Hn.
    + rewrite <- app_assoc. reflexivity.
    + rewrite <- app_assoc. exact H.
Qed.

Lemma new_entry_covers (entries : manifest) (rel : jsstring)
  (data : document) :
  (mtime data <= e_mtime (new_entry entries rel data))%Z /\
  forall a, In a (e_assets (new_entry entries rel data))
            <-> In a (current_assets data).
Proof.
  apply needsSync_false_iff, needsSync_new_entry.
Qed.

(* ------------------------------------------------------------------ *)
(** ** A run on a manifest file edited by hand *)

Section StoredRuns.
Context {lib : NodeLib} {src : SourceTree} {dst : DestFS}.

Lemma dict_get_map V W (f : V -> W) (d : Dict.t V) (k : jsstring) :
  Dict.get (map (fun kv => (fst kv, f (snd kv))) d) k
  = option_map f (Dict.get d k).
Proof.
  induction d as [|[k' v] d IH]; [reflexivity|].
  cbn [map Dict.get fst snd]. destruct (str_eqb k' k); [reflexivity|].
  exact IH.
Qed.

Lemma dict_keys_map V W (f : V -> W) (d : Dict.t V) :
  Dict.keys (map (fun kv => (fst kv, f (snd kv))) d) = Dict.keys d.
Proof.
  unfold Dict.keys. rewrite map_map. reflexivity.
Qed.

(** One round of the loop of phase 2, then the rest. *)
Lemma addOrUpdate_round Q I (m m1 : manifest) rel data
  (rest : list (jsstring * document)) (acc : manifest) w :
  Dict.get m1 rel = Dict.get m rel ->
  addOrUpdate Q I m ((rel, data) :: rest) acc w
  = bind (addOrUpdate Q I m1 [(rel, data)] acc)
         (fun acc' => addOrUpdate Q I m rest acc') w.
Proof.
  intros E. cbn [addOrUpdate]. rewrite E.
  destruct (Dict.get m rel) as [p|].
  - destruct (needsSync (Some p) data).
    + rewrite !bind_assoc. apply bind_ext; [reflexivity|]. intros _ w1.
      rewrite !bind_assoc. apply bind_ext; [reflexivity|]. intros paths w2.
      rewrite !bind_assoc. apply bind_ext; [reflexivity|]. intros _ w3.
      reflexivity.
    + reflexivity.
  - rewrite !bind_assoc. apply bind_ext; [reflexivity|]. intros _ w1.
    rewrite !bind_assoc. apply bind_ext; [reflexivity|]. intros paths w2.
    rewrite !bind_assoc. apply bind_ext; [reflexivity|]. intros _ w3.
    reflexivity.
Qed.

Lemma stored_prev_written (m : manifest) (rel : jsstring) es :
  stored_of m = Entries es ->
  stored_prev es rel = Ok (Dict.get m rel).
Proof.
  intros [= <-]. unfold stored_prev. rewrite dict_get_map.
  destruct (Dict.get m rel) as [[mt l]|]; reflexivity.
Qed.

Lemma stored_assets_written (m : manifest) (rel : jsstring) es :
  stored_of m = Entries es ->
  stored_assets_of es rel = Ok (entry_assets m rel).
Proof.
  intros [= <-]. unfold stored_assets_of, entry_assets.
  rewrite dict_get_map.
  destruct (Dict.get m rel) as [[mt l]|]; reflexivity.
Qed.

Lemma addOrUpdate_stored_written Q I (m : manifest) es
  (docs : list (jsstring * document)) (acc : manifest) w :
  stored_of m = Entries es ->
  addOrUpdate_stored Q I es docs acc w = addOrUpdate Q I m docs acc w.
Proof.
  intros E. revert acc w. induction docs as [|[rel data] docs IH]; intros acc w.
  - reflexivity.
  - cbn [addOrUpdate_stored]. rewrite (stored_prev_written rel E).
    rewrite (@addOrUpdate_round Q I m
               (match Dict.get m rel with Some p => [(rel, p)] | None => [] end)).
    + apply bind_ext; [reflexivity|]. intros acc' w'. apply IH.
    + destruct (Dict.get m rel) as [p|]; cbn [Dict.get];
        [rewrite str_eqb_refl|]; reflexivity.
Qed.

(** On the file [writeManifest] made of the entries [fs_readManifest]
    gives, and on a missing file when these are none, [run_stored] is
    [run]. *)
Lemma run_stored_written O Q w :
  run_stored O Q (stored_of (fs_readManifest (fst w))) w = run O Q w.
Proof.
  rewrite run_eq. unfold run_stored.
  destruct (getPublishableSet O) as [S|e]; [|reflexivity].
  set (m := fs_readManifest (fst w)).
  remember (stored_of m) as file eqn:E. symmetry in E.
  unfold stored_of in E. destruct file as [| |es]; try discriminate E.
  fold (stored_of m) in E.
  assert (K : toDeleteMd_stored S es = toDeleteMd S m).
  { injection E as <-. unfold toDeleteMd_stored, toDeleteMd.
    now rewrite dict_keys_map. }
  unfold reconcile_stored, reconcile.
  apply bind_ext.
  - intros w0. unfold deleteObsolete_stored, deleteObsolete. rewrite K.
    apply forEach_ext. intros rel w1.
    apply bind_ext; [reflexivity|]. intros _ w2.
    rewrite (stored_assets_written rel E). reflexivity.
  - intros _ w0. apply bind_ext.
    + intros w1. rewrite K. reflexivity.
    + intros _ w1. apply bind_ext; [reflexivity|]. intros _ w2.
      apply bind_ext; [|reflexivity].
      intros w3. now apply addOrUpdate_stored_written.
Qed.

Lemma run_stored_missing O Q w :
  fs_readManifest (fst w) = [] ->
  run_stored O Q NoEntries w = run O Q w.
Proof.
  intros E. rewrite <- run_stored_written, E. reflexivity.
Qed.

(** The unlinks of the assets of one entry. *)
Lemma forEach_unreferenced_trace Q (S : snapshot) (l : list jsstring)
  w w' r :
  forEach l (fun a =>
    if negb (set_has (assetsStillReferenced S) a)
    then unlink_unless_missing (join Q a) else ret tt) w = (w', r) ->
  exists evs,
    snd w' = snd w ++ evs /\
    match r with
    | Ok _ => Forall passed evs
    | Err e =>
        exists done p,
          evs = done ++ [(Unlink p, Some e)] /\ Forall passed done /\
          is_ENOENT e = false
    end.
Proof.
  intros H.
  rewrite <- (forEach_filter
                (fun a => negb (set_has (assetsStillReferenced S) a))) in H.
  rewrite <- (forEach_map (join Q)) in H.
  apply forEach_unlink_trace in H. destruct H as [evs [E H]].
  exists evs. split; [exact E|]. destruct r as [[]|e].
  - destruct H as [P B].
    eapply passed_unlinks with (rest := []); [|exact B].
    rewrite app_nil_r. symmetry. exact P.
  - destruct H as [done [p [rest [-> [B [N P]]]]]].
    exists done, p. split; [reflexivity|]. split; [|exact N].
    rewrite map_app, <- app_assoc in P.
    eapply passed_unlinks; eassumption.
Qed.

Lemma stops_in_phase1_later Q es rels rel e (pre evs : list event) :
  Forall passed pre -> stops_in_phase1 Q es rels e evs ->
  stops_in_phase1 Q es (rel :: rels) e (pre ++ evs).
Proof.
  intros F [[done [p [-> [F' N]]]] | [rel0 [done [ev [I [A [-> [U F']]]]]]]].
  - left. exists (pre ++ done), p. rewrite app_assoc.
    split; [reflexivity|]. split; [now apply Forall_app | exact N].
  - right. exists rel0, (pre ++ done), ev. split; [now right|].
    split; [exact A|]. rewrite app_assoc. split; [reflexivity|].
    split; [exact U|]. rewrite <- app_assoc. now apply Forall_app.
Qed.

(** One round of phase 1. *)
Lemma deleteObsolete_round Q (S : snapshot) es rel w w' r :
  bind (unlink_unless_missing (join Q rel)) (fun _ =>
    match stored_assets_of es rel with
    | Err e => throw e
    | Ok l =>
        forEach l (fun a =>
          if negb (set_has (assetsStillReferenced S) a)
          then unlink_unless_missing (join Q a) else ret tt)
    end) w = (w', r) ->
  exists evs,
    snd w' = snd w ++ evs /\
    match r with
    | Ok _ => Forall passed evs
    | Err e => stops_in_phase1 Q es [rel] e evs
    end.
Proof.
  unfold bind. rewrite unlink_unless_missing_eq.
  set (st1 := fst (fs_unlink (join Q rel) (fst w))).
  assert (Hnext : forall o,
            benign (Unlink (join Q rel), o) ->
            (match stored_assets_of es rel with
             | Err e => throw e
             | Ok l =>
                 forEach l (fun a =>
                   if negb (set_has (assetsStillReferenced S) a)
                   then unlink_unless_missing (join Q a) else ret tt)
             end) (st1, snd w ++ [(Unlink (join Q rel), o)]) = (w', r) ->
            exists evs,
              snd w' = snd w ++ evs /\
              match r with
              | Ok _ => Forall passed evs
              | Err e => stops_in_phase1 Q es [rel] e evs
              end).
  { intros o B H.
    assert (P : passed (Unlink (join Q rel), o))
      by (split; [reflexivity | now left]).
    destruct (stored_assets_of es rel) as [l|e0] eqn:A.
    - apply forEach_unreferenced_trace in H. destruct H as [evs [E H]].
      cbn [snd] in E. exists ((Unlink (join Q rel), o) :: evs).
      split; [rewrite E, <- app_assoc; reflexivity|].
      destruct r as [[]|e].
      + now constructor.
      + destruct H as [done [p [-> [F N]]]]. left.
        exists ((Unlink (join Q rel), o) :: done), p.
        split; [reflexivity|]. split; [now constructor | exact N].
    - unfold throw in H. injection H as <- <-.
      exists [(Unlink (join Q rel), o)]. split; [reflexivity|].
      right. exists rel, [], (Unlink (join Q rel), o).
      split; [now left|]. split; [exact A|].
      split; [reflexivity|]. split; [reflexivity|].
      constructor; [exact P | constructor]. }
  destruct (snd (fs_unlink (join Q rel) (fst w))) as [[]|e] eqn:U.
  - apply Hnext. now left.
  - destruct (is_ENOENT e) eqn:N.
    + apply Hnext. right. exists e. auto.
    + intros [= <- <-]. exists [(Unlink (join Q rel), Some e)].
      split; [reflexivity|]. left. exists [], (join Q rel).
      split; [reflexivity|]. split; [constructor | exact N].
Qed.

(** Phase 1 on a stored manifest. *)
Lemma deleteObsolete_stored_trace Q (S : snapshot) es w w' r :
  deleteObsolete_stored Q S es w = (w', r) ->
  exists evs,
    snd w' = snd w ++ evs /\
    match r with
    | Ok _ => Forall passed evs
    | Err e => stops_in_phase1 Q es (toDeleteMd_stored S es) e evs
    end.
Proof.
  unfold deleteObsolete_stored.
  generalize (toDeleteMd_stored S es) as rels. intros rels. revert w.
  induction rels as [|rel rels IH]; intros w.
  - simpl. intros [= <- <-]. exists []. rewrite app_nil_r. split; constructor.
  - cbn [forEach]. unfold bind at 1.
    match goal with
    | |- context [match ?a w with _ => _ end] =>
        destruct (a w) as [w1 [[]|e1]] eqn:R
    end; apply deleteObsolete_round in R; destruct R as [evs1 [E1 R]].
    + intros H. apply IH in H. destruct H as [evs [E H]].
      exists (evs1 ++ evs). split; [rewrite E, E1, app_assoc; reflexivity|].
      destruct r as [[]|e].
      * now apply Forall_app.
      * now apply stops_in_phase1_later.
    + intros [= <- <-]. exists evs1. split; [exact E1|].
      destruct R as [[done [p [-> [F N]]]] |
                     [rel0 [done [ev [I [A [-> [U F]]]]]]]].
      * left. exists done, p. auto.
      * right. exists rel0, done, ev. repeat split; auto.
        destruct I as [<- | []]. now left.
Qed.

(** The clean-up of the directories never rejects. *)
Lemma removeEmptyDirs_of_passed Q (rels : list jsstring) w :
  exists w' evs,
    removeEmptyDirs_of Q rels w = (w', Ok tt) /\
    snd w' = snd w ++ evs /\ Forall passed evs.
Proof.
  pose (m := map (fun rel => (rel, mkEntry 0 [])) rels : manifest).
  assert (K : toDeleteMd [] m = rels).
  { unfold toDeleteMd, m, Dict.keys. rewrite map_map. cbn [fst].
    rewrite map_id. clear. induction rels as [|x l IH]; [reflexivity|].
    cbn [filter]. change (negb (@Dict.has document [] x)) with true.
    cbv iota. now rewrite IH. }
  destruct (removeEmptyDirs_exact Q [] m w) as [w' [blocks [H [E F]]]].
  exists w', (concat blocks).
  unfold removeEmptyDirs in H. rewrite K in H.
  split; [exact H|]. split; [exact E|].
  eapply passed_dirs, dir_blocks_ops, F.
Qed.

(** How phase 2 can stop on a stored manifest: at a call that failed, or
    before the calls of a document whose stored assets cannot be
    iterated. *)
Lemma addOrUpdate_stored_trace Q I es (docs : list (jsstring * document))
  (acc : manifest) w w' r :
  addOrUpdate_stored Q I es docs acc w = (w', r) ->
  exists evs,
    snd w' = snd w ++ evs /\
    match r with
    | Ok _ => Forall passed evs
    | Err e =>
        (exists done o,
           evs = done ++ [(o, Some e)] /\ Forall passed done /\
           is_sync_op o = true) \/
        (Forall passed evs /\
         exists rel data, In (rel, data) docs /\ stored_prev es rel = Err e)
    end.
Proof.
  revert acc w. induction docs as [|[rel data] docs IH]; intros acc w.
  - simpl. intros [= <- <-]. exists []. rewrite app_nil_r. split; constructor.
  - cbn [addOrUpdate_stored].
    destruct (stored_prev es rel) as [prev|e0] eqn:P.
    2:{ intros [= <- <-]. exists []. rewrite app_nil_r. split; [reflexivity|].
        right. split; [constructor|]. exists rel, data. split; [now left|].
        exact P. }
    unfold bind at 1.
    match goal with
    | |- context [addOrUpdate Q I ?m1 ?d acc w] =>
        destruct (addOrUpdate Q I m1 d acc w) as [w1 [acc1|e1]] eqn:A;
        pose proof (sync_plan_ops Q I m1 d) as Hops;
        apply addOrUpdate_exact in A
    end.
    + destruct A as [E1 _]. intros H. apply IH in H.
      destruct H as [evs [E H]].
      eexists. split; [rewrite E, E1, <- app_assoc; reflexivity|].
      apply passed_plan in Hops.
      destruct r as [m'|e].
      * now apply Forall_app.
      * destruct H as [[done [o [-> [F S1]]]] | [F [rel0 [data0 [I0 P0]]]]].
        -- left. eexists. exists o. rewrite app_assoc.
           split; [reflexivity|]. split; [now apply Forall_app | exact S1].
        -- right. split; [now apply Forall_app|].
           exists rel0, data0. split; [now right | exact P0].
    + destruct A as [ops [o [rest [Ep E1]]]]. intros [= <- <-].
      rewrite Ep in Hops. apply Forall_app in Hops.
      destruct Hops as [Hops Ho]. inversion Ho as [|? ? Ho1 _]; subst.
      eexists. split; [exact E1|]. left.
      exists (map succeeded ops), o. split; [reflexivity|].
      split; [now apply passed_plan | exact Ho1].
Qed.

Lemma stored_assets_of_Err es (rel : jsstring) (e : error) :
  stored_assets_of es rel = Err e ->
  e = TypeError /\
  (Dict.get es rel = Some NullEntry \/
   exists mtime, Dict.get es rel = Some (StoredEntry mtime NotIterable)).
Proof.
  unfold stored_assets_of.
  destruct (Dict.get es rel) as [[|mt [l|]]|]; try discriminate.
  - intros [= <-]. auto.
  - intros [= <-]. split; [reflexivity|]. right. now exists mt.
Qed.

Lemma stored_prev_Err es (rel : jsstring) (e : error) :
  stored_prev es rel = Err e ->
  e = TypeError /\
  exists mtime, Dict.get es rel = Some (StoredEntry mtime NotIterable).
Proof.
  unfold stored_prev.
  destruct (Dict.get es rel) as [[|mt [l|]]|]; try discriminate.
  intros [= <-]. split; [reflexivity|]. now exists mt.
Qed.

Lemma toDeleteMd_stored_In (S : snapshot) es (rel : jsstring) :
  In rel (toDeleteMd_stored S es)
  <-> In rel (Dict.keys es) /\ ~ In rel (Dict.keys S).
Proof.
  unfold toDeleteMd_stored. rewrite filter_In, negb_true_iff.
  rewrite <- (dict_has_In S rel). split; intros [H1 H2]; split; auto.
  - now rewrite H2.
  - now apply not_true_is_false.
Qed.

(** How a run stops once the snapshot and the entries are there. *)
Lemma reconcile_stored_fails Q (S : snapshot) es w w' e :
  reconcile_stored Q S es w = (w', Err e) ->
  (exists rel done ev,
     In rel (Dict.keys es) /\ ~ In rel (Dict.keys S) /\
     (Dict.get es rel = Some NullEntry \/
      exists mtime, Dict.get es rel = Some (StoredEntry mtime NotIterable)) /\
     e = TypeError /\
     snd w' = snd w ++ done ++ [ev] /\ fst ev = Unlink (join Q rel) /\
     Forall passed (done ++ [ev])) \/
  (exists rel data mtime done,
     In (rel, data) S /\
     Dict.get es rel = Some (StoredEntry mtime NotIterable) /\
     e = TypeError /\
     snd w' = snd w ++ done /\ Forall passed done) \/
  (exists done o,
     snd w' = snd w ++ done ++ [(o, Some e)] /\
     Forall passed done /\
     is_dir_op o = false /\
     (forall p, o = Unlink p -> is_ENOENT e = false)).
Proof.
  unfold reconcile_stored. unfold bind at 1.
  destruct (deleteObsolete_stored Q S es w) as [w1 [[]|e1]] eqn:D;
    apply deleteObsolete_stored_trace in D; destruct D as [evs1 [E1 D]].
  2:{ intros [= <- <-].
      destruct D as [[done [p [-> [F N]]]] |
                     [rel [done [ev [I [A [-> [U F]]]]]]]].
      - right. right. exists done, (Unlink p).
        split; [exact E1|]. split; [exact F|].
        split; [reflexivity | intros _ _; exact N].
      - left. apply toDeleteMd_stored_In in I. destruct I as [I1 I2].
        apply stored_assets_of_Err in A. destruct A as [-> A].
        exists rel, done, ev. repeat split; auto. }
  unfold bind at 1.
  destruct (removeEmptyDirs_of_passed Q (toDeleteMd_stored S es) w1)
    as [w2 [evs2 [-> [E2 F2]]]].
  unfold bind at 1. rewrite call_eq.
  destruct (snd (fs_mkdir (join Q IMAGE) (fst w2))) as [[]|e0].
  2:{ intros [= <- <-]. right. right.
      exists (evs1 ++ evs2), (Mkdir (join Q IMAGE)).
      split; [cbn [snd]; rewrite E2, E1, <- !app_assoc; reflexivity|].
      split; [now apply Forall_app|].
      split; [reflexivity | intros p Hp; discriminate Hp]. }
  assert (P0 : passed (Mkdir (join Q IMAGE), None))
    by (split; [reflexivity | left; left; reflexivity]).
  unfold bind at 1.
  match goal with
  | |- context [addOrUpdate_stored Q (join Q IMAGE) es S [] ?w3] =>
      destruct (addOrUpdate_stored Q (join Q IMAGE) es S [] w3)
        as [w4 [m4|e4]] eqn:A
  end; apply addOrUpdate_stored_trace in A; cbn [snd] in A;
    destruct A as [evs4 [E4 A]].
  2:{ intros [= <- <-].
      destruct A as [[done [o [-> [F4 S4]]]] | [F4 [rel [data [I4 P4]]]]].
      - right. right.
        exists (evs1 ++ evs2 ++ (Mkdir (join Q IMAGE), None) :: done), o.
        split; [rewrite E4, E2, E1; cbn [app]; rewrite <- !app_assoc;
                reflexivity|].
        split.
        + apply Forall_app. split; [assumption|].
          apply Forall_app. split; [assumption|]. now constructor.
        + split; [now destruct o|]. intros p ->. discriminate S4.
      - right. left. apply stored_prev_Err in P4.
        destruct P4 as [-> [mt G]].
        exists rel, data, mt,
          (evs1 ++ evs2 ++ (Mkdir (join Q IMAGE), None) :: evs4).
        split; [exact I4|]. split; [exact G|]. split; [reflexivity|].
        split; [rewrite E4, E2, E1; cbn [app]; rewrite <- !app_assoc;
                reflexivity|].
        apply Forall_app. split; [assumption|].
        apply Forall_app. split; [assumption|]. now constructor. }
  unfold bind at 1, writeManifest. rewrite call_eq.
  match goal with
  | |- context [snd (fs_writeManifest ?x ?st)] =>
      destruct (snd (fs_writeManifest x st)) as [[]|e5]
  end; [discriminate|].
  intros [= <- <-]. right. right.
  exists (evs1 ++ evs2 ++ (Mkdir (join Q IMAGE), None) :: evs4),
    (WriteManifest m4).
  split; [cbn [snd]; rewrite E4, E2, E1; cbn [app]; rewrite <- !app_assoc;
          reflexivity|].
  split.
  - apply Forall_app. split; [assumption|].
    apply Forall_app. split; [assumption|]. now constructor.
  - split; [reflexivity | intros p Hp; discriminate Hp].
Qed.

(** X9. A run that fails has made no call at all, the snapshot having
    failed or the manifest file holding [null]; or it stopped at the call
    that failed: that call is the last one, it is no directory clean-up
    and no unlink failing with [ENOENT]; or it stopped with a [TypeError]
    on an entry of the manifest file, right after the unlink of a document
    being deleted whose entry is [null] or has assets that cannot be
    iterated, or before the calls of a document of the snapshot whose
    entry has such assets.  In every case each call before the failure
    succeeded or was tolerated, and none of them wrote the manifest.
    [file] is what the manifest file holds; on a file the engine wrote, or
    none, [run_stored] is [run] ([run_stored_written]). *)
Theorem failed_run_stops_at_the_failure O Q (file : stored) w w' e :
  run_stored O Q file w = (w', Err e) ->
  (getPublishableSet O = Err e /\ w' = w) \/
  (exists S,
     getPublishableSet O = Ok S /\
     ((file = NullManifest /\ e = TypeError /\ w' = w) \/
      (exists es rel done ev,
         file = Entries es /\
         In rel (Dict.keys es) /\ ~ In rel (Dict.keys S) /\
         (Dict.get es rel = Some NullEntry \/
          exists mtime,
            Dict.get es rel = Some (StoredEntry mtime NotIterable)) /\
         e = TypeError /\
         snd w' = snd w ++ done ++ [ev] /\ fst ev = Unlink (join Q rel) /\
         Forall passed (done ++ [ev])) \/
      (exists es rel data mtime done,
         file = Entries es /\
         In (rel, data) S /\
         Dict.get es rel = Some (StoredEntry mtime NotIterable) /\
         e = TypeError /\
         snd w' = snd w ++ done /\ Forall passed done) \/
      (exists done o,
         snd w' = snd w ++ done ++ [(o, Some e)] /\
         Forall passed done /\
         is_dir_op o = false /\
         (forall p, o = Unlink p -> is_ENOENT e = false)))).
Proof.
  unfold run_stored. destruct (getPublishableSet O) as [S|e'].
  2:{ intros [= <- <-]. left. auto. }
  intros H. right. exists S. split; [reflexivity|].
  destruct file as [| |es].
  - apply reconcile_stored_fails in H.
    destruct H as [[rel [done [ev [[] _]]]] |
                   [[rel [data [mt [done [_ [G _]]]]]] | H]];
      [discriminate G | auto].
  - injection H as <- <-. left. auto.
  - apply reconcile_stored_fails in H.
    destruct H as [[rel [done [ev H]]] |
                   [[rel [data [mt [done H]]]] | H]].
    + right. left. exists es, rel, done, ev. tauto.
    + right. right. left. exists es, rel, data, mt, done. tauto.
    + auto.
Qed.

End StoredRuns.

Section RunProperties.
Context {lib : NodeLib} {src : SourceTree} {dst : DestFS}.

(** X8. The calls of a run that succeeds, in order: the unlinks of phase
    1, each succeeding or failing with [ENOENT]; the clean-up of the
    directories; then, all succeeding, the creation of the image
    directory, for each document that is not skipped the creation of its
    directory, the copy of each of its assets and the write of its
    converted text, and last the write of the manifest. *)
Theorem successful_run_calls O Q w w' m' :
  run O Q w = (w', Ok m') ->
  exists S del blocks,
    getPublishableSet O = Ok S /\
    snd w' = snd w ++ del ++ concat blocks
             ++ map succeeded
                  (Mkdir (join Q IMAGE)
                   :: sync_plan Q (join Q IMAGE) (fs_readManifest (fst w)) S
                   ++ [WriteManifest m']) /\
    map fst del = map Unlink (delete_paths Q S (fs_readManifest (fst w))) /\
    Forall benign del /\
    Forall2 (fun d evs => dir_events (join Q d) evs)
            (dirsToCheck S (fs_readManifest (fst w))) blocks.
Proof.
  rewrite run_eq. destruct (getPublishableSet O) as [S|e]; [|discriminate].
  intros H. apply reconcile_exact in H.
  destruct H as [del [blocks [E [P [B [F _]]]]]].
  exists S, del, blocks. auto.
Qed.

(** X10. The manifest a run that succeeds has written has the keys of the
    snapshot, in its order; the entry of a document records a time that is
    not before the document's and the destination assets the document has
    now; it is the new entry of the document or the entry the manifest
    had. *)
Theorem manifest_after_run O Q w w' m' :
  run O Q w = (w', Ok m') ->
  exists S,
    getPublishableSet O = Ok S /\
    Dict.keys m' = Dict.keys S /\
    forall rel data,
      In (rel, data) S ->
      exists e,
        Dict.get m' rel = Some e /\
        (mtime data <= e_mtime e)%Z /\
        (forall a, In a (e_assets e) <-> In a (current_assets data)) /\
        (e = mkEntry (mtime data) (current_assets data) \/
         Dict.get (fs_readManifest (fst w)) rel = Some e).
Proof.
  rewrite run_eq. destruct (getPublishableSet O) as [S|e] eqn:G; [|discriminate].
  intros H. apply reconcile_trace in H. destruct H as [evs [_ [_ P]]].
  rewrite (P m' eq_refl). clear P.
  pose proof (getPublishableSet_NoDup _ G) as Hnd.
  exists S. split; [reflexivity|]. split.
  - apply (@nextManifest_keys_eq (fs_readManifest (fst w)) S []). exact Hnd.
  - intros rel data Hin.
    exists (new_entry (fs_readManifest (fst w)) rel data).
    split; [now apply nextManifest_get|].
    destruct (new_entry_covers (fs_readManifest (fst w)) rel data) as [H1 H2].
    split; [exact H1|]. split; [exact H2|].
    unfold new_entry.
    destruct (Dict.get (fs_readManifest (fst w)) rel) as [p|]; [|now left].
    destruct (needsSync (Some p) data); [now left | now right].
Qed.

End RunProperties.

(** X7. Phase 2 skips a document exactly when the manifest has an entry
    for it, the document is not newer than the entry records, and the
    entry lists the same destination assets as the document has now,
    whatever their order and repetition.  A document older than recorded
    is skipped. *)
Theorem needsSync_iff (prev : option entry) (data : document) :
  needsSync prev data = false
  <-> exists p,
        prev = Some p /\ (mtime data <= e_mtime p)%Z /\
        forall a, In a (e_assets p) <-> In a (current_assets data).
Proof.
  destruct prev as [p|].
  - rewrite needsSync_false_iff. split.
    + intros H. exists p. split; [reflexivity | exact H].
    + intros [q [[= <-] H]]. exact H.
  - split; [discriminate|]. intros [p [H _]]. discriminate H.
Qed.

Section CleanupProperties.
Context {lib : NodeLib} {dst : DestFS}.

Lemma dirsToCheck_In (S : snapshot) (m : manifest) (d : jsstring) :
  In d (dirsToCheck S m)
  <-> d <> [] /\ d <> lit "." /\
      exists rel, In rel (toDeleteMd S m) /\ d = dirname rel.
Proof.
  unfold dirsToCheck. rewrite filter_In, set_of_In, in_map_iff.
  rewrite negb_true_iff, orb_false_iff, !str_eqb_neq.
  split.
  - intros [[rel [<- Hrel]] [H1 H2]]. eauto.
  - intros [H1 [H2 [rel [Hrel ->]]]]. eauto.
Qed.

(** X11. The clean-up of phase 1 looks once into the directory of each
    deleted document, except for documents at the root ([.]) -- not into
    the directories above it --, removes a directory only after its
    listing came back empty, and never rejects. *)
Theorem directory_cleanup Q (S : snapshot) (m : manifest) w :
  (forall d, In d (dirsToCheck S m)
             <-> d <> [] /\ d <> lit "." /\
                 exists rel, In rel (toDeleteMd S m) /\ d = dirname rel) /\
  NoDup (dirsToCheck S m) /\
  exists w' blocks,
    removeEmptyDirs Q S m w = (w', Ok tt) /\
    snd w' = snd w ++ concat blocks /\
    Forall2 (fun d evs => dir_events (join Q d) evs) (dirsToCheck S m) blocks.
Proof.
  split; [apply dirsToCheck_In|]. split.
  - apply NoDup_filter, set_of_NoDup.
  - apply removeEmptyDirs_exact.
Qed.

End CleanupProperties.

(* ------------------------------------------------------------------ *)
(** ** The task log of the dashboard *)

Import Dashboard.

Lemma removelast_length X (l : list X) :
  length (removelast l) = length l - 1.
Proof.
  induction l as [|x [|y l] IH]; [reflexivity | reflexivity|].
  change (removelast (x :: y :: l)) with (x :: removelast (y :: l)).
  cbn [length] in *. rewrite IH. lia.
Qed.

Lemma removelast_firstn_length X (l : list X) :
  removelast l = firstn (length l - 1) l.
Proof.
  induction l as [|x [|y l] IH]; [reflexivity | reflexivity|].
  change (removelast (x :: y :: l)) with (x :: removelast (y :: l)).
  rewrite IH. cbn [length]. rewrite !Nat.sub_succ, Nat.sub_0_r.
  reflexivity.
Qed.

(** Within the bound, appending keeps the newest entries. *)
Lemma appendLog_firstn now type result error (taskLogs : list log) :
  length taskLogs <= MAX_TASK_LOGS ->
  appendLog now type result error taskLogs
  = firstn MAX_TASK_LOGS (mkLog type now result error :: taskLogs).
Proof.
  intros H. unfold appendLog. cbv zeta.
  destruct (Nat.ltb MAX_TASK_LOGS
              (length (mkLog type now result error :: taskLogs))) eqn:E.
  - apply Nat.ltb_lt in E. rewrite removelast_firstn_length.
    f_equal. cbn [length] in *. lia.
  - apply Nat.ltb_ge in E. symmetry. now apply firstn_all2.
Qed.

Lemma assign_length X (l : list X) idx (f : X -> X) :
  length (assign l idx f) = length l.
Proof.
  revert idx. induction l as [|x l IH]; intros [|i]; simpl; auto.
Qed.

Lemma updateLastRunningLog_length type result error (taskLogs : list log) :
  length (updateLastRunningLog type result error taskLogs) = length taskLogs.
Proof.
  unfold updateLastRunningLog.
  destruct (findIndex (is_running type) taskLogs); [|reflexivity].
  apply assign_length.
Qed.

Lemma apply_call_bounded (taskLogs : list log) (c : log_call) :
  length taskLogs <= MAX_TASK_LOGS ->
  length (apply_call taskLogs c) <= MAX_TASK_LOGS.
Proof.
  intros H. destruct c as [now type result error | type result error];
    cbn [apply_call].
  - rewrite appendLog_firstn by exact H. apply firstn_le_length.
  - now rewrite updateLastRunningLog_length.
Qed.

Lemma findIndex_first X (p : X -> bool) (pre : list X) (x : X)
  (post : list X) :
  (forall y, In y pre -> p y = false) -> p x = true ->
  findIndex p (pre ++ x :: post) = Some (length pre).
Proof.
  intros Hpre Hx. induction pre as [|y pre IH]; simpl.
  - now rewrite Hx.
  - rewrite (Hpre y (or_introl eq_refl)), IH; [reflexivity|].
    intros z Hz. apply Hpre. now right.
Qed.

Lemma findIndex_none X (p : X -> bool) (l : list X) :
  (forall y, In y l -> p y = false) -> findIndex p l = None.
Proof.
  intros H. induction l as [|y l IH]; [reflexivity|]. simpl.
  rewrite (H y (or_introl eq_refl)), IH; [reflexivity|].
  intros z Hz. apply H. now right.
Qed.

Lemma assign_middle X (pre : list X) (x : X) (post : list X) (f : X -> X) :
  assign (pre ++ x :: post) (length pre) f = pre ++ f x :: post.
Proof. induction pre as [|y pre IH]; simpl; [reflexivity | now rewrite IH]. Qed.

(** X14. Whatever calls of [appendLog] and [updateLastRunningLog] are made
    on the task log, which starts empty, it never holds more than
    [MAX_TASK_LOGS] entries. *)
Theorem taskLogs_bounded (calls : list log_call) :
  length (fold_left apply_call calls []) <= MAX_TASK_LOGS.
Proof.
  assert (H : forall logs, length logs <= MAX_TASK_LOGS ->
                length (fold_left apply_call calls logs) <= MAX_TASK_LOGS).
  { induction calls as [|c calls IH]; intros logs Hl; [exact Hl|].
    cbn [fold_left]. apply IH. now apply apply_call_bounded. }
  apply H. cbn [length]. unfold MAX_TASK_LOGS. lia.
Qed.

(** X15. [updateLastRunningLog] sets the result and the error of the
    newest entry of the given type that is still running, and changes
    nothing else; with no such entry the log is left as it is; called
    after [appendLog] of a running entry of that type, it marks that
    entry. *)
Theorem updateLastRunningLog_marks_newest type result error :
  (forall pre l post,
     (forall x, In x pre -> is_running type x = false) ->
     is_running type l = true ->
     updateLastRunningLog type result error (pre ++ l :: post)
     = pre ++ mkLog (l_type l) (l_at l) result error :: post) /\
  (forall taskLogs,
     (forall x, In x taskLogs -> is_running type x = false) ->
     updateLastRunningLog type result error taskLogs = taskLogs) /\
  (forall now taskLogs,
     updateLastRunningLog type result error
       (appendLog now type RUNNING None taskLogs)
     = mkLog type now result error
       :: tl (appendLog now type RUNNING None taskLogs)).
Proof.
  split; [|split].
  - intros pre l post Hpre Hl. unfold updateLastRunningLog.
    rewrite findIndex_first by assumption. apply assign_middle.
  - intros taskLogs H. unfold updateLastRunningLog.
    now rewrite findIndex_none.
  - intros now taskLogs. unfold appendLog. cbv zeta.
    assert (Hr : is_running type (mkLog type now RUNNING None) = true).
    { unfold is_running. cbn [l_type l_result]. now rewrite !str_eqb_refl. }
    destruct (Nat.ltb MAX_TASK_LOGS _) eqn:E.
    + destruct taskLogs as [|x taskLogs]; [discriminate E|].
      change (removelast (mkLog type now RUNNING None :: x :: taskLogs))
        with (mkLog type now RUNNING None :: removelast (x :: taskLogs)).
      unfold updateLastRunningLog. cbn [findIndex]. rewrite Hr. reflexivity.
    + unfold updateLastRunningLog. cbn [findIndex]. rewrite Hr. reflexivity.
Qed.

Example taskLogs_examples :
  let start := appendLog (lit "t1") (lit "sync") RUNNING None [] in
  let cron := appendLog (lit "t2") (lit "cron") RUNNING None start in
  updateLastRunningLog (lit "sync") (lit "success") None cron
  = [mkLog (lit "cron") (lit "t2") RUNNING None;
     mkLog (lit "sync") (lit "t1") (lit "success") None] /\
  updateLastRunningLog (lit "publish") (lit "fail") None cron = cron.
Proof. vm_compute. split; reflexivity. Qed.

(* ------------------------------------------------------------------ *)
(** ** The engine on the example trees *)

(** The first scenario of the specification: one document with one
    embed, against an empty manifest; then the document is unpublished. *)
Example scenario_publish :
  m_files (after src_one empty_dest)
  = [(lit "content/image/pic-1.png", lit "obsidian/image/pic 1.png");
     (lit "content/a.md",
      header (KEY_KEFABU ++ lit ": true") (lit "![](../image/pic-1.png)"))]
  /\ snd (run_on src_one empty_dest) = Ok manifest_one
  /\ m_files (after src_one_off (after src_one empty_dest)) = []
  /\ snd (run_on src_one_off (after src_one empty_dest)) = Ok [].
Proof. repeat split; vm_compute; reflexivity. Qed.

(** The shared asset stays while one of its two documents is published
    and goes with the second. *)
Example scenario_shared_asset :
  let d1 := after (src_two true true) empty_dest in
  let d2 := after (src_two false true) d1 in
  let d3 := after (src_two false false) d2 in
  Dict.has (m_files d1) (lit "content/image/shared.png") = true /\
  Dict.has (m_files d2) (lit "content/image/shared.png") = true /\
  Dict.has (m_files d2) (lit "content/a.md") = false /\
  Dict.has (m_files d3) (lit "content/image/shared.png") = false.
Proof. repeat split; vm_compute; reflexivity. Qed.

(** A file of the destination's own survives a run. *)
Example scenario_foreign_file :
  Dict.get (m_files (after src_one dest_with_index)) (lit "content/index.md")
  = Some (lit "home").
Proof. vm_compute. reflexivity. Qed.

(** C1 does not hold as stated.  The embed of [a.md] names, through
    [..], the place the first run gives to the copy of [a.md] itself.  The
    first run finds nothing there and drops the reference; it completes
    and stores its manifest; no file under the source root has changed.
    The second run finds the file the first one wrote, copies it to the
    image directory, writes the document again, and stores a manifest
    with another entry. *)
Lemma second_run_copies_what_the_first_wrote :
  Disk.calls_of Disk.disk_loop
  = [(Mkdir (lit "content/image"), None);
     (Mkdir (lit "content"), None);
     (WriteFile (lit "content/a.md")
        (Disk.publishable_doc (lit "![](../image/a.md)")), None);
     (WriteManifest [(lit "a.md", mkEntry 5 [])], None)] /\
  snd (Disk.run_from Disk.disk_loop) = Ok [(lit "a.md", mkEntry 5 [])] /\
  Disk.d_manifest (Disk.disk_after Disk.disk_loop)
  = [(lit "a.md", mkEntry 5 [])] /\
  Disk.source_files (Disk.disk_after Disk.disk_loop)
  = Disk.source_files Disk.disk_loop /\
  Disk.calls_of (Disk.disk_after Disk.disk_loop)
  = [(Mkdir (lit "content/image"), None);
     (Mkdir (lit "content"), None);
     (CopyFile (lit "content/a.md") (lit "content/image/a.md"), None);
     (WriteFile (lit "content/a.md")
        (Disk.publishable_doc (lit "![](../image/a.md)")), None);
     (WriteManifest [(lit "a.md", mkEntry 5 [lit "image/a.md"])], None)] /\
  snd (Disk.run_from (Disk.disk_after Disk.disk_loop))
  = Ok [(lit "a.md", mkEntry 5 [lit "image/a.md"])].
Proof. repeat split; vm_compute; reflexivity. Qed.

(** C3 does not hold as stated.  A run that fails at the second document
    has already written over [content/a.md], a file written by hand that
    the loaded manifest, which is empty, does not record; the run writes
    no manifest.  And a run that completes has copied from
    [content/index.md], a file written by hand that neither the loaded
    manifest nor the manifest it writes records, because an embed names
    it through [..]. *)
Lemma run_touches_unrecorded_files :
  (Disk.d_manifest Disk.disk_hand = [] /\
   Dict.get (Disk.d_files Disk.disk_hand) (lit "content/a.md")
   = Some (lit "written by hand", 1%Z) /\
   Disk.calls_of Disk.disk_hand
   = [(Mkdir (lit "content/image"), None);
      (Mkdir (lit "content"), None);
      (WriteFile (lit "content/a.md") (Disk.publishable_doc (lit "one")),
       None);
      (Mkdir (lit "content"), None);
      (WriteFile (lit "content/b.md") (Disk.publishable_doc (lit "two")),
       Some EACCES)] /\
   snd (Disk.run_from Disk.disk_hand) = Err EACCES /\
   Disk.d_manifest (Disk.disk_after Disk.disk_hand) = [] /\
   Dict.get (Disk.d_files (Disk.disk_after Disk.disk_hand))
            (lit "content/a.md")
   = Some (Disk.publishable_doc (lit "one"), 9%Z)) /\
  (Disk.d_manifest Disk.disk_index = [] /\
   snd (Disk.run_from Disk.disk_index)
   = Ok [(lit "a.md", mkEntry 5 [lit "image/index.md"])] /\
   In (CopyFile (lit "content/index.md") (lit "content/image/index.md"), None)
      (Disk.calls_of Disk.disk_index) /\
   ~ @recorded Disk.d_lib CONTENT
       [(lit "a.md", mkEntry 5 [lit "image/index.md"])]
       (lit "content/index.md")).
Proof.
  split.
  - repeat split; vm_compute; reflexivity.
  - split; [reflexivity|]. split; [vm_compute; reflexivity|].
    split; [vm_compute; auto|].
    intros [[rel [Hrel Hp]] | [rel [e [a [Hin [Ha Hp]]]]]].
    + destruct Hrel as [<- | []]. vm_compute in Hp. discriminate Hp.
    + destruct Hin as [[= <- <-] | []]. destruct Ha as [<- | []].
      destruct Hp as [Hp | [name [Hn Hp]]].
      * vm_compute in Hp. discriminate Hp.
      * injection Hn as <-. vm_compute in Hp. discriminate Hp.
Qed.

Lemma second_run_is_idle_witness :
  snd (@run Disk.d_lib (Disk.seen (Disk.disk_after Disk.disk_one)) Disk.store
         OBSIDIAN CONTENT (fst (Disk.run_from Disk.disk_one)))
  = Ok manifest_one.
Proof.
  pose (w1 := fst (Disk.run_from Disk.disk_one)).
  pose (second := @run Disk.d_lib (Disk.seen (Disk.disk_after Disk.disk_one))
                    Disk.store OBSIDIAN CONTENT w1).
  assert (H1 : @run Disk.d_lib (Disk.seen Disk.disk_one) Disk.store
                 OBSIDIAN CONTENT (Disk.disk_one, []) = (w1, Ok manifest_one))
    by (vm_compute; reflexivity).
  assert (H2 : @fs_readManifest Disk.store (fst w1) = manifest_one)
    by (vm_compute; reflexivity).
  assert (H3 : @same_reads Disk.d_lib (Disk.seen Disk.disk_one)
                 (Disk.seen (Disk.disk_after Disk.disk_one)) OBSIDIAN).
  { split; [vm_compute; reflexivity|]. split; [vm_compute; reflexivity|].
    intros candidates full rel Hl Hin.
    vm_compute in Hl. injection Hl as <-.
    destruct Hin as [[= <- <-] | []].
    split; [vm_compute; reflexivity|]. split; [vm_compute; reflexivity|].
    intros text r p Ht _ Hr Hp.
    vm_compute in Ht. injection Ht as <-.
    vm_compute in Hr. destruct Hr as [<- | []].
    vm_compute in Hp.
    destruct Hp as [<- | [<- | [<- | []]]]; vm_compute; reflexivity. }
  destruct (@second_run_is_idle Disk.d_lib Disk.store
              (Disk.seen Disk.disk_one)
              (Disk.seen (Disk.disk_after Disk.disk_one))
              OBSIDIAN CONTENT (Disk.disk_one, []) w1 manifest_one H1 H2 H3
              (fst second) (snd second)) as [_ [_ H]].
  { apply surjective_pairing. }
  destruct (H (fst (@fs_mkdir Disk.store (@join Disk.d_lib CONTENT IMAGE)
                      (fst w1)))
              (fst (@fs_writeManifest Disk.store manifest_one
                      (fst (@fs_mkdir Disk.store
                              (@join Disk.d_lib CONTENT IMAGE) (fst w1))))))
    as [_ Hr]; [vm_compute; reflexivity | vm_compute; reflexivity |].
  exact Hr.
Defined.


Lemma run_no_clobber_witness :
  exists evs,
    Disk.calls_of Disk.disk_with_index = [] ++ evs /\
    forall ev, In ev evs ->
      file_target (fst ev) <> Some (lit "content/index.md") /\
      forall to, fst ev <> CopyFile (lit "content/index.md") to.
Proof.
  destruct (@run_no_clobber Disk.d_lib (Disk.seen Disk.disk_with_index)
              Disk.store OBSIDIAN CONTENT (Disk.disk_with_index, [])
              (fst (Disk.run_from Disk.disk_with_index))
              (snd (Disk.run_from Disk.disk_with_index)))
    as [evs [E [_ [_ [C [H _]]]]]].
  { apply surjective_pairing. }
  exists evs. split; [exact E|].
  intros ev Hev. split.
  - revert ev Hev. apply H.
    + intros [[rel [[] _]] | [rel [e [a [[] _]]]]].
    + intros S HS. vm_compute in HS. injection HS as <-.
      intros [[rel [Hrel Hp]] | [rel [d [x [Hin [Hx Hp]]]]]].
      * destruct Hrel as [<- | []]. vm_compute in Hp. discriminate Hp.
      * destruct Hin as [[= <- <-] | []].
        destruct Hx as [<- | []]. vm_compute in Hp. discriminate Hp.
  - intros to Hc.
    destruct (C ev _ to Hev Hc)
      as [S [rel [data [x [HS [Hin [Hx [_ [Hfrom _]]]]]]]]].
    vm_compute in HS. injection HS as <-.
    destruct Hin as [[= <- <-] | []]. destruct Hx as [<- | []].
    vm_compute in Hfrom. discriminate Hfrom.
Defined.

Lemma delete_phase_failure_policy_witness :
  snd (@reconcile lib (dest src_empty) CONTENT []
         (m_manifest (dest_notes [lit "content/notes/a.md"]))
         (dest_notes [lit "content/notes/a.md"], []))
  = Err EACCES.
Proof.
  destruct (@delete_phase_failure_policy lib (dest src_empty) CONTENT []
              (m_manifest (dest_notes [lit "content/notes/a.md"]))
              (dest_notes [lit "content/notes/a.md"], []))
    as [_ [H _]].
  specialize (H _ _ (surjective_pairing _)).
  destruct H as [evs [_ H]].
  assert (Hd : snd (@deleteObsolete lib (dest src_empty) CONTENT []
                      (m_manifest (dest_notes [lit "content/notes/a.md"]))
                      (dest_notes [lit "content/notes/a.md"], []))
               = Err EACCES) by (vm_compute; reflexivity).
  rewrite Hd in H. destruct H as [evs0 [p [_ [_ [_ Hr]]]]].
  rewrite Hr. reflexivity.
Defined.

(** C7 as stated fails for the removal of an emptied directory: [rmdir]
    is refused with [EACCES], which is not [ENOENT], and the run does not
    reject; it goes on and writes the manifest. *)
Lemma rmdir_failure_does_not_abort :
  snd (fst (run_on src_empty (dest_notes [lit "content/notes"])))
  = [(Unlink (lit "content/notes/a.md"), None);
     (Readdir (lit "content/notes"), None);
     (Rmdir (lit "content/notes"), Some EACCES);
     (Mkdir (lit "content/image"), None);
     (WriteManifest [], None)] /\
  is_ENOENT EACCES = false /\
  snd (run_on src_empty (dest_notes [lit "content/notes"])) = Ok [].
Proof. repeat split; vm_compute; reflexivity. Qed.

(** A reference that differs from the stored name in case and spacing is
    found in the listing of the image directory; one with an extension
    that names no file is dropped. *)
Lemma findAssetFile_on_drift :
  @findAssetFile lib (tree src_drift) OBSIDIAN (lit "notes")
    (lit "Pic 1.PNG") = Some (lit "obsidian/image/pic-1.png") /\
  @findAssetFile lib (tree src_drift) OBSIDIAN (lit "notes")
    (lit "gone.png") = None /\
  Dict.has (snapshot_of src_drift) (lit "notes/a.md") = true.
Proof.
  split; [|split].
  - destruct (@findAssetFile_resolution_order lib (tree src_drift)
                OBSIDIAN (lit "notes") (lit "Pic 1.PNG"))
      as [_ [_ [_ [H _]]]].
    destruct H as [H _]; [reflexivity | reflexivity | reflexivity |].
    apply (H [] (lit "pic-1.png") []).
    + reflexivity.
    + intros g [].
    + vm_compute. reflexivity.
  - destruct (@findAssetFile_resolution_order lib (tree src_drift)
                OBSIDIAN (lit "notes") (lit "gone.png"))
      as [_ [_ [_ [H _]]]].
    destruct H as [_ [H _]]; [reflexivity | reflexivity | reflexivity |].
    apply (H [lit "pic-1.png"]); [reflexivity|].
    intros g [<- | []]. vm_compute. discriminate.
  - destruct (@findAssetFile_resolution_order lib (tree src_drift)
                OBSIDIAN (lit "notes") (lit "gone.png"))
      as [_ [_ [_ [_ H]]]].
    destruct H as [_ [_ H]]; [vm_compute; reflexivity|].
    apply (H [(lit "obsidian/notes/a.md", lit "notes/a.md")]
             (lit "obsidian/notes/a.md") (lit "notes/a.md")
             (header (KEY_KEFABU ++ lit ": true")
                     (lit "![[Pic 1.PNG]] ![[gone.png]]"))).
    + reflexivity.
    + now left.
    + reflexivity.
    + vm_compute. reflexivity.
    + vm_compute. reflexivity.
    + vm_compute. right. now left.
    + vm_compute. reflexivity.
Defined.

Lemma extractAssetRefs_http_prefix_witness :
  ~ In (lit "httpdocs/a.png")
       (extractAssetRefs (lit "![a](httpdocs/a.png)")) /\
  In (lit "httpdocs/a.png")
     (extractAssetRefs (lit "see ![[httpdocs/a.png]] and ![[b c.png]]")).
Proof.
  destruct (@extractAssetRefs_http_prefix lib (tree src_empty)
              (lit "![a](httpdocs/a.png)") (lit "httpdocs/a.png") eq_refl)
    as [_ [H [_ [_ P]]]].
  split.
  - intros Hin. apply H in Hin. vm_compute in Hin. exact Hin.
  - destruct (P [(lit "see ", lit "httpdocs/a.png");
                 (lit " and ", lit "b c.png")] []) as [_ Q].
    + repeat constructor; try discriminate.
    + reflexivity.
    + apply (Q (lit "httpdocs/a.png")). now left.
Defined.

Lemma hasPublishableFrontmatter_iff_witness :
  exists block,
    header_block doc_publishable block /\ sets_publishable block.
Proof.
  apply (proj1 (hasPublishableFrontmatter_iff doc_publishable)).
  vm_compute. reflexivity.
Defined.

(* ------------------------------------------------------------------ *)
(** ** The traversal and the run on the examples *)

Import TestTree.

(** The hidden directory is not read, so that it cannot be read does no
    harm; the image directory is skipped; a hidden document is listed; the
    extension is matched with its case; a link is skipped; a directory
    whose name ends in [.md] is gone into and not listed. *)
Example traversal_examples :
  listMdFiles OBSIDIAN OBSIDIAN vault
  = Ok [(lit "obsidian/a.md", lit "a.md");
        (lit "obsidian/.draft.md", lit ".draft.md");
        (lit "obsidian/notes/b.md", lit "notes/b.md");
        (lit "obsidian/notes/old.md/c.md", lit "notes/old.md/c.md")] /\
  listMdFiles OBSIDIAN OBSIDIAN vault_locked = Err EACCES /\
  listMdFiles OBSIDIAN OBSIDIAN File = Err ENOTDIR.
Proof. vm_compute. repeat split. Qed.

Lemma listMdFiles_lists_witness :
  exists dirs name,
    at_path vault (dirs ++ [name]) File /\ Forall visible dirs /\
    endsWith (lit ".md") name = true /\
    lit "obsidian/notes/b.md" = below OBSIDIAN (dirs ++ [name]) /\
    lit "notes/b.md"
    = replace_class (N.eqb BACKSLASH) (lit "/")
        (relative OBSIDIAN (lit "obsidian/notes/b.md")).
Proof.
  apply (proj1 (@listMdFiles_lists lib rel_lib OBSIDIAN OBSIDIAN vault
                  [(lit "obsidian/a.md", lit "a.md");
                   (lit "obsidian/.draft.md", lit ".draft.md");
                   (lit "obsidian/notes/b.md", lit "notes/b.md");
                   (lit "obsidian/notes/old.md/c.md",
                    lit "notes/old.md/c.md")]
                  ltac:(vm_compute; reflexivity)
                  (lit "obsidian/notes/b.md") (lit "notes/b.md"))).
  right; right; left. reflexivity.
Defined.

Lemma convertContentForQuartz_without_embed_witness :
  convertContentForQuartz (lit "see ![alt](pic 1.png) [[note]]")
    [mkAsset (lit "pic 1.png") (lit "pic 1.png") (lit "pic-1.png")
             (lit "obsidian/image/pic 1.png")]
  = lit "see ![alt](pic 1.png) [[note]]".
Proof.
  apply convertContentForQuartz_without_embed. vm_compute. reflexivity.
Defined.

Lemma snapshot_is_the_publishable_documents_witness :
  exists candidates,
    @src_listMdFiles (tree src_one_off) OBSIDIAN = Ok candidates /\
    candidates <> [] /\
    forall rel, ~ In rel (Dict.keys (snapshot_of src_one_off)).
Proof.
  destruct (@snapshot_is_the_publishable_documents lib (tree src_one_off)
              OBSIDIAN (snapshot_of src_one_off)
              ltac:(vm_compute; reflexivity))
    as [candidates [L [K _]]].
  exists candidates. split; [exact L|]. split.
  - vm_compute in L. injection L as <-. discriminate.
  - intros rel Hin. vm_compute in Hin. exact Hin.
Defined.

Lemma successful_run_calls_witness :
  exists S del blocks,
    @getPublishableSet lib (tree src_one) OBSIDIAN = Ok S /\
    snd (fst (run_on src_one empty_dest))
    = [] ++ del ++ concat blocks
      ++ map succeeded
           (Mkdir (join CONTENT IMAGE)
            :: sync_plan CONTENT (join CONTENT IMAGE) [] S
            ++ [WriteManifest manifest_one]).
Proof.
  destruct (@successful_run_calls lib (tree src_one) (dest src_one)
              OBSIDIAN CONTENT (empty_dest, [])
              (fst (run_on src_one empty_dest)) manifest_one
              ltac:(vm_compute; reflexivity))
    as [S [del [blocks [G [E _]]]]].
  exists S, del, blocks. split; [exact G | exact E].
Defined.

Lemma failed_run_stops_at_the_failure_witness :
  (exists done o,
     snd (fst (@run_stored lib (tree src_empty) (dest src_empty)
                 OBSIDIAN CONTENT
                 (stored_of (m_manifest (dest_notes [lit "content/notes/a.md"])))
                 (dest_notes [lit "content/notes/a.md"], [])))
     = [] ++ done ++ [(o, Some EACCES)] /\
     Forall passed done) /\
  (exists done ev,
     snd (fst (@run_stored lib (tree src_empty) (dest src_empty)
                 OBSIDIAN CONTENT (Entries [(lit "notes/a.md", NullEntry)])
                 (dest_notes [], [])))
     = [] ++ done ++ [ev] /\
     fst ev = Unlink (lit "content/notes/a.md") /\
     Forall passed (done ++ [ev])).
Proof.
  split.
  - destruct (@failed_run_stops_at_the_failure lib (tree src_empty)
                (dest src_empty) OBSIDIAN CONTENT
                (stored_of (m_manifest (dest_notes [lit "content/notes/a.md"])))
                (dest_notes [lit "content/notes/a.md"], [])
                (fst (@run_stored lib (tree src_empty) (dest src_empty)
                        OBSIDIAN CONTENT
                        (stored_of
                           (m_manifest (dest_notes [lit "content/notes/a.md"])))
                        (dest_notes [lit "content/notes/a.md"], [])))
                EACCES ltac:(vm_compute; reflexivity))
      as [[G _] | [S [_ [[_ [G _]] | [H | [H | H]]]]]].
    + vm_compute in G. discriminate G.
    + discriminate G.
    + destruct H as [es [rel [done [ev [_ [_ [_ [_ [G _]]]]]]]]].
      discriminate G.
    + destruct H as [es [rel [data [mt [done [_ [_ [_ [G _]]]]]]]]].
      discriminate G.
    + destruct H as [done [o [E [F _]]]]. exists done, o. auto.
  - destruct (@failed_run_stops_at_the_failure lib (tree src_empty)
                (dest src_empty) OBSIDIAN CONTENT
                (Entries [(lit "notes/a.md", NullEntry)])
                (dest_notes [], [])
                (fst (@run_stored lib (tree src_empty) (dest src_empty)
                        OBSIDIAN CONTENT
                        (Entries [(lit "notes/a.md", NullEntry)])
                        (dest_notes [], [])))
                TypeError ltac:(vm_compute; reflexivity))
      as [[G _] | [S [_ [[G _] | [H | [H | H]]]]]].
    + vm_compute in G. discriminate G.
    + discriminate G.
    + destruct H as [es [rel [done [ev [Hf [Hk [_ [_ [_ [E [U F]]]]]]]]]]].
      injection Hf as <-. destruct Hk as [<- | []].
      exists done, ev. auto.
    + destruct H as [es [rel [data [mt [done [Hf [_ [G _]]]]]]]].
      injection Hf as <-. cbn [Dict.get] in G.
      destruct (str_eqb (lit "notes/a.md") rel); discriminate G.
    + destruct H as [done [o [E _]]].
      vm_compute in E. apply (f_equal (@rev event)) in E.
      rewrite rev_app_distr in E. cbn [rev app] in E.
      injection E as _ E _. discriminate E.
Defined.

Lemma manifest_after_run_witness :
  exists S,
    @getPublishableSet lib (tree src_one) OBSIDIAN = Ok S /\
    Dict.keys manifest_one = Dict.keys S.
Proof.
  destruct (@manifest_after_run lib (tree src_one) (dest src_one)
              OBSIDIAN CONTENT (empty_dest, [])
              (fst (run_on src_one empty_dest)) manifest_one
              ltac:(vm_compute; reflexivity))
    as [S [G [K _]]].
  exists S. split; [exact G | exact K].
Defined.

Lemma only_publishable_documents_are_written_witness :
  exists evs,
    snd (fst (run_on src_one_off (after src_one empty_dest))) = [] ++ evs /\
    forall p c o, ~ In (WriteFile p c, o) evs.
Proof.
  destruct (@only_publishable_documents_are_written lib (tree src_one_off)
              (dest src_one_off) OBSIDIAN CONTENT
              (after src_one empty_dest, [])
              (fst (run_on src_one_off (after src_one empty_dest)))
              (snd (run_on src_one_off (after src_one empty_dest)))
              (surjective_pairing _))
    as [evs [E [W _]]].
  exists evs. split; [exact E|].
  intros p c o Hin.
  destruct (W p c o Hin)
    as [candidates [full [rel [text [L [Hc [HR [HP _]]]]]]]].
  vm_compute in L. injection L as <-.
  destruct Hc as [[= <- <-] | []].
  vm_compute in HR. injection HR as <-.
  vm_compute in HP. discriminate HP.
Defined.

Lemma snapshot_of_tree_witness :
  exists dirs name text,
    at_path vault_one (dirs ++ [name]) File /\ Forall visible dirs /\
    endsWith (lit ".md") name = true /\
    lit "a.md" = replace_class (N.eqb BACKSLASH) (lit "/")
                   (relative OBSIDIAN (below OBSIDIAN (dirs ++ [name]))) /\
    @src_readFile (tree src_one) (below OBSIDIAN (dirs ++ [name])) = Ok text /\
    hasPublishableFrontmatter text = true.
Proof.
  apply (proj1 (@snapshot_of_tree lib rel_lib (tree src_one) OBSIDIAN
                  vault_one (snapshot_of src_one)
                  ltac:(vm_compute; reflexivity)
                  ltac:(vm_compute; reflexivity) (lit "a.md"))).
  vm_compute. left. reflexivity.
Defined.

Lemma convertContentForQuartz_rewrites_embeds_witness :
  convertContentForQuartz
    (lit "see ![[pic 1.png]] and ![[ notes/R&D.png ]] [end]")
    [mkAsset (lit "pic 1.png") (lit "pic 1.png") (lit "pic-1.png")
             (lit "obsidian/image/pic 1.png")]
  = lit "see ![](../image/pic-1.png) and ![](../image/R-and-D.png) [end]".
Proof.
  destruct (@convertContentForQuartz_rewrites_embeds
              [(lit "see ", lit "pic 1.png");
               (lit " and ", lit " notes/R&D.png ")]
              (lit " [end]")
              [mkAsset (lit "pic 1.png") (lit "pic 1.png") (lit "pic-1.png")
                       (lit "obsidian/image/pic 1.png")])
    as [H _].
  - repeat constructor; try discriminate.
  - reflexivity.
  - repeat constructor; try discriminate.
  - exact H.
Defined.
